(** * proxy-inspector: the rewriting proxy and its in-page scripts

    A shallow embedding of [src/server.ts] (origin stripping, HTML
    rewriting, content dispatch, the two request handlers, the generated
    runtime patch) and of [src/inject/inject.ts] (navigation
    interception, the highlighter and the inspector, selectors, the DOM
    tree), followed by the properties of the specification that were
    checked against them and by further properties of the code.

    Conventions.
    - A JavaScript string is a [string]; non-ASCII text is carried by its
      UTF-8 bytes, which keeps prefix tests, substring search and
      percent-encoding as they are on the UTF-16 original. Where the code
      counts UTF-16 units ([substring], [slice(a, b)], [length]) the
      units are counted on the bytes. Half a surrogate pair, which only
      such a cut can leave, is no text; U+FFFD stands for it, as in the
      output of a UTF-8 encoder.
    - Library code the program calls but does not contain (the WHATWG URL
      parser, the HTML parser and serialiser behind cheerio, the network)
      is an explicit argument of the function that uses it.
    - cheerio's document is a forest of [node]s; an element's [attribs] is
      the JavaScript object cheerio keeps, a finite map from attribute
      name to value. The page's DOM is read the same way.
    - Changing the letter case is the ASCII one; it is [toLowerCase] and
      [toUpperCase] of JavaScript on header, tag and attribute names,
      which are ASCII. *)

From Stdlib Require Import Ascii String.
From Stdlib Require QArith_base.
From stdpp Require Import base gmap strings list.

Set Warnings "-register-all".

(* String concatenation computes under [simpl] in this file. *)
#[local] Arguments String.append !s1 s2 : simpl nomatch.

(* ================================================================== *)
(** * Part I: definitions                                              *)
(* ================================================================== *)

(** ** JavaScript string primitives *)

(** [s.startsWith(p)] *)
Fixpoint startsWith (s p : string) : bool :=
  match p, s with
  | EmptyString, _ => true
  | String _ _, EmptyString => false
  | String a p', String b s' => if Ascii.eqb a b then startsWith s' p' else false
  end.

(** [s.includes(p)] *)
Fixpoint includes (s p : string) : bool :=
  startsWith s p ||
  match s with
  | EmptyString => false
  | String _ s' => includes s' p
  end.

(** [s.slice(n)] where [n] is the length of a prefix of [s]: the bytes
    of the prefix are dropped, as its UTF-16 units are in the code. *)
Fixpoint slice (s : string) (n : nat) : string :=
  match n, s with
  | O, _ => s
  | S _, EmptyString => EmptyString
  | S k, String _ s' => slice s' k
  end.

(** UTF-16 units on UTF-8 bytes. A character is a leading byte followed
    by its continuation bytes ([10xxxxxx]); it is two units when the
    leading byte announces four bytes ([11110xxx]), one unit otherwise. *)
Definition isContinuation (c : ascii) : bool :=
  let n := nat_of_ascii c in Nat.leb 128 n && Nat.leb n 191.

Definition isLead4 (c : ascii) : bool := Nat.leb 240 (nat_of_ascii c).

(** [s.length] *)
Fixpoint utf16Length (s : string) : nat :=
  match s with
  | EmptyString => 0
  | String c s' =>
      (if isContinuation c then 0 else if isLead4 c then 2 else 1) + utf16Length s'
  end.

(** U+FFFD, which stands for half a surrogate pair. *)
Definition replacementChar : string :=
  String "239"%char (String "191"%char (String "189"%char EmptyString)).

(** [s.substring(0, n)]: the first [n] units of [s]. *)
Fixpoint substring0 (s : string) (n : nat) : string :=
  match s with
  | EmptyString => EmptyString
  | String c s' =>
      if isContinuation c then String c (substring0 s' n)
      else
        match n with
        | O => EmptyString
        | S k =>
            if isLead4 c then
              match k with
              | O => replacementChar
              | S k' => String c (substring0 s' k')
              end
            else String c (substring0 s' k)
        end
  end.

(** The continuation bytes a string begins with, dropped. *)
Fixpoint dropContinuation (s : string) : string :=
  match s with
  | EmptyString => EmptyString
  | String c s' => if isContinuation c then dropContinuation s' else s
  end.

(** [s.slice(a)] for a position [a] counted in units. *)
Fixpoint sliceUnits (s : string) (a : nat) : string :=
  match s with
  | EmptyString => EmptyString
  | String c s' =>
      match a with
      | O => s
      | S k =>
          if isContinuation c then sliceUnits s' a
          else if isLead4 c then
            match k with
            | O => replacementChar +:+ dropContinuation s'
            | S O => dropContinuation s'
            | S (S _ as k') => sliceUnits s' k'
            end
          else
            match k with
            | O => dropContinuation s'
            | S _ => sliceUnits s' k
            end
      end
  end.

(** Truthiness of a string value: only the empty string is falsy. *)
Definition truthy (s : string) : bool :=
  match s with EmptyString => false | String _ _ => true end.

(** [s || d] on strings *)
Definition orDefault (s d : string) : string := if truthy s then s else d.

(** [x && ...] on a possibly undefined string: defined and non-empty *)
Definition truthy_opt (o : option string) : bool :=
  match o with Some s => truthy s | None => false end.

(** Membership of a character in a set written as a string. *)
Fixpoint char_in (c : ascii) (set : string) : bool :=
  match set with
  | EmptyString => false
  | String d set' => Ascii.eqb c d || char_in c set'
  end.

Definition nl : string := String "010"%char EmptyString.
Definition dquote : string := String "034"%char EmptyString.

(** [pieces.join(sep)] *)
Fixpoint join (sep : string) (pieces : list string) : string :=
  match pieces with
  | [] => ""
  | [p] => p
  | p :: ps => p +:+ sep +:+ join sep ps
  end.

(** [s.split(sep)] for a non-empty separator: the pieces between the
    successive occurrences of [sep], found left to right without overlap.
    [skip] counts the characters of the separator just found that are
    still to be passed over. *)
Fixpoint split_from (sep : string) (skip : nat) (s : string) : list string :=
  match s with
  | EmptyString => [""]
  | String c s' =>
      match skip with
      | S k => split_from sep k s'
      | O =>
          if startsWith s sep
          then "" :: split_from sep (String.length sep - 1) s'
          else match split_from sep 0 s' with
               | p :: ps => String c p :: ps
               | [] => [String c ""]
               end
      end
  end.

Definition split (s sep : string) : list string := split_from sep 0 s.

(** ** Regular expressions: the fragment the program builds

    The two patterns of [server.ts] are a character class
    ([escapeRegExp]) and the escaped origin ([stripOriginInText]); both
    are sequences of atoms that consume one character each. *)

Inductive atom :=
| Lit (c : ascii)            (* an ordinary character, or an escaped one *)
| AnyChar                    (* an unescaped dot *)
| OneOf (set : string).      (* a character class [...] *)

Definition regexp := list atom.

(** The syntax characters of a pattern: the ones that are not literals
    when they stand unescaped. *)
Definition syntax_chars : string := ".*+?^${}()|[]\".

Definition line_terminator (c : ascii) : bool :=
  Ascii.eqb c "010"%char || Ascii.eqb c "013"%char.

Definition atom_matches (a : atom) (c : ascii) : bool :=
  match a with
  | Lit d => Ascii.eqb d c
  | AnyChar => negb (line_terminator c)
  | OneOf set => char_in c set
  end.

(** [new RegExp(pattern)], for patterns made of ordinary characters,
    escaped syntax characters and dots. [None] stands for a pattern
    outside this fragment (a quantifier, a group, a class: never produced
    from an escaped string) or one that [RegExp] rejects. *)
Fixpoint RegExp (pattern : string) : option regexp :=
  match pattern with
  | EmptyString => Some []
  | String c rest =>
      if Ascii.eqb c "\"%char then
        match rest with
        | EmptyString => None
        | String d rest' =>
            if char_in d syntax_chars then cons (Lit d) <$> RegExp rest' else None
        end
      else if Ascii.eqb c "."%char then cons AnyChar <$> RegExp rest
      else if char_in c syntax_chars then None
      else cons (Lit c) <$> RegExp rest
  end.

(** Match [re] at the start of [s]: the matched text, if any. *)
Fixpoint match_here (re : regexp) (s : string) : option string :=
  match re, s with
  | [], _ => Some ""
  | _ :: _, EmptyString => None
  | a :: re', String c s' =>
      if atom_matches a c then String c <$> match_here re' s' else None
  end.

(** [s.replace(re, f)] with the global flag, [f] computing the
    replacement from the matched text. Matches are taken left to right;
    after a match the scan resumes behind it ([skip] counts the matched
    characters still to be passed over); an empty match inserts the
    replacement and moves on by one character. *)
Fixpoint replace_from (re : regexp) (f : string → string)
    (skip : nat) (s : string) : string :=
  match s with
  | EmptyString =>
      match skip, match_here re "" with
      | O, Some m => f m
      | _, _ => ""
      end
  | String c s' =>
      match skip with
      | S k => replace_from re f k s'
      | O =>
          match match_here re s with
          | Some m =>
              match String.length m with
              | O => f m +:+ String c (replace_from re f 0 s')
              | S k => f m +:+ replace_from re f k s'
              end
          | None => String c (replace_from re f 0 s')
          end
      end
  end.

Definition replace_all (re : regexp) (f : string → string) (s : string) : string :=
  replace_from re f 0 s.

(** ** server.ts: helpers *)

Definition isHtml (ct : option string) : bool :=
  match ct with Some c => truthy c && includes c "text/html" | None => false end.

Definition isCss (ct : option string) : bool :=
  match ct with Some c => truthy c && includes c "text/css" | None => false end.

Definition isJs (ct : option string) : bool :=
  match ct with
  | Some c => truthy c && (includes c "javascript" || includes c "ecmascript")
  | None => false
  end.

(** [s.replace(/[.*+?^${}()|[\]\\]/g, "\\$&")] *)
Definition escapeRegExp (s : string) : string :=
  replace_all [OneOf syntax_chars] (fun m => "\" +:+ m) s.

(** [stripOriginInText]: [new RegExp] raises on a malformed pattern; the
    [None] branch stands for that and is shown unreachable
    ([RegExp_escapeRegExp]). *)
Definition stripOriginInText (text origin : string) : string :=
  if negb (truthy origin) then text
  else match RegExp (escapeRegExp origin) with
       | Some re => replace_all re (fun _ => "") text
       | None => text
       end.

Definition stripOriginInCss (css origin : string) : string :=
  stripOriginInText css origin.

(** ASCII lower-casing: header names are case-insensitive, and Node keys
    them by their lower-case form. *)
Definition lowerChar (c : ascii) : ascii :=
  let n := nat_of_ascii c in
  if Nat.leb 65 n && Nat.leb n 90 then ascii_of_nat (n + 32) else c.

Fixpoint toLowerCase (s : string) : string :=
  match s with
  | EmptyString => ""
  | String c s' => String (lowerChar c) (toLowerCase s')
  end.

(** ** The document model of cheerio

    The parser lower-cases element and attribute names, so selectors
    compare them as they stand. *)

Inductive node :=
| Text (data : string)
| Comment (data : string)
| Element (name : string) (attribs : gmap string string) (children : list node).

(** A selector of the kind [server.ts] uses looks at an element's name
    and attributes only. *)
Definition selector := string → gmap string string → bool.

Definition sel_tag (t : string) : selector := fun name _ => String.eqb name t.

Definition sel_attr (a : string) : selector :=
  fun _ attribs => match attribs !! a with Some _ => true | None => false end.

Definition sel_tag_attr (t a : string) : selector :=
  fun name attribs => sel_tag t name attribs && sel_attr a name attribs.

(** The attributes of HTML whose values css-select, the selector engine
    of cheerio, compares without regard to letter case. *)
Definition caseInsensitiveAttributes : list string :=
  ["accept"; "accept-charset"; "align"; "alink"; "axis"; "bgcolor"; "charset";
   "checked"; "clear"; "codetype"; "color"; "compact"; "declare"; "defer"; "dir";
   "direction"; "disabled"; "enctype"; "face"; "frame"; "hreflang"; "http-equiv";
   "lang"; "language"; "link"; "media"; "method"; "multiple"; "nohref"; "noresize";
   "noshade"; "nowrap"; "readonly"; "rel"; "rev"; "rules"; "scope"; "scrolling";
   "selected"; "shape"; "target"; "text"; "type"; "valign"; "valuetype"; "vlink"].

(** [t[a="v"]]. For an attribute of the list above, [http-equiv] among
    them, both values are put in lower case before they are compared.
    (JavaScript's lower case differs from the ASCII one used here only
    where it turns a letter outside ASCII into an ASCII one, which it
    does for the Kelvin sign alone, into [k]; the values [server.ts]
    compares with hold no [k].) *)
Definition sel_tag_attr_eq (t a v : string) : selector :=
  fun name attribs =>
    String.eqb name t &&
    match attribs !! a with
    | Some w =>
        if bool_decide (a ∈ caseInsensitiveAttributes)
        then String.eqb (toLowerCase w) (toLowerCase v)
        else String.eqb w v
    | None => false
    end.

(** [t:not([a])] *)
Definition sel_tag_not_attr (t a : string) : selector :=
  fun name attribs => sel_tag t name attribs && negb (sel_attr a name attribs).

Definition matches (p : selector) (n : node) : bool :=
  match n with Element name attribs _ => p name attribs | _ => false end.

(** [$(p)]: the matching elements of the document, in document order. *)
Fixpoint select (p : selector) (n : node) : list node :=
  match n with
  | Element name attribs children =>
      (if p name attribs then [n] else []) ++ (children ≫= select p)
  | _ => []
  end.

Definition selectAll (p : selector) (doc : list node) : list node :=
  doc ≫= select p.

(** [$(p).remove()] *)
Fixpoint remove (p : selector) (n : node) : node :=
  match n with
  | Element name attribs children =>
      Element name attribs
        (omap (fun m => if matches p m then None else Some (remove p m)) children)
  | _ => n
  end.

Definition removeAll (p : selector) (doc : list node) : list node :=
  omap (fun m => if matches p m then None else Some (remove p m)) doc.

(** [$(...).each] where the callback rewrites the element's attributes. *)
Fixpoint mapAttribs (f : string → gmap string string → gmap string string)
    (n : node) : node :=
  match n with
  | Element name attribs children =>
      Element name (f name attribs) (mapAttribs f <$> children)
  | _ => n
  end.

(** [$(...).each] where the callback replaces the element's children. *)
Fixpoint mapChildren (g : string → gmap string string → list node → list node)
    (n : node) : node :=
  match n with
  | Element name attribs children =>
      Element name attribs (g name attribs (mapChildren g <$> children))
  | _ => n
  end.

(** [$(p).removeAttr(a)] *)
Definition removeAttr (p : selector) (a : string) (doc : list node) : list node :=
  mapAttribs (fun name attribs => if p name attribs then delete a attribs else attribs)
    <$> doc.

(** [$(el).html()] of a [style] or [script] element. The parser gives
    such an element text children only (their content is raw text), and
    the serialiser writes that text out as it is. *)
Fixpoint rawText (children : list node) : string :=
  match children with
  | [] => ""
  | Text data :: rest => data +:+ rawText rest
  | _ :: rest => rawText rest
  end.

(** [$(el).html(s)] on a [style] or [script] element: [s] is parsed as
    raw text, one text node unless it is empty. *)
Definition textNodes (s : string) : list node :=
  if truthy s then [Text s] else [].

(** ** server.ts: rewriteHtml *)

Definition urlAttrs : list string := ["src"; "href"; "action"; "data"; "poster"].

(** The callback of [$(`[${attr}]`).each]. *)
Definition stripUrlAttr (origin attr : string)
    (name : string) (attribs : gmap string string) : gmap string string :=
  match attribs !! attr with
  | Some val =>
      if truthy val && startsWith val origin
      then <[attr := orDefault (slice val (String.length origin)) "/"]> attribs
      else attribs
  | None => attribs
  end.

(** The callback of [$("[srcset]").each] and [$("[style]").each]. *)
Definition stripTextAttr (origin attr : string)
    (name : string) (attribs : gmap string string) : gmap string string :=
  match attribs !! attr with
  | Some val =>
      if truthy val && includes val origin
      then <[attr := stripOriginInText val origin]> attribs
      else attribs
  | None => attribs
  end.

(** The callback of [$("style").each]. *)
Definition stripStyleBody (origin : string)
    (name : string) (attribs : gmap string string) (children : list node)
    : list node :=
  if sel_tag "style" name attribs then
    let css := rawText children in
    if truthy css && includes css origin
    then textNodes (stripOriginInText css origin)
    else children
  else children.

(** The callback of [$("script:not([src])").each]. *)
Definition stripInlineScript (origin : string)
    (name : string) (attribs : gmap string string) (children : list node)
    : list node :=
  if sel_tag_not_attr "script" "src" name attribs then
    if truthy_opt (attribs !! "data-proxy-injected") then children
    else
      let content := rawText children in
      if negb (truthy content) || negb (includes content origin) then children
      else textNodes (stripOriginInText content origin)
  else children.

(** [JSON.stringify] of a string. *)
Definition hexDigit (n : nat) : ascii :=
  match String.get n "0123456789abcdef" with Some c => c | None => "0"%char end.

Definition jsonEscape (c : ascii) : string :=
  let n := nat_of_ascii c in
  if Ascii.eqb c "034"%char then "\" +:+ dquote
  else if Ascii.eqb c "\"%char then "\\"
  else if Ascii.eqb c "008"%char then "\b"
  else if Ascii.eqb c "012"%char then "\f"
  else if Ascii.eqb c "010"%char then "\n"
  else if Ascii.eqb c "013"%char then "\r"
  else if Ascii.eqb c "009"%char then "\t"
  else if Nat.ltb n 32
       then "\u00" +:+ String (hexDigit (n / 16)) (String (hexDigit (n mod 16)) "")
  else String c "".

Fixpoint jsonEscapeAll (s : string) : string :=
  match s with
  | EmptyString => ""
  | String c s' => jsonEscape c +:+ jsonEscapeAll s'
  end.

Definition JSON_stringify (s : string) : string :=
  dquote +:+ jsonEscapeAll s +:+ dquote.

(** The JavaScript text of the runtime patch, as [buildRuntimePatch]
    writes it between the script tags: the constant text before and
    after the one interpolation, [JSON.stringify(origin)]. To the rewriter
    it is data; what the script does when it runs is embedded separately
    ([strip], [proxyOrStrip], [runPatch]). *)
Definition patchPrologue : string :=
  nl +:+ "(function(){" +:+ nl +:+ "  " +:+ dquote +:+ "use strict" +:+ dquote
  +:+ ";" +:+ nl +:+ "  var ORIGIN = ".

Definition patchEpilogue : string :=
";
  window.__PROXY_ORIGIN__ = ORIGIN;

  // Strip absolute origin URLs to make them relative
  // /_next/static/... stays as-is, https://target.com/_next/static/... → /_next/static/...
  function strip(u) {
    if (!u || typeof u !== 'string') return u;
    if (u.startsWith(ORIGIN)) return u.slice(ORIGIN.length) || '/';
    return u;
  }

  // For third-party domains, proxy explicitly
  function proxyOrStrip(u) {
    if (!u || typeof u !== 'string') return u;
    if (u.startsWith('data:') || u.startsWith('blob:') || u.startsWith('javascript:') || u.startsWith('#')) return u;
    if (u.startsWith(ORIGIN)) return u.slice(ORIGIN.length) || '/';
    // Third-party absolute URL → proxy explicitly
    if (/^https?:\/\//.test(u) && !u.startsWith(location.origin)) {
      return '/proxy?url=' + encodeURIComponent(u);
    }
    return u;
  }
  window.__proxyOrStrip__ = proxyOrStrip;

  /* ── Patch fetch ── */
  var _fetch = window.fetch;
  window.fetch = function(input, init) {
    if (typeof input === 'string') {
      input = proxyOrStrip(input);
    } else if (input && typeof input === 'object' && input.url) {
      try { input = new Request(proxyOrStrip(input.url), input); } catch(e) {}
    }
    return _fetch.call(this, input, init);
  };

  /* ── Patch XMLHttpRequest ── */
  var _xhrOpen = XMLHttpRequest.prototype.open;
  XMLHttpRequest.prototype.open = function(method, url) {
    if (typeof url === 'string') arguments[1] = proxyOrStrip(url);
    return _xhrOpen.apply(this, arguments);
  };

  /* ── Patch document.createElement — intercept dynamic script/link/img ── */
  var _create = document.createElement;
  document.createElement = function(tag, opts) {
    var el = _create.call(document, tag, opts);
    var t = (typeof tag === 'string') ? tag.toLowerCase() : '';
    if (t === 'script' || t === 'img' || t === 'video' || t === 'audio' || t === 'source' || t === 'embed') {
      patchElSrc(el);
    }
    if (t === 'link') {
      patchElHref(el);
    }
    return el;
  };

  function patchElSrc(el) {
    var orig = HTMLElement.prototype.setAttribute;
    el.setAttribute = function(n, v) {
      if (n === 'src') v = strip(v);
      if (n === 'integrity') return;
      return orig.call(this, n, v);
    };
  }

  function patchElHref(el) {
    var orig = HTMLElement.prototype.setAttribute;
    el.setAttribute = function(n, v) {
      if (n === 'href') v = strip(v);
      if (n === 'integrity') return;
      return orig.call(this, n, v);
    };
  }

  /* ── Patch appendChild / insertBefore — catch dynamic DOM additions ── */
  var origAppend = Node.prototype.appendChild;
  Node.prototype.appendChild = function(child) {
    fixChild(child);
    return origAppend.call(this, child);
  };
  var origInsert = Node.prototype.insertBefore;
  Node.prototype.insertBefore = function(child, ref) {
    fixChild(child);
    return origInsert.call(this, child, ref);
  };

  function fixChild(child) {
    if (!child || !child.tagName) return;
    try {
      // Strip origin from src
      var src = child.getAttribute && child.getAttribute('src');
      if (src && src.startsWith(ORIGIN)) {
        child.setAttribute('src', src.slice(ORIGIN.length) || '/');
      }
      // Strip origin from href
      var href = child.getAttribute && child.getAttribute('href');
      if (href && href.startsWith(ORIGIN)) {
        child.setAttribute('href', href.slice(ORIGIN.length) || '/');
      }
      // Remove integrity
      child.removeAttribute('integrity');
      child.removeAttribute('crossorigin');
    } catch(e) {}
  }

  /* ── Patch window.open ── */
  var _open = window.open;
  window.open = function(url, target, features) {
    return _open.call(this, strip(url), target, features);
  };

  /* ── Patch Image constructor ── */
  var _Image = window.Image;
  window.Image = function(w, h) {
    var img = new _Image(w, h);
    patchElSrc(img);
    return img;
  };
  window.Image.prototype = _Image.prototype;

  /* ── EventSource (Next.js HMR) ── */
  if (window.EventSource) {
    var _ES = window.EventSource;
    window.EventSource = function(url, cfg) { return new _ES(strip(url), cfg); };
    window.EventSource.prototype = _ES.prototype;
  }

  /* ── WebSocket (Next.js HMR) → redirect to real host ── */
  if (window.WebSocket) {
    var _WS = window.WebSocket;
    window.WebSocket = function(url, protocols) {
      try {
        var p = new URL(url);
        if (p.hostname === location.hostname && String(p.port) === String(location.port)) {
          var t = new URL(ORIGIN);
          p.hostname = t.hostname;
          p.port = t.port || (p.protocol === 'wss:' ? '443' : '80');
          url = p.href;
        }
      } catch(e) {}
      return new _WS(url, protocols);
    };
    window.WebSocket.prototype = _WS.prototype;
    window.WebSocket.CONNECTING = _WS.CONNECTING;
    window.WebSocket.OPEN = _WS.OPEN;
    window.WebSocket.CLOSING = _WS.CLOSING;
    window.WebSocket.CLOSED = _WS.CLOSED;
  }

  /* ── Patch location.assign / replace — notify parent ── */
  var _assign = location.assign ? location.assign.bind(location) : null;
  var _replace = location.replace ? location.replace.bind(location) : null;
  if (_assign) {
    location.assign = function(url) {
      var full = url;
      if (url && url.startsWith('/')) full = ORIGIN + url;
      window.parent.postMessage({ source: 'proxy-highlight', type: 'link-navigation', data: { url: full, text: '', selector: '', type: 'location.assign' } }, '*');
    };
  }
  if (_replace) {
    location.replace = function(url) {
      var full = url;
      if (url && url.startsWith('/')) full = ORIGIN + url;
      window.parent.postMessage({ source: 'proxy-highlight', type: 'link-navigation', data: { url: full, text: '', selector: '', type: 'location.replace' } }, '*');
    };
  }

  console.log('[Proxy Highlighter] Runtime patches applied for:', ORIGIN);
})();
".

Definition patchScriptText (origin : string) : string :=
  patchPrologue +:+ JSON_stringify origin +:+ patchEpilogue.

Definition injectedAttribs : gmap string string :=
  {[ "data-proxy-injected" := "true" ]}.

(** [buildRuntimePatch(origin)] as cheerio parses it on insertion: a
    line break, the marked script element, a line break. *)
Definition buildRuntimePatch (origin : string) : list node :=
  [ Text nl;
    Element "script" injectedAttribs (textNodes (patchScriptText origin));
    Text nl ].

(** [<script data-proxy-injected="true">${injectScript}</script>] *)
Definition injectTag (injectScript : string) : list node :=
  [ Element "script" injectedAttribs (textNodes injectScript) ].

(** [$(p).prepend(content)] and [$(p).append(content)] *)
Definition prepend (p : selector) (content : list node) (doc : list node) : list node :=
  mapChildren (fun name attribs children =>
                 if p name attribs then content ++ children else children) <$> doc.

Definition append (p : selector) (content : list node) (doc : list node) : list node :=
  mapChildren (fun name attribs children =>
                 if p name attribs then children ++ content else children) <$> doc.

(** [$(p).length] is non-zero *)
Definition exists_sel (p : selector) (doc : list node) : bool :=
  match selectAll p doc with [] => false | _ :: _ => true end.

(** The removal steps of [rewriteHtml]. *)
Definition removeBlockers (doc : list node) : list node :=
  let doc := removeAll (sel_tag "base") doc in
  let doc := removeAll (sel_tag_attr_eq "meta" "http-equiv" "Content-Security-Policy") doc in
  let doc := removeAll (sel_tag_attr_eq "meta" "http-equiv" "Content-Security-Policy-Report-Only") doc in
  let doc := removeAll (sel_tag_attr_eq "meta" "http-equiv" "X-Frame-Options") doc in
  let doc := removeAttr (sel_attr "integrity") "integrity" doc in
  let doc := removeAttr (sel_attr "nonce") "nonce" doc in
  let doc := removeAttr (sel_tag_attr "script" "crossorigin") "crossorigin" doc in
  removeAttr (sel_tag_attr "link" "crossorigin") "crossorigin" doc.

(** The origin-stripping steps of [rewriteHtml]. *)
Definition stripOrigin (origin : string) (doc : list node) : list node :=
  let doc :=
    foldl (fun d attr => mapAttribs (stripUrlAttr origin attr) <$> d) doc urlAttrs in
  let doc := mapAttribs (stripTextAttr origin "srcset") <$> doc in
  let doc := mapAttribs (stripTextAttr origin "style") <$> doc in
  let doc := mapChildren (stripStyleBody origin) <$> doc in
  mapChildren (stripInlineScript origin) <$> doc.

(** The two injections of [rewriteHtml]. *)
Definition injectRuntimePatch (origin : string) (doc : list node) : list node :=
  let runtimePatch := buildRuntimePatch origin in
  if exists_sel (sel_tag "head") doc then prepend (sel_tag "head") runtimePatch doc
  else if exists_sel (sel_tag "html") doc
       then prepend (sel_tag "html") [Element "head" ∅ runtimePatch] doc
       else doc.

Definition injectHighlight (injectScript : string) (doc : list node) : list node :=
  let tag := injectTag injectScript in
  if exists_sel (sel_tag "body") doc then append (sel_tag "body") tag doc
  else append (sel_tag "head") tag doc.

(** [rewriteHtml] between [cheerio.load(html)] and [$.html()]: [doc] is
    the parsed document, [origin] is [new URL(baseUrl).origin] and
    [injectScript] the content of [dist-inject/inject.js]. *)
Definition rewriteDom (origin injectScript : string) (doc : list node) : list node :=
  injectHighlight injectScript
    (injectRuntimePatch origin (stripOrigin origin (removeBlockers doc))).

(** ** server.ts: responses, upstream fetches, handlers *)

(** What the handler hands to [res.send], [res.json] or [res.sendStatus]. *)
Inductive payload :=
| Body (text : string)                       (* res.send(string) *)
| Bytes (data : string)                      (* res.send(Buffer) *)
| Json (fields : list (string * string))     (* res.json({...}) *)
| StatusOnly.                                (* res.sendStatus(code) *)

(** The Express response as the handler has shaped it when it calls
    [res.send], [res.json] or [res.sendStatus]: the status and the
    headers set so far, and what the call hands over. What Express makes
    of the call before the response leaves (the charset it puts into the
    content type, the ETag and the Content-Length it adds, the 304 it
    answers to a fresh conditional request) is [respond], below. *)
Record Response := mkResponse {
  res_status : nat;
  res_headers : gmap string string;
  res_payload : payload
}.

(** The response a handler is given: Express has set [X-Powered-By]. *)
Definition freshResponse : Response :=
  mkResponse 200 {[ "x-powered-by" := "Express" ]} StatusOnly.

Definition setHeader (name value : string) (res : Response) : Response :=
  mkResponse (res_status res) (<[toLowerCase name := value]> (res_headers res))
    (res_payload res).

Definition removeHeader (name : string) (res : Response) : Response :=
  mkResponse (res_status res) (delete (toLowerCase name) (res_headers res))
    (res_payload res).

Definition getHeader (name : string) (res : Response) : option string :=
  res_headers res !! toLowerCase name.

Definition status (code : nat) (res : Response) : Response :=
  mkResponse code (res_headers res) (res_payload res).

(** The calls [res.send(text)] with a string and [res.send(buffer)]
    with a Buffer, as the handler makes them: the response as it stands
    at the call, with what is handed over. What [res.send] then does to
    it is [respond]. *)
Definition send (text : string) (res : Response) : Response :=
  mkResponse (res_status res) (res_headers res) (Body text).

Definition sendBuffer (data : string) (res : Response) : Response :=
  mkResponse (res_status res) (res_headers res) (Bytes data).

(** [res.json(obj)] sets the JSON content type unless one is set. *)
Definition json (fields : list (string * string)) (res : Response) : Response :=
  let res :=
    match getHeader "Content-Type" res with
    | Some _ => res
    | None => setHeader "Content-Type" "application/json; charset=utf-8" res
    end in
  mkResponse (res_status res) (res_headers res) (Json fields).

Definition sendStatus (code : nat) (res : Response) : Response :=
  mkResponse code (res_headers res) StatusOnly.

Definition setPermissiveHeaders (res : Response) : Response :=
  let res := setHeader "Access-Control-Allow-Origin" "*" res in
  let res := setHeader "Access-Control-Allow-Methods" "GET, POST, PUT, DELETE, OPTIONS" res in
  let res := setHeader "Access-Control-Allow-Headers" "*" res in
  let res := removeHeader "X-Frame-Options" res in
  let res := removeHeader "Content-Security-Policy" res in
  let res := removeHeader "Content-Security-Policy-Report-Only" res in
  removeHeader "X-Content-Type-Options" res.

Definition buildFetchHeaders (targetOrigin : string) : gmap string string :=
  {[ "User-Agent" :=
       "Mozilla/5.0 (Macintosh; Intel Mac OS X 10_15_7) AppleWebKit/537.36 (KHTML, like Gecko) Chrome/120.0.0.0 Safari/537.36";
     "Accept" :=
       "text/html,application/xhtml+xml,application/xml;q=0.9,image/avif,image/webp,*/*;q=0.8";
     "Accept-Language" := "en-US,en;q=0.5";
     "Accept-Encoding" := "identity";
     "Referer" := targetOrigin +:+ "/";
     "Origin" := targetOrigin ]}.

(** The upstream response of node-fetch: its final URL, its status, its
    headers (keyed in lower case, as [headers.get] looks them up) and its
    body, [None] when reading the body ([response.text()],
    [response.buffer()]) fails. *)
Record FetchResponse := mkFetchResponse {
  fr_url : string;
  fr_status : nat;
  fr_headers : gmap string string;
  fr_body : option string
}.

Definition headers_get (name : string) (r : FetchResponse) : option string :=
  fr_headers r !! toLowerCase name.

Record FetchOpts := mkFetchOpts {
  fo_method : string;
  fo_headers : gmap string string;
  fo_redirect : string;
  fo_body : option string
}.

Inductive FetchResult :=
| Fetched (response : FetchResponse)
| FetchFailed (message : string).      (* the promise rejects with err.message *)

(** A handler is a computation that may call [fetch] and continues with
    what the network answers. *)
Inductive Proc (A : Type) :=
| Done (a : A)
| Fetch (url : string) (opts : FetchOpts) (k : FetchResult → Proc A).
Arguments Done {A} a.
Arguments Fetch {A} url opts k.

(** Running a handler against a network: the result and the requests
    that went upstream, in order. *)
Fixpoint run {A} (net : string → FetchOpts → FetchResult) (p : Proc A)
    : A * list (string * FetchOpts) :=
  match p with
  | Done a => (a, [])
  | Fetch url opts k =>
      let '(a, log) := run net (k (net url opts)) in (a, (url, opts) :: log)
  end.

(** How a handler ends: a response went out, or its promise rejected
    outside any [try] and nothing was sent. *)
Inductive Outcome :=
| Sent (res : Response)
| Rejected.

(** The libraries and files [server.ts] relies on. *)
Record Platform := mkPlatform {
  URL_origin : string → option string;        (* new URL(u).origin; None: it throws *)
  cheerio_load : string → list node;           (* cheerio.load(html) *)
  cheerio_html : list node → string;           (* $.html() *)
  injectScript : string                        (* dist-inject/inject.js *)
}.

(** [rewriteHtml(html, baseUrl)]; [None] when [new URL(baseUrl)] throws. *)
Definition rewriteHtml (P : Platform) (html baseUrl : string) : option string :=
  match URL_origin P baseUrl with
  | Some origin =>
      Some (cheerio_html P (rewriteDom origin (injectScript P) (cheerio_load P html)))
  | None => None
  end.

(** [if (v) res.setHeader(name, v)] *)
Definition forwardHeader (name : string) (v : option string) (res : Response) : Response :=
  match v with
  | Some s => if truthy s then setHeader name s res else res
  | None => res
  end.

(** [processAndSend]; [currentTargetOrigin] is the tracked origin at the
    time of the call. Every branch reads the body first: where that
    fails the promise of [processAndSend] rejects and nothing is sent. *)
Definition processAndSend (P : Platform) (currentTargetOrigin : string)
    (response : FetchResponse) (finalUrl : string) (res : Response)
    (isMainHtml : bool) : Outcome :=
  let contentType := headers_get "content-type" response in
  let res := setPermissiveHeaders res in
  let res := forwardHeader "Cache-Control" (headers_get "cache-control" response) res in
  let res := forwardHeader "ETag" (headers_get "etag" response) res in
  let origin :=
    match URL_origin P finalUrl with
    | Some o => o
    | None => currentTargetOrigin
    end in
  match fr_body response with
  | None => Rejected
  | Some body =>
      if isHtml contentType then
        let res := setHeader "Content-Type" "text/html; charset=utf-8" res in
        match rewriteHtml P body finalUrl with
        | Some out => Sent (send out res)
        | None => Rejected
        end
      else if isCss contentType then
        let res := setHeader "Content-Type"
                     (match contentType with
                      | Some c => orDefault c "text/css"
                      | None => "text/css"
                      end) res in
        Sent (send (stripOriginInCss body origin) res)
      else if isJs contentType then
        let res := forwardHeader "Content-Type" contentType res in
        Sent (send (stripOriginInText body origin) res)
      else if match contentType with
              | Some c => truthy c && includes c "application/json"
              | None => false
              end then
        let res := forwardHeader "Content-Type" contentType res in
        Sent (send (stripOriginInText body origin) res)
      else
        let res := forwardHeader "Content-Type" contentType res in
        Sent (sendBuffer body res)
  end.

(** The incoming request, as far as the handlers read it. *)
Record Request := mkRequest {
  req_method : string;
  req_originalUrl : string;                  (* path and query, as received *)
  req_query_url : option string;             (* req.query.url *)
  req_accept : option string;                (* req.headers.accept *)
  req_content_type : option string;          (* req.headers["content-type"] *)
  req_chunks : list string                   (* the body, as it arrives *)
}.

(** The message of the [TypeError] that [new URL] throws. *)
Definition invalidUrlMessage : string := "Invalid URL".

(** [app.get("/proxy", ...)]. The state threaded through is
    [currentTargetOrigin]. *)
Definition proxyHandler (P : Platform) (currentTargetOrigin : string) (req : Request)
    : Proc (string * Outcome) :=
  let res := freshResponse in
  match req_query_url req with
  | None =>
      Done (currentTargetOrigin,
            Sent (json [("error", "Missing ?url= parameter")] (status 400 res)))
  | Some targetUrl =>
      if negb (truthy targetUrl) then
        Done (currentTargetOrigin,
              Sent (json [("error", "Missing ?url= parameter")] (status 400 res)))
      else
        let failure (message : string) :=
          Sent (json [("error", "Failed to fetch target URL");
                      ("details", message); ("url", targetUrl)] (status 502 res)) in
        match URL_origin P targetUrl with
        | None => Done (currentTargetOrigin, failure invalidUrlMessage)
        | Some targetOrigin =>
            Fetch targetUrl
              (mkFetchOpts "GET" (buildFetchHeaders targetOrigin) "follow" None)
              (fun result =>
                 match result with
                 | FetchFailed message => Done (currentTargetOrigin, failure message)
                 | Fetched response =>
                     let finalUrl := fr_url response in
                     match URL_origin P finalUrl with
                     | None => Done (currentTargetOrigin, failure invalidUrlMessage)
                     | Some finalOrigin =>
                         let contentType := headers_get "content-type" response in
                         let current :=
                           if isHtml contentType then finalOrigin
                           else currentTargetOrigin in
                         Done (current,
                               processAndSend P current response finalUrl res
                                 (isHtml contentType))
                     end
                 end)
        end
  end.

(** [app.options("*", ...)] *)
Definition optionsHandler (req : Request) : Response :=
  sendStatus 204 (setPermissiveHeaders freshResponse).

(** [Buffer.concat(chunks)] *)
Definition concatChunks (chunks : list string) : string :=
  foldr String.append "" chunks.

(** The catch-all [app.use(...)]. *)
Definition catchAll (P : Platform) (currentTargetOrigin : string) (req : Request)
    : Proc (string * Outcome) :=
  let res := freshResponse in
  if negb (truthy currentTargetOrigin) then
    Done (currentTargetOrigin,
          Sent (json [("error", "No target origin set. Load a page via /proxy?url= first.")]
                  (status 404 res)))
  else
    let targetUrl := currentTargetOrigin +:+ req_originalUrl req in
    let headers :=
      <["Accept" := match req_accept req with
                    | Some a => orDefault a "*/*"
                    | None => "*/*"
                    end]> (buildFetchHeaders currentTargetOrigin) in
    let fetchOpts := mkFetchOpts (req_method req) headers "follow" None in
    let fetchOpts :=
      if negb (String.eqb (req_method req) "GET") && negb (String.eqb (req_method req) "HEAD")
      then
        match req_chunks req with
        | [] => fetchOpts
        | _ :: _ =>
            mkFetchOpts (req_method req)
              (if truthy_opt (req_content_type req)
               then <["Content-Type" := default "" (req_content_type req)]> headers
               else headers)
              "follow" (Some (concatChunks (req_chunks req)))
        end
      else fetchOpts in
    Fetch targetUrl fetchOpts
      (fun result =>
         match result with
         | FetchFailed message =>
             Done (currentTargetOrigin,
                   Sent (json [("error", "Failed to fetch from target");
                               ("details", message); ("url", targetUrl)]
                           (status 502 res)))
         | Fetched response =>
             Done (currentTargetOrigin,
                   processAndSend P currentTargetOrigin response (fr_url response) res false)
         end).

(** ** The runtime patch as it runs in the page (the script text of
       [buildRuntimePatch]) *)

(** [strip(u)], on strings ([ORIGIN] is the interpolated origin). *)
Definition strip (ORIGIN u : string) : string :=
  if negb (truthy u) then u
  else if startsWith u ORIGIN then orDefault (slice u (String.length ORIGIN)) "/"
  else u.

(** [encodeURIComponent]: letters, digits and [-_.!~*'()] stay, every
    other byte of the UTF-8 form becomes [%XX]. *)
Definition isAlnum (c : ascii) : bool :=
  let n := nat_of_ascii c in
  (Nat.leb 48 n && Nat.leb n 57) || (Nat.leb 65 n && Nat.leb n 90)
  || (Nat.leb 97 n && Nat.leb n 122).

Definition uriUnreserved (c : ascii) : bool := isAlnum c || char_in c "-_.!~*'()".

Definition upperHexDigit (n : nat) : ascii :=
  match String.get n "0123456789ABCDEF" with Some c => c | None => "0"%char end.

Definition percentEncode (c : ascii) : string :=
  let n := nat_of_ascii c in
  String "%"%char (String (upperHexDigit (n / 16)) (String (upperHexDigit (n mod 16)) "")).

Fixpoint encodeURIComponent (s : string) : string :=
  match s with
  | EmptyString => ""
  | String c s' =>
      (if uriUnreserved c then String c "" else percentEncode c)
      +:+ encodeURIComponent s'
  end.

(** [/^https?:\/\//.test(u)] *)
Definition isHttpUrl (u : string) : bool :=
  startsWith u "http://" || startsWith u "https://".

(** The four prefixes [proxyOrStrip] leaves alone. *)
Definition isExempt (u : string) : bool :=
  startsWith u "data:" || startsWith u "blob:" || startsWith u "javascript:"
  || startsWith u "#".

(** [proxyOrStrip(u)], on strings; [locationOrigin] is [location.origin]
    of the page the script runs in. *)
Definition proxyOrStrip (ORIGIN locationOrigin u : string) : string :=
  if negb (truthy u) then u
  else if isExempt u then u
  else if startsWith u ORIGIN then orDefault (slice u (String.length ORIGIN)) "/"
  else if isHttpUrl u && negb (startsWith u locationOrigin)
       then "/proxy?url=" +:+ encodeURIComponent u
  else u.

(** A browser primitive the patch wraps: the native one, or a wrapper
    that closes over [ORIGIN] and over the implementation it replaced. *)
Inductive prim :=
| Native
| Patched (ORIGIN : string) (orig : prim).

(** [location.assign] / [location.replace]: the native navigation, or the
    function the patch means to put in its place, which only reports. *)
Inductive navfn :=
| NativeNav
| ReportNav (ORIGIN : string).

(** The globals the patch reads and writes. A primitive the environment
    lacks is [None]. *)
Record Window := mkWindow {
  w_PROXY_ORIGIN : option string;            (* window.__PROXY_ORIGIN__ *)
  w_proxyOrStrip : option string;            (* window.__proxyOrStrip__, by its ORIGIN *)
  w_fetch : prim;
  w_xhrOpen : prim;                          (* XMLHttpRequest.prototype.open *)
  w_createElement : prim;
  w_appendChild : prim;                      (* Node.prototype.appendChild *)
  w_insertBefore : prim;
  w_open : prim;
  w_Image : prim;
  w_EventSource : option prim;
  w_WebSocket : option prim;
  w_locationAssign : option navfn;
  w_locationReplace : option navfn
}.

(** One execution of the patch script. Its last step does not succeed:
    [assign] and [replace] are read-only properties of [location], so in
    this strict-mode script [location.assign = function ...] raises a
    [TypeError], which ends the script with everything before it in
    place and both methods as they were. (Where the environment has no
    [location.assign] the test [if (_assign)] skips the assignment, and
    the same goes for [replace].) *)
Definition runPatch (ORIGIN : string) (w : Window) : Window :=
  mkWindow
    (Some ORIGIN)
    (Some ORIGIN)
    (Patched ORIGIN (w_fetch w))
    (Patched ORIGIN (w_xhrOpen w))
    (Patched ORIGIN (w_createElement w))
    (Patched ORIGIN (w_appendChild w))
    (Patched ORIGIN (w_insertBefore w))
    (Patched ORIGIN (w_open w))
    (Patched ORIGIN (w_Image w))
    (Patched ORIGIN <$> w_EventSource w)
    (Patched ORIGIN <$> w_WebSocket w)
    (w_locationAssign w)
    (w_locationReplace w).

(** The first argument of [fetch]. *)
Inductive fetchInput :=
| UrlString (u : string)
| RequestObject (url : string).

(** [window.fetch(input)]: the input that reaches the native [fetch]. *)
Fixpoint callFetch (f : prim) (locationOrigin : string) (input : fetchInput)
    : fetchInput :=
  match f with
  | Native => input
  | Patched ORIGIN orig =>
      callFetch orig locationOrigin
        match input with
        | UrlString u => UrlString (proxyOrStrip ORIGIN locationOrigin u)
        | RequestObject url =>
            if truthy url then RequestObject (proxyOrStrip ORIGIN locationOrigin url)
            else input
        end
  end.

(** [xhr.open(method, url)]: the URL that reaches the native [open]. *)
Fixpoint callXhrOpen (f : prim) (locationOrigin url : string) : string :=
  match f with
  | Native => url
  | Patched ORIGIN orig => callXhrOpen orig locationOrigin (proxyOrStrip ORIGIN locationOrigin url)
  end.

(** [window.open(url)] and [new EventSource(url)]: the URL that reaches
    the native one. *)
Fixpoint callWithStrip (f : prim) (url : string) : string :=
  match f with
  | Native => url
  | Patched ORIGIN orig => callWithStrip orig (strip ORIGIN url)
  end.

(** ** inject.ts: navigation interception *)

(** A parsed URL, as [new URL] and [window.location] expose it. *)
Record URLRecord := mkURL {
  url_href : string;
  url_origin : string;
  url_pathname : string;
  url_search : string;
  url_hash : string
}.

(** The messages posted to the parent frame that navigation produces,
    each under [source: "proxy-highlight"]. *)
Inductive message :=
| Ready (url : string)
| LinkNavigation (url text selector : string) (type : option string).

(** [history.pushState] / [history.replaceState]: native, or the
    override of inject.ts. *)
Inductive histfn :=
| NativeHistory
| ReportHistory.

Record Page := mkPage {
  pg_window : Window;
  pg_location : URLRecord;
  pg_entries : list string;            (* the session history, oldest first *)
  pg_outbox : list message;            (* posted to the parent, oldest first *)
  pg_HIGHLIGHT_INIT : bool;            (* window.__PROXY_HIGHLIGHT_INIT__ *)
  pg_inspectorMode : bool;
  pg_linkListener : bool;              (* the capturing click listener is installed *)
  pg_pushState : histfn;
  pg_replaceState : histfn
}.

Definition notifyParent (m : message) (pg : Page) : Page :=
  mkPage (pg_window pg) (pg_location pg) (pg_entries pg) (pg_outbox pg ++ [m])
    (pg_HIGHLIGHT_INIT pg) (pg_inspectorMode pg) (pg_linkListener pg)
    (pg_pushState pg) (pg_replaceState pg).

(** An element on the path from the click target upwards. *)
Record Elem := mkElem {
  el_tagName : string;
  el_href : option string;       (* getAttribute("href") *)
  el_text : string;              (* (textContent || "").trim() *)
  el_selector : string           (* getUniqueSelector(el) *)
}.

(** The [while] loop of the click listener: [path] is the target followed
    by its ancestors. *)
Fixpoint closestAnchor (path : list Elem) : option Elem :=
  match path with
  | [] => None
  | el :: up => if String.eqb (el_tagName el) "A" then Some el else closestAnchor up
  end.

(** [origin ? origin + pathname + search + hash : resolved.href] with
    [origin = window.__PROXY_ORIGIN__ || ""] *)
Definition reportedUrl (w : Window) (resolved : URLRecord) : string :=
  let origin := match w_PROXY_ORIGIN w with Some o => o | None => "" end in
  if truthy origin
  then origin +:+ url_pathname resolved +:+ url_search resolved +:+ url_hash resolved
  else url_href resolved.

(** The click listener. [newURL href base] is [new URL(href, base)], [None]
    when it throws. The result tells whether the click was blocked
    ([preventDefault] and [stopPropagation]). *)
Definition clickListener (newURL : string → string → option URLRecord)
    (pg : Page) (path : list Elem) : Page * bool :=
  if pg_inspectorMode pg then (pg, false)
  else
    match closestAnchor path with
    | None => (pg, false)
    | Some anchor =>
        match el_href anchor with
        | None => (pg, false)
        | Some href =>
            if negb (truthy href) then (pg, false)
            else if startsWith href "#" || startsWith href "javascript:"
                    || startsWith href "mailto:" || startsWith href "tel:"
            then (pg, false)
            else
              let loc := pg_location pg in
              let report fullUrl :=
                (notifyParent
                   (LinkNavigation fullUrl (substring0 (el_text anchor) 200)
                      (el_selector anchor) None) pg, true) in
              match newURL href (url_href loc) with
              | Some resolved =>
                  if String.eqb (url_pathname resolved) (url_pathname loc)
                     && String.eqb (url_search resolved) (url_search loc)
                     && negb (String.eqb (url_hash resolved) (url_hash loc))
                  then (pg, false)
                  else report (reportedUrl (pg_window pg) resolved)
              | None => report href
              end
        end
    end.

(** The URL a history override reports. *)
Definition historyUrl (newURL : string → string → option URLRecord)
    (pg : Page) (url : string) : string :=
  match newURL url (url_href (pg_location pg)) with
  | Some resolved => reportedUrl (pg_window pg) resolved
  | None => url
  end.

(** The override of [history.pushState(state, title, url)]; [url] is
    [None] when the argument is absent or null. *)
Definition pushStateOverride (newURL : string → string → option URLRecord)
    (pg : Page) (url : option string) : Page :=
  match url with
  | Some u =>
      if truthy u
      then notifyParent (LinkNavigation (historyUrl newURL pg u) "" "" (Some "pushState")) pg
      else pg
  | None => pg
  end.

(** The override of [history.replaceState(state, title, url)]. *)
Definition replaceStateOverride (newURL : string → string → option URLRecord)
    (pg : Page) (url : option string) : Page :=
  match url with
  | Some u =>
      if truthy u && negb (String.eqb u (url_href (pg_location pg)))
      then notifyParent (LinkNavigation (historyUrl newURL pg u) "" "" (Some "replaceState")) pg
      else pg
  | None => pg
  end.

(** The browser's own [pushState] / [replaceState] ([origPushState],
    [origReplaceState]): a same-origin URL becomes the current location,
    pushed as a new entry or put in the place of the last one; any other
    raises and changes nothing. *)
Definition withLocation (loc : URLRecord) (entries : list string) (pg : Page) : Page :=
  mkPage (pg_window pg) loc entries (pg_outbox pg)
    (pg_HIGHLIGHT_INIT pg) (pg_inspectorMode pg) (pg_linkListener pg)
    (pg_pushState pg) (pg_replaceState pg).

Definition nativePushState (newURL : string → string → option URLRecord)
    (pg : Page) (url : option string) : Page :=
  match url with
  | Some u =>
      match newURL u (url_href (pg_location pg)) with
      | Some r =>
          if String.eqb (url_origin r) (url_origin (pg_location pg))
          then withLocation r (pg_entries pg ++ [url_href r]) pg
          else pg
      | None => pg
      end
  | None => withLocation (pg_location pg) (pg_entries pg ++ [url_href (pg_location pg)]) pg
  end.

Definition nativeReplaceState (newURL : string → string → option URLRecord)
    (pg : Page) (url : option string) : Page :=
  match url with
  | Some u =>
      match newURL u (url_href (pg_location pg)) with
      | Some r =>
          if String.eqb (url_origin r) (url_origin (pg_location pg))
          then withLocation r (removelast (pg_entries pg) ++ [url_href r]) pg
          else pg
      | None => pg
      end
  | None => pg
  end.

(** A call of [history.pushState] / [history.replaceState] by the page. *)
Definition history_pushState (newURL : string → string → option URLRecord)
    (pg : Page) (url : option string) : Page :=
  match pg_pushState pg with
  | NativeHistory => nativePushState newURL pg url
  | ReportHistory => pushStateOverride newURL pg url
  end.

Definition history_replaceState (newURL : string → string → option URLRecord)
    (pg : Page) (url : option string) : Page :=
  match pg_replaceState pg with
  | NativeHistory => nativeReplaceState newURL pg url
  | ReportHistory => replaceStateOverride newURL pg url
  end.

(** One execution of the highlight bundle, as far as navigation goes: the
    guard, the click listener, the two history overrides and the [ready]
    message. *)
Definition runInject (pg : Page) : Page :=
  if pg_HIGHLIGHT_INIT pg then pg
  else
    mkPage (pg_window pg) (pg_location pg) (pg_entries pg)
      (pg_outbox pg ++ [Ready (url_href (pg_location pg))])
      true (pg_inspectorMode pg) true ReportHistory ReportHistory.

(** The runtime patch run in a page. *)
Definition runPatchIn (ORIGIN : string) (pg : Page) : Page :=
  mkPage (runPatch ORIGIN (pg_window pg)) (pg_location pg) (pg_entries pg)
    (pg_outbox pg) (pg_HIGHLIGHT_INIT pg) (pg_inspectorMode pg)
    (pg_linkListener pg) (pg_pushState pg) (pg_replaceState pg).

(** ** Vocabulary of the properties *)

(** The pattern that matches [s] and nothing else. *)
Fixpoint literal (s : string) : regexp :=
  match s with
  | EmptyString => []
  | String c s' => Lit c :: literal s'
  end.

(** The content types [processAndSend] rewrites as text: the three
    tests that follow the HTML test. *)
Definition isJson (ct : option string) : bool :=
  match ct with
  | Some c => truthy c && includes c "application/json"
  | None => false
  end.

Definition isRewrittenText (ct : option string) : bool :=
  isCss ct || isJs ct || isJson ct.

(** The headers [setPermissiveHeaders] is there for: the three CORS
    headers present with their values, the four blocking headers absent. *)
Definition permissive (res : Response) : Prop :=
  getHeader "Access-Control-Allow-Origin" res = Some "*" ∧
  getHeader "Access-Control-Allow-Methods" res = Some "GET, POST, PUT, DELETE, OPTIONS" ∧
  getHeader "Access-Control-Allow-Headers" res = Some "*" ∧
  getHeader "X-Frame-Options" res = None ∧
  getHeader "Content-Security-Policy" res = None ∧
  getHeader "Content-Security-Policy-Report-Only" res = None ∧
  getHeader "X-Content-Type-Options" res = None.

(** No CORS header at all, and none of the blocking headers either. *)
Definition bare (res : Response) : Prop :=
  getHeader "Access-Control-Allow-Origin" res = None ∧
  getHeader "Access-Control-Allow-Methods" res = None ∧
  getHeader "Access-Control-Allow-Headers" res = None ∧
  getHeader "X-Frame-Options" res = None ∧
  getHeader "Content-Security-Policy" res = None ∧
  getHeader "Content-Security-Policy-Report-Only" res = None ∧
  getHeader "X-Content-Type-Options" res = None.

(** A platform for the worked examples. Its URL parser knows the two
    hosts the examples use (for a URL on one of them the origin is the
    scheme and host, whatever follows). Its HTML parser and serialiser
    are placeholders: no example looks at a rewritten HTML body, the
    rewriting of documents is examined on [rewriteDom] itself. *)
Definition exampleOrigin (u : string) : option string :=
  if String.eqb u "https://t.example" || startsWith u "https://t.example/"
  then Some "https://t.example"
  else if String.eqb u "https://other.example" || startsWith u "https://other.example/"
  then Some "https://other.example"
  else None.

Definition examplePlatform : Platform :=
  mkPlatform exampleOrigin (fun _ => []) (fun _ => "") "".

(** The response of [processAndSend] before the body is chosen: the
    permissive headers and the two forwarded ones. *)
Definition preparedResponse (response : FetchResponse) (res : Response) : Response :=
  forwardHeader "ETag" (headers_get "etag" response)
    (forwardHeader "Cache-Control" (headers_get "cache-control" response)
       (setPermissiveHeaders res)).

(** Requests and upstream answers of the worked examples. *)
Definition getRequest (originalUrl : string) (queryUrl : option string) : Request :=
  mkRequest "GET" originalUrl queryUrl None None [].

Definition upstream (url contentType body : string) : FetchResponse :=
  mkFetchResponse url 200 {[ "content-type" := contentType ]} (Some body).

(** Wrapping depth of a primitive. *)
Fixpoint depth (f : prim) : nat :=
  match f with
  | Native => 0
  | Patched _ orig => S (depth orig)
  end.

(** A window no script has touched, and the page around it. *)
Definition nativeWindow : Window :=
  mkWindow None None Native Native Native Native Native Native Native
    (Some Native) (Some Native) (Some NativeNav) (Some NativeNav).

Definition freshPage (loc : URLRecord) : Page :=
  mkPage nativeWindow loc [url_href loc] [] false false false
    NativeHistory NativeHistory.

(** The page of the worked examples: served by the proxy on
    [http://localhost:3001] for the target [https://t.example], after the
    runtime patch and the highlight bundle have run. *)
Definition exampleLocation : URLRecord :=
  mkURL "http://localhost:3001/page" "http://localhost:3001" "/page" "" "".

Definition proxiedPage : Page :=
  runInject (runPatchIn "https://t.example" (freshPage exampleLocation)).

(** [new URL(href, base)] on the URLs of the examples. *)
Definition exampleNewURL (href base : string) : option URLRecord :=
  if String.eqb href "https://other.example/y"
  then Some (mkURL "https://other.example/y" "https://other.example" "/y" "" "")
  else if String.eqb href "/next" && String.eqb base "http://localhost:3001/page"
  then Some (mkURL "http://localhost:3001/next" "http://localhost:3001" "/next" "" "")
  else if String.eqb href "http://localhost:3001/page"
  then Some exampleLocation
  else None.

(** What one reads off an element: from its name, its attributes and
    its raw text, a list of strings (none, or the value looked at). *)
Definition observation := string → gmap string string → string → list string.

(** The observations of a document, in document order. *)
Fixpoint observe (ob : observation) (n : node) : list string :=
  match n with
  | Element name attribs children =>
      ob name attribs (rawText children) ++ (children ≫= observe ob)
  | _ => []
  end.

Definition observeAll (ob : observation) (doc : list node) : list string :=
  doc ≫= observe ob.

(** The value of attribute [attr], where an element has it. *)
Definition attrValue (attr : string) : observation :=
  fun _ attribs _ => option_list (attribs !! attr).

(** The body of a [style] element. *)
Definition styleBody : observation :=
  fun name attribs text => if sel_tag "style" name attribs then [text] else [].

(** The text of an inline script that is not marked as injected. *)
Definition inlineScript : observation :=
  fun name attribs text =>
    if sel_tag_not_attr "script" "src" name attribs
       && negb (truthy_opt (attribs !! "data-proxy-injected"))
    then [text] else [].

(** What the rewriter does to one URL attribute value, and to one text. *)
Definition stripUrlValue (origin val : string) : string :=
  if truthy val && startsWith val origin
  then orDefault (slice val (String.length origin)) "/"
  else val.

Definition stripTextValue (origin val : string) : string :=
  if truthy val && includes val origin then stripOriginInText val origin else val.

(** The places the specification lists, as observations. *)
Definition listedPlaces : list observation :=
  (attrValue <$> urlAttrs) ++ [attrValue "srcset"; attrValue "style";
                               styleBody; inlineScript].

(** No listed place of the document contains the origin. *)
Definition originFree (origin : string) (doc : list node) : bool :=
  forallb (fun ob => forallb (fun v => negb (includes v origin)) (observeAll ob doc))
    listedPlaces.

(** A pass tracks an observation by [h] when every value observed after
    the pass is [h] of a value observed before it, in the same order. *)
Definition tracks (ob : observation) (h : string → string)
    (pass : list node → list node) : Prop :=
  ∀ doc, sublist (observeAll ob (pass doc)) (h <$> observeAll ob doc).

(** An observation that does not see attribute [attr] being rewritten,
    being removed, and one that does not see the raw text of the
    elements a selector picks. *)
Definition blindToUpdate (ob : observation) (attr : string) : Prop :=
  ∀ name a t v, is_Some (a !! attr) → ob name (<[attr := v]> a) t = ob name a t.

Definition blindToDelete (ob : observation) (attr : string) : Prop :=
  ∀ name a t, ob name (delete attr a) t = ob name a t.

Definition blindToText (ob : observation) (p : selector) : Prop :=
  ∀ name a t t', p name a = true → ob name a t = ob name a t'.

(** The elements whose text [stripInlineScript] may replace. *)
Definition sel_plain_inline_script : selector :=
  fun name attribs =>
    sel_tag_not_attr "script" "src" name attribs
    && negb (truthy_opt (attribs !! "data-proxy-injected")).

(** The observations the injections leave alone: blind to the text of
    [head], [html] and [body], and showing nothing on an injected script
    or on an attribute-less [head]. *)
Record untouchedByInjection (ob : observation) : Prop := {
  ubi_head : blindToText ob (sel_tag "head");
  ubi_html : blindToText ob (sel_tag "html");
  ubi_body : blindToText ob (sel_tag "body");
  ubi_script : ∀ t, ob "script" injectedAttribs t = [];
  ubi_new_head : ∀ t, ob "head" ∅ t = []
}.

(** A small parsed page on [https://t.example]: a link back to the site
    inside a query string, an image on the site. *)
Definition loginPage : list node :=
  [ Element "html" ∅
      [ Element "head" ∅ [ Element "title" ∅ [Text "t"] ];
        Element "body" ∅
          [ Element "a" {[ "href" := "/login?next=https://t.example/account" ]}
              [Text "Log in"];
            Element "img" {[ "src" := "https://t.example/logo.png" ]} [] ] ] ].

(** The shape the HTML parser gives a document: [base] and [meta] are
    void elements, without children; the content of [style] and [script]
    is raw text, so their children are text nodes. *)
Definition isText (n : node) : bool :=
  match n with Text _ => true | _ => false end.

Definition isVoidTag (name : string) : bool :=
  String.eqb name "base" || String.eqb name "meta".

Definition isRawTextTag (name : string) : bool :=
  String.eqb name "style" || String.eqb name "script".

Definition shapeOk (name : string) (children : list node) : bool :=
  (if isVoidTag name then match children with [] => true | _ :: _ => false end else true)
  && (if isRawTextTag name then forallb isText children else true).

Fixpoint wellFormed (n : node) : bool :=
  match n with
  | Element name attribs children => shapeOk name children && forallb wellFormed children
  | _ => true
  end.

Definition parsed (doc : list node) : bool := forallb wellFormed doc.

(** One mark per element a selector picks, and their number. *)
Definition marks (p : selector) : observation :=
  fun name attribs _ => if p name attribs then [""] else [].

Definition count (p : selector) (doc : list node) : nat :=
  length (observeAll (marks p) doc).

(** The scripts marked as injected whose text is [text]. *)
Definition injectedCopies (text : string) : observation :=
  fun name attribs t =>
    if sel_tag "script" name attribs
       && bool_decide (attribs !! "data-proxy-injected" = Some "true")
       && String.eqb t text
    then [t] else [].

(** The copies of the runtime patch and of the highlight bundle in a
    document. *)
Definition patchCount (origin : string) (doc : list node) : nat :=
  length (observeAll (injectedCopies (patchScriptText origin)) doc).

Definition bundleCount (injectScript : string) (doc : list node) : nat :=
  length (observeAll (injectedCopies injectScript) doc).

(** An observation no pass of the rewriter changes on the elements it
    rewrites: it reads no attribute but [data-proxy-injected], shows
    nothing on [base] and [meta], and does not read the text of the
    elements whose text a pass may change. *)
Record stable (ob : observation) : Prop := {
  st_attribs : ∀ name a a' t,
    a !! "data-proxy-injected" = a' !! "data-proxy-injected" →
    ob name a t = ob name a' t;
  st_void : ∀ name a t, isVoidTag name = true → ob name a t = [];
  st_style : blindToText ob (sel_tag "style");
  st_script : blindToText ob sel_plain_inline_script;
  st_head : blindToText ob (sel_tag "head");
  st_html : blindToText ob (sel_tag "html");
  st_body : blindToText ob (sel_tag "body")
}.

(** A pass keeps a parsed document parsed and the number of
    observations as it is. *)
Definition keeps (ob : observation) (pass : list node → list node) : Prop :=
  ∀ doc, parsed doc = true →
    parsed (pass doc) = true
    ∧ length (observeAll ob (pass doc)) = length (observeAll ob doc).

(** The containers the rewriter inserts into. *)
Definition isContainerTag (t : string) : bool :=
  String.eqb t "head" || String.eqb t "html" || String.eqb t "body".

(** A parsed page that already holds an origin twice in one value. *)
Definition mirrorPage : list node :=
  [ Element "html" ∅
      [ Element "head" ∅ [];
        Element "body" ∅
          [ Element "a" {[ "href" := "https://t.examplehttps://t.example/x" ]} [] ] ] ].

(** Induction on documents: an element with its children. *)
Section node_induction.
Variable P : node → Prop.
Hypothesis P_Text : ∀ data, P (Text data).
Hypothesis P_Comment : ∀ data, P (Comment data).
Hypothesis P_Element :
  ∀ name attribs children, Forall P children → P (Element name attribs children).

Fixpoint node_induction (n : node) : P n :=
  match n with
  | Text data => P_Text data
  | Comment data => P_Comment data
  | Element name attribs children =>
      P_Element name attribs children
        ((fix go (l : list node) : Forall P l :=
            match l with
            | [] => List.Forall_nil P
            | m :: l' => List.Forall_cons P m l' (node_induction m) (go l')
            end) children)
  end.
End node_induction.

(** ** Further vocabulary *)

(** Percent-decoding, the inverse a query-string parser applies to what
    [encodeURIComponent] wrote: [%XY] becomes the byte with hexadecimal
    digits [X] and [Y], every other character stands for itself. [None]
    for an incomplete or malformed escape. *)
Definition hexValue (c : ascii) : option nat :=
  let n := nat_of_ascii c in
  if Nat.leb 48 n && Nat.leb n 57 then Some (n - 48)
  else if Nat.leb 65 n && Nat.leb n 70 then Some (n - 55)
  else if Nat.leb 97 n && Nat.leb n 102 then Some (n - 87)
  else None.

Fixpoint percentDecode (s : string) : option string :=
  match s with
  | EmptyString => Some ""
  | String c rest =>
      if Ascii.eqb c "%"%char then
        match rest with
        | String h (String l rest') =>
            match hexValue h, hexValue l with
            | Some a, Some b => String (ascii_of_nat (16 * a + b)) <$> percentDecode rest'
            | _, _ => None
            end
        | _ => None
        end
      else String c <$> percentDecode rest
  end.

(** The characters of a string. *)
Fixpoint chars (s : string) : list ascii :=
  match s with
  | EmptyString => []
  | String c s' => c :: chars s'
  end.

(** The number of occurrences [stripOriginInText] removes: one less than
    the number of pieces. *)
Definition occurrences (text origin : string) : nat :=
  length (split text origin) - 1.

(** A primitive wrapped [n] times by executions of the patch for the
    same origin. *)
Definition patchedTimes (n : nat) (ORIGIN : string) : prim :=
  Nat.iter n (Patched ORIGIN) Native.

(** The header names [setPermissiveHeaders] writes or removes, and the
    ones a response of [processAndSend] can carry, in lower case. *)
Definition permissiveNames : list string :=
  ["access-control-allow-origin"; "access-control-allow-methods";
   "access-control-allow-headers"; "x-frame-options"; "content-security-policy";
   "content-security-policy-report-only"; "x-content-type-options"].

Definition sentNames : list string :=
  ["access-control-allow-origin"; "access-control-allow-methods";
   "access-control-allow-headers"; "cache-control"; "etag"; "content-type";
   "content-length"; "x-powered-by"].

(** Every header of a response has its (lower-case) name in [names]. *)
Definition headersWithin (names : list string) (res : Response) : Prop :=
  ∀ k v, res_headers res !! k = Some v → k ∈ names.

(** The fetch options of the catch-all for a request without body. *)
Definition forwardedHeaders (cur : string) (req : Request) : gmap string string :=
  <["Accept" := match req_accept req with
                | Some a => orDefault a "*/*"
                | None => "*/*"
                end]> (buildFetchHeaders cur).

(** A request method that carries no body upstream. *)
Definition isBodyless (method : string) : bool :=
  String.eqb method "GET" || String.eqb method "HEAD".

(** No element of the document is picked by the selector. *)
Definition absent (p : selector) (doc : list node) : Prop :=
  observeAll (marks p) doc = [].

(** An element named [t] whose children begin, or end, with [content]. *)
Definition beginsWith (t : string) (content : list node) (n : node) : Prop :=
  ∃ a c, n = Element t a (content ++ c).

Definition endsWith (t : string) (content : list node) (n : node) : Prop :=
  ∃ a c, n = Element t a (c ++ content).

(** ** The runtime patch: navigation and created elements *)

(** The message the overrides of [location.assign] and
    [location.replace] post: a URL that starts with [/] is put behind
    [ORIGIN], any other is reported as given. [kind] is
    ["location.assign"] or ["location.replace"]. *)
Definition reportedNavigation (ORIGIN kind url : string) : message :=
  LinkNavigation (if truthy url && startsWith url "/" then ORIGIN +:+ url else url)
    "" "" (Some kind).

(** The browser's own [location.assign(url)] and [location.replace(url)]:
    the page goes to the resolved URL ([assign] adds a history entry,
    [replace] takes the place of the current one); an unparsable URL
    raises and nothing changes. *)
Definition nativeNavigate (newURL : string → string → option URLRecord)
    (replace : bool) (pg : Page) (url : string) : Page :=
  match newURL url (url_href (pg_location pg)) with
  | Some r =>
      withLocation r
        ((if replace then removelast (pg_entries pg) else pg_entries pg) ++ [url_href r]) pg
  | None => pg
  end.

(** A call of [location.assign(url)] by the page; without the method
    ([None]) the call raises and nothing changes. *)
Definition location_assign (newURL : string → string → option URLRecord)
    (pg : Page) (url : string) : Page :=
  match w_locationAssign (pg_window pg) with
  | Some (ReportNav ORIGIN) => notifyParent (reportedNavigation ORIGIN "location.assign" url) pg
  | Some NativeNav => nativeNavigate newURL false pg url
  | None => pg
  end.

(** A call of [location.replace(url)] by the page. *)
Definition location_replace (newURL : string → string → option URLRecord)
    (pg : Page) (url : string) : Page :=
  match w_locationReplace (pg_window pg) with
  | Some (ReportNav ORIGIN) => notifyParent (reportedNavigation ORIGIN "location.replace" url) pg
  | Some NativeNav => nativeNavigate newURL true pg url
  | None => pg
  end.

(** The override [patchElSrc] or [patchElHref] puts on an element's own
    [setAttribute], with the origin it closes over. *)
Inductive attrHook :=
| HookSrc (ORIGIN : string)
| HookHref (ORIGIN : string).

(** The tags whose elements [createElement] hands to [patchElSrc]. *)
Definition isSrcTag (t : string) : bool :=
  String.eqb t "script" || String.eqb t "img" || String.eqb t "video"
  || String.eqb t "audio" || String.eqb t "source" || String.eqb t "embed".

(** [document.createElement(tag)]: the override the new element ends up
    with. Each wrapper creates the element through the implementation it
    replaced and then sets the element's own [setAttribute], over
    whatever an inner wrapper had set. *)
Fixpoint callCreateElement (f : prim) (tag : string) : option attrHook :=
  match f with
  | Native => None
  | Patched ORIGIN orig =>
      let el := callCreateElement orig tag in
      let t := toLowerCase tag in
      let el := if isSrcTag t then Some (HookSrc ORIGIN) else el in
      if String.eqb t "link" then Some (HookHref ORIGIN) else el
  end.

(** [new Image(w, h)] *)
Definition callImage (f : prim) : option attrHook :=
  match f with
  | Native => None
  | Patched ORIGIN _ => Some (HookSrc ORIGIN)
  end.

(** [HTMLElement.prototype.setAttribute(n, v)] on an HTML element: the
    name is stored in lower case. *)
Definition nativeSetAttribute (n v : string) (attribs : gmap string string)
    : gmap string string :=
  <[toLowerCase n := v]> attribs.

(** [el.setAttribute(n, v)] on an element with the given override. *)
Definition setAttribute (hook : option attrHook) (n v : string)
    (attribs : gmap string string) : gmap string string :=
  match hook with
  | None => nativeSetAttribute n v attribs
  | Some (HookSrc ORIGIN) =>
      let v := if String.eqb n "src" then strip ORIGIN v else v in
      if String.eqb n "integrity" then attribs else nativeSetAttribute n v attribs
  | Some (HookHref ORIGIN) =>
      let v := if String.eqb n "href" then strip ORIGIN v else v in
      if String.eqb n "integrity" then attribs else nativeSetAttribute n v attribs
  end.

(** [fixChild(child)]: a node without a tag name (text, comment) is left
    alone. The two writes go through [child.setAttribute], which is the
    element's own override when [createElement] or [Image] of a patch gave
    it one ([hook]); the two removals are the native [removeAttribute]. *)
Definition fixAttr (ORIGIN : string) (hook : option attrHook) (attr : string)
    (attribs : gmap string string) : gmap string string :=
  match attribs !! attr with
  | Some val =>
      if truthy val && startsWith val ORIGIN
      then setAttribute hook attr (orDefault (slice val (String.length ORIGIN)) "/") attribs
      else attribs
  | None => attribs
  end.

Definition fixChild (ORIGIN : string) (hook : option attrHook) (child : node) : node :=
  match child with
  | Element name attribs children =>
      let attribs := fixAttr ORIGIN hook "src" attribs in
      let attribs := fixAttr ORIGIN hook "href" attribs in
      Element name (delete "crossorigin" (delete "integrity" attribs)) children
  | _ => child
  end.

(** [parent.appendChild(child)] / [parent.insertBefore(child, ref)]: the
    child that reaches the native insertion. *)
Fixpoint callInsert (f : prim) (hook : option attrHook) (child : node) : node :=
  match f with
  | Native => child
  | Patched ORIGIN orig => callInsert orig hook (fixChild ORIGIN hook child)
  end.

(** The attributes of a node, none for a text or comment node. *)
Definition attribsOf (n : node) : gmap string string :=
  match n with Element _ attribs _ => attribs | _ => ∅ end.

(** The string has ASCII characters only. *)
Definition isAsciiString (s : string) : bool :=
  forallb (fun c => Nat.ltb (nat_of_ascii c) 128) (chars s).

(** One character that is one UTF-16 unit: a leading byte that does not
    announce four bytes, and its continuation bytes. *)
Definition isOneUnit (s : string) : bool :=
  match s with
  | String c cont =>
      negb (isContinuation c) && negb (isLead4 c) && forallb isContinuation (chars cont)
  | EmptyString => false
  end.

(** A character [JSON.stringify] copies as it is. *)
Definition jsonPlain (c : ascii) : bool :=
  Nat.leb 32 (nat_of_ascii c) && negb (Ascii.eqb c "034"%char)
  && negb (Ascii.eqb c "\"%char).

(** The hrefs the click listener leaves to the browser. *)
Definition isIgnoredHref (href : string) : bool :=
  startsWith href "#" || startsWith href "javascript:"
  || startsWith href "mailto:" || startsWith href "tel:".

(** A resolved URL that differs from the location in its fragment only. *)
Definition isHashChange (resolved loc : URLRecord) : bool :=
  String.eqb (url_pathname resolved) (url_pathname loc)
  && String.eqb (url_search resolved) (url_search loc)
  && negb (String.eqb (url_hash resolved) (url_hash loc)).

(** ** inject.ts: selectors, the DOM tree, colours *)

Definition upperChar (c : ascii) : ascii :=
  let n := nat_of_ascii c in
  if Nat.leb 97 n && Nat.leb n 122 then ascii_of_nat (n - 32) else c.

Fixpoint toUpperCase (s : string) : string :=
  match s with
  | EmptyString => ""
  | String c s' => String (upperChar c) (toUpperCase s')
  end.

(** [el.tagName] of an HTML element: its name in ASCII upper case. *)
Definition tagName (el : node) : string :=
  match el with Element name _ _ => toUpperCase name | _ => "" end.

Definition isElement (n : node) : bool :=
  match n with Element _ _ _ => true | _ => false end.

(** [el.childNodes]; [el.children] are the elements among them. *)
Definition childNodes (el : node) : list node :=
  match el with Element _ _ children => children | _ => [] end.

(** [el.id]: the [id] attribute, the empty string without one. *)
Definition elementId (el : node) : string := default "" (attribsOf el !! "id").

(** [el.hasAttribute(name)] for a lower-case [name]. *)
Definition hasAttribute (name : string) (el : node) : bool :=
  bool_decide (is_Some (attribsOf el !! name)).

(** The decimal form of a natural number, as a template literal prints
    it. *)
Fixpoint decimalFrom (fuel n : nat) (acc : string) : string :=
  let acc := String (ascii_of_nat (48 + n mod 10)) acc in
  match fuel with
  | O => acc
  | S fuel' => if Nat.eqb (n / 10) 0 then acc else decimalFrom fuel' (n / 10) acc
  end.

Definition decimal (n : nat) : string := decimalFrom n n "".

(** What the script takes from the browser's DOM and CSSOM and does not
    contain. *)
Record DomApi := mkDomApi {
  CSS_escape : string → string;        (* CSS.escape(ident) *)
  classList : node → list string;      (* Array.from(el.classList) *)
  trim : string → string               (* s.trim() *)
}.

(** [c.tagName === current.tagName], for a child node [c] of the parent. *)
Definition sameTagName (current c : node) : bool :=
  isElement c && String.eqb (tagName c) (tagName current).

(** [Array.from(parent.children).filter(c => c.tagName === current.tagName)] *)
Definition siblings (parent current : node) : list node :=
  List.filter (sameTagName current) (childNodes parent).

(** The selector of one step of the loop of [getUniqueSelector], for an
    element without [id]: [parent] is [current.parentElement] together
    with the position of [current] among its [childNodes]. *)
Definition stepSelector (current : node) (parent : option (node * nat)) : string :=
  let selector := toLowerCase (tagName current) in
  match parent with
  | Some (p, i) =>
      if Nat.ltb 1 (length (siblings p current))
      then selector +:+ ":nth-of-type("
             +:+ decimal (length (List.filter (sameTagName current)
                                    (take i (childNodes p))) + 1)
             +:+ ")"
      else selector
  | None => selector
  end.

(** The loop of [getUniqueSelector]: [path] once [current] has been
    reached. [trail] lists the ancestors of [current], the parent first,
    each with the position among its [childNodes] of the child the walk
    came from; [inDocument] says that the outermost element of the walk
    is [document.documentElement], where the loop stops. *)
Fixpoint selectorPath (api : DomApi) (current : node) (trail : list (node * nat))
    (inDocument : bool) : list string :=
  match trail with
  | [] =>
      if inDocument then []
      else if truthy (elementId current)
           then ["#" +:+ CSS_escape api (elementId current)]
           else [stepSelector current None]
  | (parent, i) :: trail' =>
      if truthy (elementId current)
      then ["#" +:+ CSS_escape api (elementId current)]
      else selectorPath api parent trail' inDocument
             ++ [stepSelector current (Some (parent, i))]
  end.

(** [getUniqueSelector(el)] *)
Definition getUniqueSelector (api : DomApi) (el : node) (trail : list (node * nat))
    (inDocument : bool) : string :=
  if truthy (elementId el) then "#" +:+ CSS_escape api (elementId el)
  else join " > " (selectorPath api el trail inDocument).

(** [DomNode]; a field that the object does not have is [None]. *)
Inductive DomNode :=
| mkDomNode (tag selector : string) (id : option string)
    (classes : option (list string)) (text : option string)
    (children : option (list DomNode)).

Definition dn_children (t : DomNode) : option (list DomNode) :=
  match t with mkDomNode _ _ _ _ _ children => children end.

Definition dn_tag (t : DomNode) : string :=
  match t with mkDomNode tag _ _ _ _ _ => tag end.

Definition dn_text (t : DomNode) : option string :=
  match t with mkDomNode _ _ _ _ text _ => text end.

(** The text [buildDomTree] reports: that of the first text child whose
    trimmed content is not empty. *)
Fixpoint firstText (api : DomApi) (nodes : list node) : option string :=
  match nodes with
  | [] => None
  | Text data :: rest =>
      if truthy (trim api data)
      then Some (substring0 (trim api (orDefault data "")) 100)
      else firstText api rest
  | _ :: rest => firstText api rest
  end.

(** [nodes.map(f).filter(Boolean)], where [f] is also given the position
    of the node. *)
Definition mapFilter {A : Type} (f : nat → node → option A)
    : nat → list node → list A :=
  fix each (i : nat) (nodes : list node) : list A :=
    match nodes with
    | [] => []
    | child :: rest =>
        match f i child with
        | Some t => t :: each (S i) rest
        | None => each (S i) rest
        end
    end.

(** A JavaScript number: [NaN], an infinity, or a finite value (every
    finite double is a rational). *)
Inductive number :=
| NaN
| Infinity (negative : bool)
| Finite (q : QArith_base.Q).

(** [depth > m] and [depth < m] for a depth, which is a natural number;
    a comparison with [NaN] is false. *)
Definition depthAbove (depth : nat) (m : number) : bool :=
  match m with
  | NaN => false
  | Infinity negative => negative
  | Finite q =>
      negb (QArith_base.Qle_bool (QArith_base.inject_Z (Z.of_nat depth)) q)
  end.

Definition depthBelow (depth : nat) (m : number) : bool :=
  match m with
  | NaN => false
  | Infinity negative => negb negative
  | Finite q =>
      negb (QArith_base.Qle_bool q (QArith_base.inject_Z (Z.of_nat depth)))
  end.

(** [m || 4] for a number [m] that may be missing: zero and [NaN] are
    falsy. *)
Definition orFour (m : option number) : number :=
  match m with
  | Some (Finite q) =>
      if QArith_base.Qeq_bool q (QArith_base.inject_Z 0)
      then Finite (QArith_base.inject_Z 4) else Finite q
  | Some (Infinity negative) => Infinity negative
  | Some NaN | None => Finite (QArith_base.inject_Z 4)
  end.

(** [buildDomTree(el, maxDepth, depth)] for a number [maxDepth];
    [trail] and [inDocument] place [el] for [getUniqueSelector]. [None]
    is [null]. *)
Fixpoint buildDomTree (api : DomApi) (el : node) (trail : list (node * nat))
    (inDocument : bool) (maxDepth : number) (depth : nat) : option DomNode :=
  match el with
  | Element _ _ children =>
      if depthAbove depth maxDepth then None
      else if hasAttribute "data-proxy-highlight" el then None
      else if hasAttribute "data-proxy-injected" el then None
      else
        Some (mkDomNode
                (toLowerCase (tagName el))
                (getUniqueSelector api el trail inDocument)
                (if truthy (elementId el) then Some (elementId el) else None)
                (if Nat.ltb 0 (length (classList api el))
                 then Some (classList api el) else None)
                (firstText api children)
                (if existsb isElement children && depthBelow depth maxDepth
                 then Some
                   (mapFilter
                      (fun i child =>
                         if isElement child
                         then buildDomTree api child ((el, i) :: trail)
                                inDocument maxDepth (S depth)
                         else None)
                      0 children)
                 else None))
  | _ => None
  end.

(** [s.slice(a, b)] for [0 <= a <= b] *)
Definition slice2 (s : string) (a b : nat) : string :=
  substring0 (sliceUnits s a) (b - a).

(** [parseInt(s, 16)]: white space is skipped, then a sign, then [0x] or
    [0X]; the value is that of the longest run of hexadecimal digits that
    follows, [None] (that is [NaN]) where there is none. A negative zero
    is printed as the zero, and is the zero here. *)
Definition isWhiteSpace (c : ascii) : bool :=
  let n := nat_of_ascii c in
  (Nat.leb 9 n && Nat.leb n 13) || Nat.eqb n 32.

(** The white space outside ASCII, in UTF-8: U+00A0, U+1680, U+2000 to
    U+200A, U+2028, U+2029, U+202F, U+205F, U+3000 and U+FEFF. *)
Definition bytes (codes : list nat) : string :=
  foldr (fun n s => String (ascii_of_nat n) s) EmptyString codes.

Definition wideSpaces : list string :=
  bytes <$> [[194; 160]; [225; 154; 128];
             [226; 128; 128]; [226; 128; 129]; [226; 128; 130]; [226; 128; 131];
             [226; 128; 132]; [226; 128; 133]; [226; 128; 134]; [226; 128; 135];
             [226; 128; 136]; [226; 128; 137]; [226; 128; 138];
             [226; 128; 168]; [226; 128; 169]; [226; 128; 175];
             [226; 129; 159]; [227; 128; 128]; [239; 187; 191]].

(** What follows the white space character [s] begins with, if it
    begins with one. *)
Definition afterSpace (s : string) : option string :=
  match s with
  | String c s' =>
      if isWhiteSpace c then Some s'
      else if Nat.leb 128 (nat_of_ascii c) then
        (fun w => slice s (String.length w)) <$> List.find (startsWith s) wideSpaces
      else None
  | EmptyString => None
  end.

Fixpoint skipWhiteSpaceWithin (fuel : nat) (s : string) : string :=
  match fuel with
  | O => s
  | S fuel' =>
      match afterSpace s with
      | Some s' => skipWhiteSpaceWithin fuel' s'
      | None => s
      end
  end.

Definition skipWhiteSpace (s : string) : string :=
  skipWhiteSpaceWithin (String.length s) s.

Fixpoint hexRun (s : string) (acc : option nat) : option nat :=
  match s with
  | String c s' =>
      match hexValue c with
      | Some d => hexRun s' (Some (16 * default 0 acc + d))
      | None => acc
      end
  | EmptyString => acc
  end.

Definition parseInt16 (s : string) : option Z :=
  let s := skipWhiteSpace s in
  let negative := startsWith s "-" in
  let s := if startsWith s "+" || startsWith s "-" then slice s 1 else s in
  let s := if startsWith s "0x" || startsWith s "0X" then slice s 2 else s in
  match hexRun s None with
  | Some n => Some (if negative then (- Z.of_nat n)%Z else Z.of_nat n)
  | None => None
  end.

(** A number of [parseInt] inside a template literal. *)
Definition showNumber (n : option Z) : string :=
  match n with
  | None => "NaN"
  | Some z => if (z <? 0)%Z then "-" +:+ decimal (Z.to_nat (- z)) else decimal (Z.to_nat z)
  end.

(** [hexToRgba(hex, alpha)]; [alpha] is the number as printed. *)
Definition hexToRgba (hex alpha : string) : string :=
  let r := parseInt16 (slice2 hex 1 3) in
  let g := parseInt16 (slice2 hex 3 5) in
  let b := parseInt16 (slice2 hex 5 7) in
  "rgba(" +:+ showNumber r +:+ ", " +:+ showNumber g +:+ ", " +:+ showNumber b
    +:+ ", " +:+ alpha +:+ ")".

(** ** inject.ts: the highlighter and the inspector

    The state is the part of the script's variables and of the page that
    decides what is posted and which listeners are installed. Colours and
    geometry ([config], the styles [positionOverlay] writes) enter no
    branch and are left out; the callbacks of [requestAnimationFrame] and
    [setTimeout] only reposition the overlay. The document has a body. *)
Module Highlighter.

(** [style.display] of the overlay elements, which [showOverlay] and
    [hideOverlay] write together. *)
Inductive display := Unset | Block | Hidden.

(** The messages to the parent frame, each under
    [source: "proxy-highlight"]; the data of [element-highlighted] and
    [element-info] are read off the element. *)
Inductive note :=
| ElementHighlighted (el : node)
| InspectorMode (enabled : bool)
| Error (message : string)
| DomTree (tree : option DomNode)
| ElementInfo (selector : string) (el : node).

Record State := mkState {
  overlay : option display;          (* [None]: [overlayTop] is null *)
  currentTarget : option node;
  inspectorMode : bool;
  animationFrameId : bool;           (* [animationFrameId !== null] *)
  listeners : bool;                  (* onInspectorMove, onInspectorClick on document *)
  cursor : string;                   (* document.body.style.cursor *)
  scrolled : list node;              (* calls of scrollIntoView, oldest first *)
  outbox : list note                 (* posted to the parent, oldest first *)
}.

(** The state once the script has run, on a page whose body has the
    given cursor style. *)
Definition initial (cursor : string) : State :=
  mkState None None false false false cursor [] [].

Definition notifyParent (m : note) (st : State) : State :=
  mkState (overlay st) (currentTarget st) (inspectorMode st) (animationFrameId st)
    (listeners st) (cursor st) (scrolled st) (outbox st ++ [m]).

Definition createOverlayElements (st : State) : State :=
  match overlay st with
  | Some _ => st
  | None =>
      mkState (Some Unset) (currentTarget st) (inspectorMode st) (animationFrameId st)
        (listeners st) (cursor st) (scrolled st) (outbox st)
  end.

Definition setDisplay (d : display) (st : State) : State :=
  match overlay st with
  | Some _ =>
      mkState (Some d) (currentTarget st) (inspectorMode st) (animationFrameId st)
        (listeners st) (cursor st) (scrolled st) (outbox st)
  | None => st
  end.

Definition showOverlay : State → State := setDisplay Block.
Definition hideOverlay : State → State := setDisplay Hidden.

Definition setCurrentTarget (el : option node) (st : State) : State :=
  mkState (overlay st) el (inspectorMode st) (animationFrameId st)
    (listeners st) (cursor st) (scrolled st) (outbox st).

Definition stopTracking (st : State) : State :=
  mkState (overlay st) (currentTarget st) (inspectorMode st) false
    (listeners st) (cursor st) (scrolled st) (outbox st).

Definition startTracking (st : State) : State :=
  let st := stopTracking st in
  mkState (overlay st) (currentTarget st) (inspectorMode st) true
    (listeners st) (cursor st) (scrolled st) (outbox st).

Definition scrollIntoView (el : node) (st : State) : State :=
  mkState (overlay st) (currentTarget st) (inspectorMode st) (animationFrameId st)
    (listeners st) (cursor st) (scrolled st ++ [el]) (outbox st).

(** [highlightElement(el, { scroll })]. A node that is no element (an
    XPath can select one) has no [getBoundingClientRect]: the call
    raises once [currentTarget] is set. *)
Definition highlightElement (el : option node) (scroll : bool) (st : State) : State :=
  let st := createOverlayElements st in
  match el with
  | None => stopTracking (setCurrentTarget None (hideOverlay st))
  | Some e =>
      let st := setCurrentTarget (Some e) st in
      if isElement e
      then
        let st := startTracking (showOverlay st) in
        let st := if scroll then scrollIntoView e st else st in
        notifyParent (ElementHighlighted e) st
      else st
  end.

Definition setInspector (on : bool) (st : State) : State :=
  mkState (overlay st) (currentTarget st) on (animationFrameId st)
    on (if on then "crosshair" else "") (scrolled st) (outbox st).

Definition enableInspector (st : State) : State :=
  if inspectorMode st then st
  else notifyParent (InspectorMode true) (setInspector true st).

Definition disableInspector (st : State) : State :=
  if negb (inspectorMode st) then st
  else notifyParent (InspectorMode false) (setInspector false st).

(** [onInspectorMove]: [target] is [document.elementFromPoint(...)],
    [isRoot] says that it is [document.documentElement] or
    [document.body]. *)
Definition onInspectorMove (target : option node) (isRoot : bool) (st : State) : State :=
  match target with
  | Some t =>
      if negb (hasAttribute "data-proxy-highlight" t) && negb isRoot
      then highlightElement (Some t) false st
      else st
  | None => st
  end.

Definition onInspectorClick (target : option node) (st : State) : State :=
  match target with
  | Some t =>
      if negb (hasAttribute "data-proxy-highlight" t)
      then disableInspector (highlightElement (Some t) false st)
      else st
  | None => st
  end.

(** The loop of [highlight-text] over the text nodes below [parent], in
    document order: the parent element of the first one that is not empty
    and contains [text]. [find] is the search below a child element. *)
Definition walkTexts (find : node → option node) (text : string) (parent : node)
    : list node → option node :=
  fix walk (nodes : list node) : option node :=
    match nodes with
    | [] => None
    | Text data :: rest =>
        if truthy data && includes data text then Some parent else walk rest
    | Comment _ :: rest => walk rest
    | child :: rest =>
        match find child with
        | Some found => Some found
        | None => walk rest
        end
    end.

Fixpoint findText (text : string) (parent : node) : option node :=
  match parent with
  | Element _ _ children => walkTexts (findText text) text parent children
  | _ => None
  end.

(** The document as a handler finds it. [None] from [querySelector] or
    [evaluate] is an exception (a selector or an expression that does
    not parse), [Some None] is no match. *)
Record Dom := mkDom {
  querySelector : string → option (option node);
  evaluate : string → option (option node);
  body : node;
  bodyTrail : list (node * nat)
}.

(** A message with [source: "proxy-highlight-host"]; [scroll] is
    [msg.scroll !== false]. *)
Inductive hostMessage :=
| HighlightSelector (selector : string) (scroll : bool)
| HighlightXPath (xpath : string) (scroll : bool)
| HighlightText (text : string) (scroll : bool)
| EnableInspector
| DisableInspector
| ClearHighlight
| UpdateConfig
| GetDomTree (maxDepth : option number)
| GetElementInfo (selector : string)
| OtherType.

(** The listener for [message], on a message of the host. *)
Definition onMessage (api : DomApi) (dom : Dom) (msg : hostMessage) (st : State) : State :=
  match msg with
  | HighlightSelector selector scroll =>
      match querySelector dom selector with
      | Some (Some el) => highlightElement (Some el) scroll st
      | Some None => notifyParent (Error ("Element not found: " +:+ selector)) st
      | None => st
      end
  | HighlightXPath xpath scroll =>
      match evaluate dom xpath with
      | Some (Some el) => highlightElement (Some el) scroll st
      | Some None => notifyParent (Error ("Element not found: " +:+ xpath)) st
      | None => st
      end
  | HighlightText text scroll =>
      match findText text (body dom) with
      | Some el => highlightElement (Some el) scroll st
      | None => notifyParent (Error ("No element containing text: " +:+ text)) st
      end
  | EnableInspector => enableInspector st
  | DisableInspector => disableInspector st
  | ClearHighlight => disableInspector (highlightElement None true st)
  | UpdateConfig =>
      match currentTarget st with
      | Some el => highlightElement (Some el) false st
      | None => st
      end
  | GetDomTree maxDepth =>
      notifyParent
        (DomTree (buildDomTree api (body dom) (bodyTrail dom) true
                    (orFour maxDepth) 0))
        st
  | GetElementInfo selector =>
      match querySelector dom selector with
      | Some (Some el) => notifyParent (ElementInfo selector el) st
      | _ => st
      end
  | OtherType => st
  end.

(** The listener for [keydown]. *)
Definition onKeyDown (key : string) (ctrlKey metaKey shiftKey : bool) (st : State) : State :=
  let st :=
    if String.eqb key "Escape"
    then highlightElement None true
           (if inspectorMode st then disableInspector st else st)
    else st in
  if (ctrlKey || metaKey) && shiftKey && String.eqb key "C"
  then (if inspectorMode st then disableInspector st else enableInspector st)
  else st.

(** What reaches the script: a message (from the host or not), a key, and
    the mouse events that the inspector's listeners get while they are
    installed. *)
Inductive event :=
| Message (fromHost : bool) (msg : hostMessage)
| KeyDown (key : string) (ctrlKey metaKey shiftKey : bool)
| MouseMove (target : option node) (isRoot : bool)
| Click (target : option node).

Definition step (api : DomApi) (st : State) (input : Dom * event) : State :=
  match input.2 with
  | Message fromHost msg => if fromHost then onMessage api input.1 msg st else st
  | KeyDown key ctrlKey metaKey shiftKey => onKeyDown key ctrlKey metaKey shiftKey st
  | MouseMove target isRoot => if listeners st then onInspectorMove target isRoot st else st
  | Click target => if listeners st then onInspectorClick target st else st
  end.

Definition run (api : DomApi) (cursor : string) (inputs : list (Dom * event)) : State :=
  fold_left (step api) inputs (initial cursor).

(** The [enabled] flags of the [inspector-mode] messages of an outbox. *)
Fixpoint modeReports (notes : list note) : list bool :=
  match notes with
  | [] => []
  | InspectorMode enabled :: rest => enabled :: modeReports rest
  | _ :: rest => modeReports rest
  end.

(** Flags that alternate, the first one being [first]. *)
Fixpoint alternates (first : bool) (flags : list bool) : bool :=
  match flags with
  | [] => true
  | b :: rest => Bool.eqb b first && alternates (negb first) rest
  end.

(** The mode the parent was told last; off before any report. *)
Definition reportedMode (st : State) : bool :=
  default false (last (modeReports (outbox st))).

(** The elements of the [element-highlighted] messages of an outbox. *)
Fixpoint highlighted (notes : list note) : list node :=
  match notes with
  | [] => []
  | ElementHighlighted el :: rest => el :: highlighted rest
  | _ :: rest => highlighted rest
  end.

(** What the inspector's reports say: the two listeners go with the
    mode, the cursor is the crosshair in it, and the reports alternate,
    starting with an enabling one and ending on the mode. *)
Definition modeInvariant (st : State) : Prop :=
  listeners st = inspectorMode st
  ∧ (inspectorMode st = true → cursor st = "crosshair")
  ∧ alternates true (modeReports (outbox st)) = true
  ∧ reportedMode st = inspectorMode st.

(** What is shown goes with the target: without a target nothing is
    tracked or shown, an element as target is tracked and shown, and only
    elements are scrolled to or reported. *)
Definition targetInvariant (st : State) : Prop :=
  (currentTarget st = None → animationFrameId st = false ∧ overlay st ≠ Some Block)
  ∧ (∀ el, currentTarget st = Some el → isElement el = true →
       animationFrameId st = true ∧ overlay st = Some Block)
  ∧ Forall (fun el => isElement el = true) (highlighted (outbox st))
  ∧ scrolled st ⊆ highlighted (outbox st).

End Highlighter.

(** The greatest distance of a node of the tree from its root. *)
Fixpoint dn_height (t : DomNode) : nat :=
  match t with
  | mkDomNode _ _ _ _ _ (Some children) =>
      list_max (List.map (fun c => S (dn_height c)) children)
  | mkDomNode _ _ _ _ _ None => 0
  end.

(** The element is one of the script's own: an overlay element or an
    injected script. *)
Definition isInjected (el : node) : bool :=
  hasAttribute "data-proxy-highlight" el || hasAttribute "data-proxy-injected" el.

(** The contents of the text nodes at and below a node, in document
    order. *)
Fixpoint textsBelow (n : node) : list string :=
  match n with
  | Text data => [data]
  | Comment _ => []
  | Element _ _ children => List.flat_map textsBelow children
  end.

(** A node and the nodes below it, in document order. *)
Fixpoint nodesBelow (n : node) : list node :=
  n :: match n with
       | Element _ _ children => List.flat_map nodesBelow children
       | _ => []
       end.

(** The elements among [nodes] that [buildDomTree] does not skip. *)
Definition listedChildren (nodes : list node) : list node :=
  List.filter (fun c => isElement c && negb (isInjected c)) nodes.

(** ** Express: from the handler's call to the response that leaves

    [res.send], [res.json] and [res.sendStatus] of Express 4, which
    [server.ts] calls with the application's default settings. What
    Express takes from its own libraries is an argument. Node adds [Date]
    and [Connection] when it writes the response; they are not part of
    it here. The server never sets the status 205. *)
Record Express := mkExpress {
  (* setCharset(type, "utf-8"): the content type parsed and written out
     again with its charset parameter set to utf-8; None where the type
     does not parse and the call raises *)
  setCharset : string → option string;
  (* the application's "etag fn" on the body: a weak ETag by default *)
  etagOf : string → string;
  (* fresh(req.headers, { etag, "last-modified" }) for the request at
     hand: do its conditional headers match the response *)
  fresh : option string → option string → bool;
  (* statuses.message[code] || String(code) *)
  statusMessage : nat → string
}.

(** [JSON.stringify] of an object whose values are strings. *)
Definition stringifyObject (fields : list (string * string)) : string :=
  "{" +:+ join "," ((fun kv => JSON_stringify kv.1 +:+ ":" +:+ JSON_stringify kv.2)
                      <$> fields) +:+ "}".

(** The response as Express hands it to Node. *)
Record Wire := mkWire {
  wire_status : nat;
  wire_headers : gmap string string;
  wire_body : string
}.

(** What a call hands to [res.send] in the end: whether it is a string,
    the body, and the headers once [res.sendStatus] has set its type
    ([res.json] has set its type by then, see [json]). *)
Definition handedOver (E : Express) (r : Response)
    : bool * string * gmap string string :=
  match res_payload r with
  | Body text => (true, text, res_headers r)
  | Bytes data => (false, data, res_headers r)
  | Json fields => (true, stringifyObject fields, res_headers r)
  | StatusOnly =>
      (true, statusMessage E (res_status r),
       <["content-type" := "text/plain; charset=utf-8"]> (res_headers r))
  end.

(** [req.fresh] *)
Definition isFresh (E : Express) (req : Request) (status : nat)
    (headers : gmap string string) : bool :=
  (String.eqb (req_method req) "GET" || String.eqb (req_method req) "HEAD")
  && ((Nat.leb 200 status && Nat.ltb status 300) || Nat.eqb status 304)
  && fresh E (headers !! "etag") (headers !! "last-modified").

(** [res.send(chunk)]: a body without content type gets [text/html] as
    a string and [application/octet-stream] as a Buffer; the content type
    of a string gets the charset utf-8; [Content-Length] is set, and an
    [ETag] unless there is one; a fresh request is answered 304; a 204 or
    304 loses its content headers and its body; a [HEAD] request gets no
    body. [None] where [setCharset] raises. *)
Definition respond (E : Express) (req : Request) (r : Response) : option Wire :=
  let '(isString, chunk, headers) := handedOver E r in
  let headers :=
    if truthy_opt (headers !! "content-type") then headers
    else <["content-type" := if isString then "text/html; charset=utf-8"
                             else "application/octet-stream"]> headers in
  match (if isString
         then (fun t => <["content-type" := t]> headers)
                <$> (headers !! "content-type" ≫= setCharset E)
         else Some headers) with
  | None => None
  | Some headers =>
      let generateETag := negb (truthy_opt (headers !! "etag")) in
      let headers := <["content-length" := decimal (String.length chunk)]> headers in
      let headers :=
        if generateETag && truthy (etagOf E chunk)
        then <["etag" := etagOf E chunk]> headers else headers in
      let status := if isFresh E req (res_status r) headers then 304 else res_status r in
      let emptied := Nat.eqb status 204 || Nat.eqb status 304 in
      let headers :=
        if emptied
        then delete "transfer-encoding" (delete "content-length"
               (delete "content-type" headers))
        else headers in
      let chunk := if emptied then "" else chunk in
      Some (mkWire status headers
              (if String.eqb (req_method req) "HEAD" then "" else chunk))
  end.

(** What leaves for a call: status 200 with the given content type and
    body (no body for [HEAD]); or, for a request Express finds fresh,
    304 without content type and without body. *)
Definition delivers (E : Express) (req : Request) (r : Response)
    (type body : string) : Prop :=
  ∃ w, respond E req r = Some w
       ∧ ((wire_status w = 200
           ∧ wire_headers w !! "content-type" = Some type
           ∧ wire_body w = if String.eqb (req_method req) "HEAD" then "" else body)
          ∨ (wire_status w = 304
             ∧ wire_headers w !! "content-type" = None
             ∧ wire_body w = "")).

(** A stand-in for Express in the worked examples: it adds the charset
    to a type that names none, tags a body by its length, and finds no
    request fresh. *)
Definition exampleExpress : Express :=
  mkExpress
    (fun t => Some (if includes t "charset=" then t else t +:+ "; charset=utf-8"))
    (fun body => "W/" +:+ decimal (String.length body))
    (fun _ _ => false)
    (fun _ => "No Content").

(** The two upstream answers agree in what [processAndSend] reads. *)
Definition sameForProxy (a b : FetchResponse) : Prop :=
  fr_body a = fr_body b
  ∧ headers_get "content-type" a = headers_get "content-type" b
  ∧ headers_get "cache-control" a = headers_get "cache-control" b
  ∧ headers_get "etag" a = headers_get "etag" b.

(* ================================================================== *)
(** * Part II: properties                                              *)
(* ================================================================== *)

Example stripOriginInText_ex :
  stripOriginInText "a https://t.example/x b https://t.examplety" "https://t.example"
  = "a /x b ty".
Proof. vm_compute. reflexivity. Qed.

Example escapeRegExp_ex : escapeRegExp "https://t.example" = "https://t\.example".
Proof. vm_compute. reflexivity. Qed.

Example split_ex : split "a--b--" "--" = ["a"; "b"; ""].
Proof. vm_compute. reflexivity. Qed.

Example RegExp_dot : (RegExp "t.e" ≫= fun re => match_here re "txe") = Some "txe".
Proof. vm_compute. reflexivity. Qed.

(** ** Strings *)

Lemma append_nil_r s : s +:+ "" = s.
Proof. induction s; simpl; congruence. Qed.

Lemma append_assoc s t u : (s +:+ t) +:+ u = s +:+ (t +:+ u).
Proof. induction s; simpl; congruence. Qed.

Lemma length_append s t : String.length (s +:+ t) = String.length s + String.length t.
Proof. induction s; simpl; congruence. Qed.

Lemma ascii_eqb_refl c : Ascii.eqb c c = true.
Proof. apply Ascii.eqb_refl. Qed.

Lemma startsWith_empty s : startsWith s "" = true.
Proof. by destruct s. Qed.

Lemma startsWith_split s p :
  startsWith s p = true → s = p +:+ slice s (String.length p).
Proof.
  revert s; induction p as [|a p IH]; intros [|b s]; simpl; try done.
  destruct (Ascii.eqb_spec a b) as [->|]; [|done].
  intros H. f_equal. by apply IH.
Qed.

Lemma startsWith_append p r : startsWith (p +:+ r) p = true.
Proof. induction p; simpl; [apply startsWith_empty|]. by rewrite ascii_eqb_refl. Qed.

Lemma startsWith_iff s p : startsWith s p = true ↔ ∃ r, s = p +:+ r.
Proof.
  split.
  - intros H. eexists. by apply startsWith_split.
  - intros [r ->]. apply startsWith_append.
Qed.

Lemma startsWith_weaken s r p :
  startsWith s p = true → startsWith (s +:+ r) p = true.
Proof.
  intros [q ->]%startsWith_iff. rewrite append_assoc. apply startsWith_append.
Qed.

Lemma slice_0 s : slice s 0 = s.
Proof. by destruct s. Qed.

Lemma slice_append p r : slice (p +:+ r) (String.length p) = r.
Proof. induction p; simpl; [by destruct r|done]. Qed.

Lemma includes_iff s p : includes s p = true ↔ ∃ l r, s = l +:+ p +:+ r.
Proof.
  split.
  - induction s as [|c s IH]; cbn [includes].
    + rewrite orb_false_r. intros [r ->]%startsWith_iff. by exists "", r.
    + intros [H|H]%orb_true_iff.
      * apply startsWith_iff in H as [r ->]. by exists "", r.
      * destruct (IH H) as (l & r & ->). by exists (String c l), r.
  - intros (l & r & ->). induction l as [|c l IH].
    + change ("" +:+ p +:+ r) with (p +:+ r).
      destruct (p +:+ r) eqn:E; cbn [includes]; rewrite <- E, startsWith_append; done.
    + change (String c l +:+ p +:+ r) with (String c (l +:+ p +:+ r)).
      cbn [includes]. rewrite IH. apply orb_true_r.
Qed.

Lemma includes_false_cons c s p :
  includes (String c s) p = false → includes s p = false.
Proof. simpl. by intros [_ ?]%orb_false_iff. Qed.

Lemma truthy_true s : truthy s = true ↔ s ≠ "".
Proof. by destruct s. Qed.

(** ** Origin stripping *)

Lemma char_in_syntax_not c :
  char_in c syntax_chars = false →
  Ascii.eqb c "\"%char = false ∧ Ascii.eqb c "."%char = false.
Proof.
  unfold syntax_chars; simpl. rewrite !orb_false_iff. tauto.
Qed.

Lemma syntax_backslash : char_in "\"%char syntax_chars = true.
Proof. reflexivity. Qed.

(** [escapeRegExp] puts a backslash before each syntax character and
    leaves the others. *)
Lemma escapeRegExp_cons c s :
  escapeRegExp (String c s) =
  (if char_in c syntax_chars then String "\"%char (String c "") else String c "")
  +:+ escapeRegExp s.
Proof.
  unfold escapeRegExp, replace_all.
  cbn [replace_from match_here atom_matches].
  destruct (char_in c syntax_chars); reflexivity.
Qed.

Lemma escapeRegExp_empty : escapeRegExp "" = "".
Proof. reflexivity. Qed.

(** The escaped origin always compiles, to the literal pattern. *)
Lemma RegExp_escapeRegExp s : RegExp (escapeRegExp s) = Some (literal s).
Proof.
  induction s as [|c s IH]; [done|].
  rewrite escapeRegExp_cons.
  destruct (char_in c syntax_chars) eqn:E.
  - cbn [String.append RegExp]. rewrite ascii_eqb_refl, E, IH. done.
  - destruct (char_in_syntax_not _ E) as [E1 E2].
    cbn [String.append RegExp]. rewrite E1, E2, E, IH. done.
Qed.

(** A literal pattern matches exactly where the string starts with it. *)
Lemma match_here_literal p s :
  match_here (literal p) s = if startsWith s p then Some p else None.
Proof.
  revert s; induction p as [|a p IH]; intros [|b s]; simpl; try done.
  rewrite IH. destruct (Ascii.eqb_spec a b) as [->|]; [|done].
  by destruct (startsWith s p).
Qed.

Lemma split_from_nonempty sep skip s : split_from sep skip s ≠ [].
Proof.
  revert skip; induction s as [|c s IH]; intros skip; simpl; [done|].
  destruct skip; [|apply IH].
  destruct (match sep with "" => true | String _ _ => _ end); [done|].
  by destruct (split_from sep 0 s).
Qed.

Lemma join_empty_cons p ps : join "" (p :: ps) = p +:+ join "" ps.
Proof. destruct ps; simpl; [by rewrite append_nil_r|done]. Qed.

Lemma join_cons sep p ps : ps ≠ [] → join sep (p :: ps) = p +:+ sep +:+ join sep ps.
Proof. by destruct ps. Qed.

Lemma join_cons_head sep c p ps :
  join sep (String c p :: ps) = String c (join sep (p :: ps)).
Proof. by destruct ps. Qed.

(** Global replacement of a literal by nothing is the concatenation of
    the pieces of [split]. *)
Lemma replace_from_split sep skip s :
  sep ≠ "" →
  replace_from (literal sep) (fun _ => "") skip s = join "" (split_from sep skip s).
Proof.
  intros Hsep. revert skip; induction s as [|c s IH]; intros skip.
  - simpl. destruct skip; [|done]. rewrite match_here_literal.
    destruct sep; [done|reflexivity].
  - cbn [replace_from split_from]. destruct skip as [|k]; [|apply IH].
    rewrite match_here_literal.
    destruct (startsWith (String c s) sep) eqn:E.
    + destruct sep as [|a sep]; [done|].
      change (String.length (String a sep)) with (S (String.length sep)).
      replace (S (String.length sep) - 1) with (String.length sep) by lia.
      rewrite IH, join_empty_cons. done.
    + rewrite IH. pose proof (split_from_nonempty sep 0 s).
      destruct (split_from sep 0 s) as [|p ps]; [done|].
      by rewrite join_cons_head.
Qed.

(** Putting the separator back between the pieces gives the text again. *)
Lemma join_split_from sep skip s :
  sep ≠ "" → join sep (split_from sep skip s) = slice s skip.
Proof.
  intros Hsep. revert skip; induction s as [|c s IH]; intros skip.
  - by destruct skip.
  - cbn [split_from]. destruct skip as [|k]; [|apply IH].
    destruct (startsWith (String c s) sep) eqn:E.
    + rewrite join_cons by apply split_from_nonempty. rewrite IH.
      apply startsWith_split in E. cbn [slice String.append].
      destruct sep as [|a sep]; [done|].
      change (String.length (String a sep)) with (S (String.length sep)) in *.
      replace (S (String.length sep) - 1) with (String.length sep) by lia.
      cbn [slice] in E. exact (eq_sym E).
    + pose proof (split_from_nonempty sep 0 s).
      specialize (IH 0).
      destruct (split_from sep 0 s) as [|p ps]; [done|].
      by rewrite join_cons_head, IH, !slice_0.
Qed.

Lemma split_from_head_prefix sep s p ps :
  sep ≠ "" → split_from sep 0 s = p :: ps → ∃ r, s = p +:+ r.
Proof.
  intros Hsep E. pose proof (join_split_from sep 0 s Hsep) as J.
  rewrite E, slice_0 in J. destruct ps.
  - exists "". by rewrite append_nil_r.
  - eexists. symmetry. exact J.
Qed.

(** No piece contains the separator. *)
Lemma split_from_pieces_free sep skip s :
  sep ≠ "" → Forall (fun p => includes p sep = false) (split_from sep skip s).
Proof.
  intros Hsep. revert skip; induction s as [|c s IH]; intros skip.
  - simpl. constructor; [|done]. by destruct sep.
  - cbn [split_from]. destruct skip as [|k]; [|apply IH].
    destruct (startsWith (String c s) sep) eqn:E.
    + constructor; [by destruct sep|apply IH].
    + specialize (IH 0).
      destruct (split_from sep 0 s) as [|p ps] eqn:Es;
        [by apply split_from_nonempty in Es|].
      apply Forall_cons in IH as [Hp Hps]. constructor; [|done].
      cbn [includes]. rewrite Hp, orb_false_r.
      destruct (startsWith (String c p) sep) eqn:E'; [|done].
      destruct (split_from_head_prefix _ _ _ _ Hsep Es) as [r ->].
      apply (startsWith_weaken _ r) in E'. cbn [String.append] in E'. congruence.
Qed.

(** [stripOriginInText] for a non-empty origin, without the detour
    through the pattern. *)
Lemma stripOriginInText_split text origin :
  origin ≠ "" → stripOriginInText text origin = join "" (split text origin).
Proof.
  intros H. unfold stripOriginInText, replace_all, split.
  rewrite (proj2 (truthy_true origin) H). cbn [negb].
  rewrite RegExp_escapeRegExp. by apply replace_from_split.
Qed.

Lemma stripOriginInText_empty_origin text : stripOriginInText text "" = text.
Proof. reflexivity. Qed.

(** Without the escaping the dot of a host name would match any
    character; with it, it matches a dot only. *)
Example unescaped_dot_overmatches :
  (RegExp "t.example" ≫= fun re => match_here re "txexample") = Some "txexample"
  ∧ (RegExp (escapeRegExp "t.example") ≫= fun re => match_here re "txexample") = None.
Proof. split; vm_compute; reflexivity. Qed.

(** C10. [stripOriginInText(text, origin)] returns [text] unchanged for
    the empty origin. For any other origin the escaped origin compiles to
    a pattern that matches exactly where the text starts with the origin
    itself (no syntax character of the origin acts as an operator), and
    the result is [text.split(origin).join("")]: the pieces, put back
    around the origin, give the text again, and no piece contains the
    origin. *)
Theorem stripOriginInText_removes_literal_occurrences (text origin : string) :
  stripOriginInText text "" = text ∧
  (origin ≠ "" →
     RegExp (escapeRegExp origin) = Some (literal origin) ∧
     (∀ s, match_here (literal origin) s
           = if startsWith s origin then Some origin else None) ∧
     stripOriginInText text origin = join "" (split text origin) ∧
     join origin (split text origin) = text ∧
     Forall (fun p => includes p origin = false) (split text origin)).
Proof.
  split; [reflexivity|]. intros Hne. repeat split.
  - apply RegExp_escapeRegExp.
  - intros s. apply match_here_literal.
  - by apply stripOriginInText_split.
  - unfold split. rewrite join_split_from by done. apply slice_0.
  - by apply split_from_pieces_free.
Qed.

Lemma stripOriginInText_removes_literal_occurrences_witness :
  stripOriginInText "url(https://t.example/a.png) https://txexample/" "https://t.example"
  = join "" (split "url(https://t.example/a.png) https://txexample/" "https://t.example").
Proof.
  destruct (stripOriginInText_removes_literal_occurrences
              "url(https://t.example/a.png) https://txexample/" "https://t.example")
    as [_ H].
  destruct (H ltac:(discriminate)) as (_ & _ & E & _). exact E.
Defined.

(** ** The runtime patch: [strip] and [proxyOrStrip] *)

Example strip_ex :
  strip "https://t.example" "https://t.example/x" = "/x"
  ∧ strip "https://t.example" "https://t.example" = "/"
  ∧ strip "https://t.example" "/already/relative" = "/already/relative".
Proof. repeat split. Qed.

Example encodeURIComponent_ex :
  encodeURIComponent "https://other.example/y?a=1&b=c d"
  = "https%3A%2F%2Fother.example%2Fy%3Fa%3D1%26b%3Dc%20d".
Proof. vm_compute. reflexivity. Qed.

Lemma startsWith_trans s p q :
  startsWith s p = true → startsWith p q = true → startsWith s q = true.
Proof.
  intros [r ->]%startsWith_iff [r' ->]%startsWith_iff.
  rewrite append_assoc. apply startsWith_append.
Qed.

Lemma isHttpUrl_not_exempt u : isHttpUrl u = true → isExempt u = false.
Proof.
  unfold isHttpUrl, isExempt.
  destruct u as [|[[] [] [] [] [] [] [] []] u]; done.
Qed.

Lemma isHttpUrl_prefix u p :
  isHttpUrl p = true → startsWith u p = true → isHttpUrl u = true.
Proof.
  unfold isHttpUrl. intros [H|H]%orb_true_iff Hu; apply orb_true_iff;
    [left|right]; eapply startsWith_trans; eauto.
Qed.

Lemma proxyOrStrip_same_origin ORIGIN loc u :
  isExempt u = false → startsWith u ORIGIN = true →
  proxyOrStrip ORIGIN loc u = strip ORIGIN u.
Proof. unfold proxyOrStrip, strip. by intros -> ->. Qed.

Lemma percentDecode_encoded c rest :
  percentDecode ((if uriUnreserved c then String c "" else percentEncode c) +:+ rest)
  = String c <$> percentDecode rest.
Proof.
  destruct c as [[] [] [] [] [] [] [] []]; reflexivity.
Qed.

Lemma encoded_char_safe c :
  Forall (fun d => uriUnreserved d || Ascii.eqb d "%"%char = true)
    (chars (if uriUnreserved c then String c "" else percentEncode c)).
Proof.
  destruct c as [[] [] [] [] [] [] [] []]; repeat constructor.
Qed.

Lemma chars_append s t : chars (s +:+ t) = chars s ++ chars t.
Proof. induction s as [|c s IH]; [done|]. cbn. by rewrite IH. Qed.

Lemma percentDecode_encodeURIComponent s : percentDecode (encodeURIComponent s) = Some s.
Proof.
  induction s as [|c s IH]; [done|].
  cbn [encodeURIComponent]. by rewrite percentDecode_encoded, IH.
Qed.

Lemma encodeURIComponent_chars s :
  Forall (fun c => uriUnreserved c || Ascii.eqb c "%"%char = true)
    (chars (encodeURIComponent s)).
Proof.
  induction s as [|c s IH]; [constructor|].
  cbn [encodeURIComponent]. rewrite chars_append.
  apply Forall_app. split; [apply encoded_char_safe|exact IH].
Qed.

Lemma isHttpUrl_colon u : isHttpUrl u = true → ":"%char ∈ chars u.
Proof.
  unfold isHttpUrl. intros [H|H]%orb_true_iff; apply startsWith_iff in H as [r ->];
    rewrite chars_append; apply elem_of_app; left; cbn;
    repeat (first [by left | right]).
Qed.

(** C4. [proxyOrStrip(u)] for a string [u]: a [data:], [blob:],
    [javascript:] or [#] reference is returned untouched; a URL that starts
    with the target origin is treated as by [strip], the origin prefix
    removed and an empty rest turned into [/]; an [http(s)://] URL that
    starts neither with the target origin nor with the page's own origin
    becomes [/proxy?url=] followed by the URL percent-encoded by
    [encodeURIComponent]: what follows the prefix decodes to the URL,
    consists of unreserved characters and [%] only, and differs from the
    URL itself; every other string is returned unchanged. *)
Theorem proxyOrStrip_cases (ORIGIN locationOrigin u : string) :
  (isExempt u = true → proxyOrStrip ORIGIN locationOrigin u = u) ∧
  (isExempt u = false → startsWith u ORIGIN = true →
     proxyOrStrip ORIGIN locationOrigin u = strip ORIGIN u) ∧
  (isHttpUrl ORIGIN = true → startsWith u ORIGIN = true →
     proxyOrStrip ORIGIN locationOrigin u = strip ORIGIN u) ∧
  (isHttpUrl ORIGIN = true → ∀ rest,
     proxyOrStrip ORIGIN locationOrigin (ORIGIN +:+ rest)
     = if truthy rest then rest else "/") ∧
  (isHttpUrl u = true → startsWith u ORIGIN = false →
     startsWith u locationOrigin = false →
     proxyOrStrip ORIGIN locationOrigin u = "/proxy?url=" +:+ encodeURIComponent u
     ∧ percentDecode (encodeURIComponent u) = Some u
     ∧ Forall (fun c => uriUnreserved c || Ascii.eqb c "%"%char = true)
         (chars (encodeURIComponent u))
     ∧ encodeURIComponent u ≠ u) ∧
  (isExempt u = false → startsWith u ORIGIN = false →
     isHttpUrl u = false ∨ startsWith u locationOrigin = true →
     proxyOrStrip ORIGIN locationOrigin u = u).
Proof.
  assert (Hsame : ∀ v, isHttpUrl ORIGIN = true → startsWith v ORIGIN = true →
            proxyOrStrip ORIGIN locationOrigin v = strip ORIGIN v).
  { intros v HO Hv. apply proxyOrStrip_same_origin; [|done].
    apply isHttpUrl_not_exempt. by eapply isHttpUrl_prefix. }
  split; [|split; [|split; [|split; [|split]]]].
  - intros H. unfold proxyOrStrip. rewrite H. by destruct (truthy u).
  - apply proxyOrStrip_same_origin.
  - apply Hsame.
  - intros HO rest. rewrite Hsame by (done || apply startsWith_append).
    unfold strip. rewrite startsWith_append, slice_append.
    destruct ORIGIN; [done|]. reflexivity.
  - intros Hu HO Hl. split; [|split; [|split]].
    + unfold proxyOrStrip.
      rewrite (isHttpUrl_not_exempt _ Hu), HO, Hu, Hl. by destruct u.
    + apply percentDecode_encodeURIComponent.
    + apply encodeURIComponent_chars.
    + intros E. pose proof (encodeURIComponent_chars u) as Hsafe.
      rewrite E in Hsafe. rewrite Forall_forall in Hsafe.
      by specialize (Hsafe _ (isHttpUrl_colon _ Hu)).
  - intros He HO Hor. unfold proxyOrStrip. rewrite He, HO.
    destruct (truthy u); [|done]. cbn [negb].
    destruct Hor as [->| ->]; [done|]. by rewrite andb_false_r.
Qed.

Lemma proxyOrStrip_cases_witness :
  proxyOrStrip "https://t.example" "http://localhost:3001" "https://other.example/y"
  = "/proxy?url=https%3A%2F%2Fother.example%2Fy"
  ∧ percentDecode "https%3A%2F%2Fother.example%2Fy" = Some "https://other.example/y".
Proof.
  destruct (proxyOrStrip_cases "https://t.example" "http://localhost:3001"
              "https://other.example/y") as (_ & _ & _ & _ & H & _).
  destruct H as (H1 & H2 & _); [reflexivity..|].
  split; [exact H1|exact H2].
Defined.

(** ** The handlers *)

Lemma getHeader_setHeader name value res :
  getHeader name (setHeader name value res) = Some value.
Proof. unfold getHeader, setHeader; simpl. apply lookup_insert_eq. Qed.

Lemma getHeader_send name text res : getHeader name (send text res) = getHeader name res.
Proof. reflexivity. Qed.

Lemma getHeader_forwardHeader_ne name name' v res :
  toLowerCase name ≠ toLowerCase name' →
  getHeader name (forwardHeader name' v res) = getHeader name res.
Proof.
  intros Hne. unfold forwardHeader. destruct v as [s|]; [|done].
  destruct (truthy s); [|done].
  unfold getHeader, setHeader; simpl. by rewrite lookup_insert_ne.
Qed.

Lemma getHeader_setHeader_ne name name' v res :
  toLowerCase name ≠ toLowerCase name' →
  getHeader name (setHeader name' v res) = getHeader name res.
Proof.
  intros Hne. unfold getHeader, setHeader; simpl. by rewrite lookup_insert_ne.
Qed.

Lemma getHeader_forwardHeader name v res :
  getHeader name res = None →
  getHeader name (forwardHeader name v res) = if truthy_opt v then v else None.
Proof.
  intros Hnone. unfold forwardHeader. destruct v as [s|]; [|done].
  simpl. destruct (truthy s); [|done]. apply getHeader_setHeader.
Qed.

(** [setPermissiveHeaders] on a response that carries none of the
    blocking headers yet (as every response of this server does, being
    built from a fresh one). *)
Lemma setPermissiveHeaders_permissive res : permissive (setPermissiveHeaders res).
Proof.
  unfold permissive, setPermissiveHeaders, getHeader, removeHeader, setHeader; simpl.
  repeat split;
    repeat (first [ rewrite lookup_delete_eq
                  | rewrite lookup_delete_ne by (compute; discriminate)
                  | rewrite lookup_insert_eq
                  | rewrite lookup_insert_ne by (compute; discriminate) ]);
    reflexivity.
Qed.

(** The headers set after [setPermissiveHeaders] do not disturb it. *)
Lemma permissive_setHeader name value res :
  toLowerCase name ∈ ["cache-control"; "etag"; "content-type"] →
  permissive res → permissive (setHeader name value res).
Proof.
  intros Hin (H1 & H2 & H3 & H4 & H5 & H6 & H7).
  assert (∀ n, toLowerCase n ∉ ["cache-control"; "etag"; "content-type"] →
            getHeader n (setHeader name value res) = getHeader n res) as Hne.
  { intros n Hn. apply getHeader_setHeader_ne. intros E. apply Hn. by rewrite E. }
  unfold permissive.
  rewrite !Hne by (by apply (bool_decide_unpack _); vm_compute). done.
Qed.

Lemma permissive_forwardHeader name v res :
  toLowerCase name ∈ ["cache-control"; "etag"; "content-type"] →
  permissive res → permissive (forwardHeader name v res).
Proof.
  intros Hin Hp. unfold forwardHeader. destruct v as [s|]; [|done].
  destruct (truthy s); [|done]. by apply permissive_setHeader.
Qed.

Lemma permissive_send text res : permissive res → permissive (send text res).
Proof. done. Qed.

Lemma isHtml_truthy ct : isHtml ct = true → truthy_opt ct = true.
Proof. destruct ct as [c|]; [|done]. by intros [? _]%andb_true_iff. Qed.

Lemma isRewrittenText_truthy ct : isRewrittenText ct = true → ∃ c, ct = Some c ∧ truthy c = true.
Proof.
  unfold isRewrittenText, isCss, isJs, isJson. destruct ct as [c|]; [|done].
  intros H. exists c. split; [done|]. by destruct (truthy c).
Qed.

Lemma preparedResponse_permissive response res : permissive (preparedResponse response res).
Proof.
  unfold preparedResponse.
  do 2 (apply permissive_forwardHeader;
        [by apply (bool_decide_unpack _); vm_compute|]).
  apply setPermissiveHeaders_permissive.
Qed.

Lemma preparedResponse_content_type response :
  getHeader "Content-Type" (preparedResponse response freshResponse) = None.
Proof.
  unfold preparedResponse.
  rewrite !getHeader_forwardHeader_ne by (vm_compute; discriminate).
  reflexivity.
Qed.

Lemma preparedResponse_status response res :
  res_status (preparedResponse response res) = res_status res.
Proof.
  unfold preparedResponse, forwardHeader.
  repeat (case_match; simpl); done.
Qed.

Lemma permissive_sendBuffer data res : permissive res → permissive (sendBuffer data res).
Proof. done. Qed.

(** What [processAndSend] sends, branch by branch. *)
Lemma processAndSend_unfold P cur response finalUrl res flag :
  let ct := headers_get "content-type" response in
  let origin := default cur (URL_origin P finalUrl) in
  let res' := preparedResponse response res in
  processAndSend P cur response finalUrl res flag =
  match fr_body response with
  | None => Rejected
  | Some body =>
      if isHtml ct then
        match rewriteHtml P body finalUrl with
        | Some out => Sent (send out (setHeader "Content-Type" "text/html; charset=utf-8" res'))
        | None => Rejected
        end
      else if isRewrittenText ct then
        Sent (send (stripOriginInText body origin)
                (setHeader "Content-Type" (default "" ct) res'))
      else Sent (sendBuffer body (forwardHeader "Content-Type" ct res'))
  end.
Proof.
  intros ct origin res'. unfold processAndSend. fold ct. fold (isJson ct).
  change (forwardHeader "ETag" _ _) with res'.
  replace (match URL_origin P finalUrl with Some o => o | None => cur end) with origin
    by (subst origin; by destruct (URL_origin P finalUrl)).
  destruct (fr_body response) as [body|]; [|done].
  destruct (isHtml ct); [done|].
  unfold isRewrittenText, stripOriginInCss.
  destruct (isCss ct) eqn:Ec.
  { destruct ct as [c|]; [|done]. apply andb_true_iff in Ec as [Ht _].
    simpl. unfold orDefault. by rewrite Ht. }
  destruct (isJs ct) eqn:Ej.
  { destruct ct as [c|]; [|done]. apply andb_true_iff in Ej as [Ht _].
    simpl. by rewrite Ht. }
  destruct (isJson ct) eqn:En; [|done].
  destruct ct as [c|]; [|done]. apply andb_true_iff in En as [Ht _].
  simpl. by rewrite Ht.
Qed.

(** Every response [processAndSend] sends is permissive and keeps the
    status it was given. *)
Lemma processAndSend_permissive P cur response finalUrl res flag r :
  processAndSend P cur response finalUrl res flag = Sent r →
  permissive r ∧ res_status r = res_status res.
Proof.
  rewrite processAndSend_unfold. cbv zeta.
  pose proof (preparedResponse_permissive response res) as Hp.
  pose proof (preparedResponse_status response res) as Hs.
  repeat case_match; intros [= <-]; (split; [|try done]).
  - apply permissive_send, permissive_setHeader; [|done].
    by apply (bool_decide_unpack _); vm_compute.
  - apply permissive_send, permissive_setHeader; [|done].
    by apply (bool_decide_unpack _); vm_compute.
  - apply permissive_sendBuffer, permissive_forwardHeader; [|done].
    by apply (bool_decide_unpack _); vm_compute.
  - unfold forwardHeader. repeat (case_match; simpl); done.
Qed.

(** ** What Express makes of a call *)

Lemma lookup_emptied (headers : gmap string string) :
  delete "transfer-encoding" (delete "content-length" (delete "content-type" headers))
    !! "content-type" = None.
Proof. rewrite !lookup_delete_ne by done. apply lookup_delete_eq. Qed.

(** A string sent with status 200 and a content type leaves with the
    charset put into that type, unless the type does not parse. *)
Lemma respond_string E req r text c :
  res_payload r = Body text → res_status r = 200 →
  getHeader "Content-Type" r = Some c → truthy c = true →
  match setCharset E c with
  | Some t => delivers E req r t text
  | None => respond E req r = None
  end.
Proof.
  intros Hp Hs Hc Ht. unfold delivers, respond, handedOver. rewrite Hp, Hs.
  change (getHeader "Content-Type" r) with (res_headers r !! "content-type") in Hc.
  rewrite Hc. cbn [truthy_opt]. rewrite Ht, Hc. cbn [mbind option_bind].
  destruct (setCharset E c) as [t|]; cbn [fmap option_fmap option_map]; [|done].
  cbv zeta. eexists. split; [reflexivity|].
  destruct (isFresh E req 200 _); cbn [Nat.eqb orb wire_status wire_headers wire_body].
  - right. split; [done|]. split; [apply lookup_emptied|].
    by destruct (String.eqb (req_method req) "HEAD").
  - left. split; [done|]. split; [|done].
    case_match; rewrite ?lookup_insert_ne by done; by rewrite lookup_insert_eq.
Qed.

(** A Buffer sent with status 200 leaves with the content type it was
    given, and as [application/octet-stream] without one. *)
Lemma respond_bytes E req r data :
  res_payload r = Bytes data → res_status r = 200 →
  delivers E req r
    (match getHeader "Content-Type" r with
     | Some c => orDefault c "application/octet-stream"
     | None => "application/octet-stream"
     end) data.
Proof.
  intros Hp Hs. unfold delivers, respond, handedOver. rewrite Hp, Hs.
  change (getHeader "Content-Type" r) with (res_headers r !! "content-type").
  cbv zeta. eexists. split; [reflexivity|].
  destruct (isFresh E req 200 _); cbn [Nat.eqb orb wire_status wire_headers wire_body].
  - right. split; [done|]. split; [apply lookup_emptied|].
    by destruct (String.eqb (req_method req) "HEAD").
  - left. split; [done|]. split; [|done].
    assert (∀ m : gmap string string,
              (if negb (truthy_opt (m !! "etag")) && truthy (etagOf E data)
               then <["etag" := etagOf E data]>
                      (<["content-length" := decimal (String.length data)]> m)
               else <["content-length" := decimal (String.length data)]> m)
                !! "content-type" = m !! "content-type") as Hm.
    { intros m. case_match; by rewrite !lookup_insert_ne by done. }
    rewrite Hm. destruct (res_headers r !! "content-type") as [c|] eqn:Ec;
      cbn [truthy_opt]; [|by rewrite lookup_insert_eq].
    unfold orDefault. destruct (truthy c); [done|]. by rewrite lookup_insert_eq.
Qed.




Lemma json_bare fields code :
  bare (json fields (status code freshResponse)).
Proof. repeat split. Qed.

(** C6, as the specification words it, fails: the 400 response to a
    request without [url] carries no CORS header. *)
Lemma missing_url_response_has_no_cors :
  ∃ r, run (fun _ _ => FetchFailed "")
           (proxyHandler examplePlatform "" (getRequest "/proxy" None))
       = (("", Sent r), [])
       ∧ res_status r = 400
       ∧ getHeader "Access-Control-Allow-Origin" r = None.
Proof. eexists. repeat split. Qed.

(** C6, amended. The responses that go through [processAndSend] (the
    200 responses of [/proxy] and of the catch-all) and the [OPTIONS]
    preflight carry [Access-Control-Allow-Origin: *], the allow-methods
    and allow-headers values, and none of the four blocking headers. The
    error responses (400 and 502 of [/proxy], 404 and 502 of the
    catch-all) are sent without [setPermissiveHeaders]: none of the four
    blocking headers, and no CORS header either. *)
Theorem responses_permissive_or_bare (P : Platform) (cur : string) (req : Request)
    (net : string → FetchOpts → FetchResult) :
  (permissive (optionsHandler req) ∧ res_status (optionsHandler req) = 204) ∧
  (∀ cur' r, (run net (proxyHandler P cur req)).1 = (cur', Sent r) →
     (res_status r = 200 ∧ permissive r)
     ∨ ((res_status r = 400 ∨ res_status r = 502) ∧ bare r)) ∧
  (∀ cur' r, (run net (catchAll P cur req)).1 = (cur', Sent r) →
     (res_status r = 200 ∧ permissive r)
     ∨ ((res_status r = 404 ∨ res_status r = 502) ∧ bare r)).
Proof.
  split; [|split].
  - split; [|done]. unfold optionsHandler, sendStatus.
    exact (setPermissiveHeaders_permissive freshResponse).
  - intros cur' r. unfold proxyHandler.
    destruct (req_query_url req) as [targetUrl|]; simpl;
      [|intros [= <- <-]; right; split; [by left|apply json_bare]].
    destruct (truthy targetUrl); simpl;
      [|intros [= <- <-]; right; split; [by left|apply json_bare]].
    destruct (URL_origin P targetUrl) as [targetOrigin|]; simpl;
      [|intros [= <- <-]; right; split; [by right|apply json_bare]].
    destruct (net targetUrl _) as [response|message]; simpl;
      [|intros [= <- <-]; right; split; [by right|apply json_bare]].
    destruct (URL_origin P (fr_url response)) as [finalOrigin|] eqn:E; simpl;
      [|intros [= <- <-]; right; split; [by right|apply json_bare]].
    intros [= <- Hout]. left.
    apply processAndSend_permissive in Hout as [? ->]. done.
  - intros cur' r. unfold catchAll.
    destruct (truthy cur); simpl;
      [|intros [= <- <-]; right; split; [by left|apply json_bare]].
    destruct (net _ _) as [response|message]; simpl;
      [|intros [= <- <-]; right; split; [by right|apply json_bare]].
    intros [= <- Hout]. left.
    apply processAndSend_permissive in Hout as [? ->]. done.
Qed.

Lemma responses_permissive_or_bare_witness :
  ∃ r, (run (fun url _ => Fetched (upstream url "text/css" "a{}"))
          (catchAll examplePlatform "https://t.example" (getRequest "/main.css" None))).1
       = ("https://t.example", Sent r)
       ∧ ((res_status r = 200 ∧ permissive r)
          ∨ ((res_status r = 404 ∨ res_status r = 502) ∧ bare r)).
Proof.
  eexists. split; [reflexivity|].
  destruct (responses_permissive_or_bare examplePlatform "https://t.example"
              (getRequest "/main.css" None)
              (fun url _ => Fetched (upstream url "text/css" "a{}")))
    as (_ & _ & H).
  eapply H. reflexivity.
Defined.

(** ** The catch-all and the tracked origin *)

(** C3. While no target origin is tracked, the catch-all answers every
    request with status 404 and the "no target" error body, asks nothing
    upstream and leaves the tracked origin unset. Once a [/proxy] request
    whose upstream answer is HTML has set the tracked origin to the
    origin [O] of the final URL, the catch-all forwards a request to
    [O] followed by the request's original path and query, so
    [/a/b?c=1] goes to [O + "/a/b?c=1"], and to nothing else. *)
Theorem catchAll_needs_and_uses_target (P : Platform) (req : Request)
    (net : string → FetchOpts → FetchResult) :
  (∃ r, run net (catchAll P "" req) = (("", Sent r), [])
        ∧ res_status r = 404
        ∧ res_payload r
          = Json [("error", "No target origin set. Load a page via /proxy?url= first.")]) ∧
  (∀ cur0 preq targetUrl response O,
     req_query_url preq = Some targetUrl → targetUrl ≠ "" →
     is_Some (URL_origin P targetUrl) →
     (∀ opts, net targetUrl opts = Fetched response) →
     isHtml (headers_get "content-type" response) = true →
     URL_origin P (fr_url response) = Some O → O ≠ "" →
     let cur1 := (run net (proxyHandler P cur0 preq)).1.1 in
     cur1 = O ∧
     ∃ out opts, run net (catchAll P cur1 req)
                 = ((O, out), [(O +:+ req_originalUrl req, opts)])).
Proof.
  split.
  - eexists. repeat split.
  - intros cur0 preq targetUrl response O Hq Hne [tO HtO] Hnet Hhtml HO HOne cur1.
    assert (cur1 = O) as ->.
    { subst cur1. unfold proxyHandler. rewrite Hq.
      rewrite (proj2 (truthy_true _) Hne). cbn [negb]. rewrite HtO.
      cbn [run]. rewrite Hnet, HO, Hhtml.
      by destruct (run net (Done _)) eqn:E; injection E as <- <-. }
    split; [done|]. unfold catchAll.
    rewrite (proj2 (truthy_true _) HOne). cbn [negb run].
    destruct (net (O +:+ req_originalUrl req) _); cbn [run]; by eexists _, _.
Qed.

Lemma catchAll_needs_and_uses_target_witness :
  let net := fun (url : string) (_ : FetchOpts) =>
               Fetched (upstream url "text/html; charset=utf-8" "<p>hi</p>") in
  let cur1 := (run net (proxyHandler examplePlatform ""
                          (getRequest "/proxy?url=https://t.example/home"
                             (Some "https://t.example/home")))).1.1 in
  cur1 = "https://t.example" ∧
  ∃ out opts, run net (catchAll examplePlatform cur1 (getRequest "/a/b?c=1" None))
              = (("https://t.example", out), [("https://t.example/a/b?c=1", opts)]).
Proof.
  intros net.
  destruct (catchAll_needs_and_uses_target examplePlatform
              (getRequest "/a/b?c=1" None) net) as [_ H].
  apply (H "" (getRequest "/proxy?url=https://t.example/home"
                 (Some "https://t.example/home"))
           "https://t.example/home"
           (upstream "https://t.example/home" "text/html; charset=utf-8" "<p>hi</p>")
           "https://t.example");
    try reflexivity; try discriminate.
  by eexists.
Defined.

(** ** Navigation interception *)

(** C7. The code at the input of the specification's example: the click
    on [<a href="https://other.example/y">] is blocked, but the message
    carries [https://t.example/y], the path of the link put behind the
    target origin, not the URL of the link. *)
Theorem third_party_link_reported_on_target_origin :
  clickListener exampleNewURL proxiedPage
    [mkElem "SPAN" None "Other" "a > span";
     mkElem "A" (Some "https://other.example/y") "Other site" "a"]
  = (notifyParent (LinkNavigation "https://t.example/y" "Other site" "a" None)
       proxiedPage, true)
  ∧ "https://t.example/y" ≠ "https://other.example/y".
Proof. split; [reflexivity|discriminate]. Qed.

(** The link's own URL is reported only where no target origin is
    published, that is outside a proxied page. *)
Lemma clickListener_reports_href_without_origin newURL pg path anchor href resolved :
  pg_inspectorMode pg = false →
  closestAnchor path = Some anchor → el_href anchor = Some href →
  truthy href = true → isHttpUrl href = true →
  newURL href (url_href (pg_location pg)) = Some resolved →
  url_href resolved = href →
  url_pathname resolved ≠ url_pathname (pg_location pg) →
  w_PROXY_ORIGIN (pg_window pg) = None →
  clickListener newURL pg path
  = (notifyParent (LinkNavigation href (substring0 (el_text anchor) 200)
                     (el_selector anchor) None) pg, true).
Proof.
  intros Hi Ha Hh Ht Hhttp Hr Hhref Hp Ho. unfold clickListener.
  rewrite Hi, Ha, Hh, Ht. cbn [negb].
  assert (startsWith href "#" || startsWith href "javascript:"
          || startsWith href "mailto:" || startsWith href "tel:" = false) as ->.
  { unfold isHttpUrl in Hhttp.
    destruct href as [|[[] [] [] [] [] [] [] []] href]; done. }
  rewrite Hr. apply String.eqb_neq in Hp. rewrite Hp. cbn [andb].
  unfold reportedUrl. rewrite Ho. cbn [truthy]. by rewrite Hhref.
Qed.

(** ** The history overrides *)

Lemma pg_entries_notifyParent m pg : pg_entries (notifyParent m pg) = pg_entries pg.
Proof. reflexivity. Qed.

Lemma pg_location_notifyParent m pg : pg_location (notifyParent m pg) = pg_location pg.
Proof. reflexivity. Qed.

(** C8, as the specification words it, fails: the overridden
    [pushState] reports but leaves the history where it was, although the
    browser's own [pushState] would have added an entry; and the
    overridden [replaceState] called with the current URL reports
    nothing. *)
Lemma history_override_blocks_the_mutation :
  let pg := history_pushState exampleNewURL proxiedPage (Some "/next") in
  pg_entries pg = pg_entries proxiedPage
  ∧ pg_location pg = pg_location proxiedPage
  ∧ pg_entries (nativePushState exampleNewURL proxiedPage (Some "/next"))
    = ["http://localhost:3001/page"; "http://localhost:3001/next"]
  ∧ pg_entries proxiedPage = ["http://localhost:3001/page"]
  ∧ pg_outbox (history_replaceState exampleNewURL proxiedPage
                 (Some "http://localhost:3001/page"))
    = pg_outbox proxiedPage.
Proof. repeat split. Qed.

(** C8, amended. Once the highlight bundle has run, [history.pushState]
    and [history.replaceState] never reach the browser's primitives: the
    session history and the location stay as they were. [pushState] with
    a URL argument posts one [link-navigation] message of type
    [pushState]; [replaceState] posts one of type [replaceState] when its
    URL argument differs from [location.href], and nothing when it is
    equal; without a URL argument neither posts anything. *)
Theorem history_overrides_report_and_block
    (newURL : string → string → option URLRecord) (pg0 : Page) (url : option string) :
  pg_HIGHLIGHT_INIT pg0 = false →
  let pg := runInject pg0 in
  let pushed := history_pushState newURL pg url in
  let replaced := history_replaceState newURL pg url in
  (pg_entries pushed = pg_entries pg ∧ pg_location pushed = pg_location pg) ∧
  (pg_entries replaced = pg_entries pg ∧ pg_location replaced = pg_location pg) ∧
  pg_outbox pushed
  = pg_outbox pg ++
    (if truthy_opt url
     then [LinkNavigation (historyUrl newURL pg (default "" url)) "" "" (Some "pushState")]
     else []) ∧
  pg_outbox replaced
  = pg_outbox pg ++
    (if truthy_opt url && negb (String.eqb (default "" url) (url_href (pg_location pg)))
     then [LinkNavigation (historyUrl newURL pg (default "" url)) "" "" (Some "replaceState")]
     else []).
Proof.
  intros Hinit pg pushed replaced.
  assert (pg_pushState pg = ReportHistory ∧ pg_replaceState pg = ReportHistory) as [Hp Hr].
  { subst pg. unfold runInject. by rewrite Hinit. }
  subst pushed replaced. unfold history_pushState, history_replaceState.
  rewrite Hp, Hr. unfold pushStateOverride, replaceStateOverride.
  destruct url as [u|]; simpl; [|by rewrite app_nil_r].
  destruct (truthy u); simpl; [|by rewrite app_nil_r].
  destruct (String.eqb u (url_href (pg_location pg))); simpl; by rewrite ?app_nil_r.
Qed.

Lemma history_overrides_report_and_block_witness :
  pg_outbox (history_pushState exampleNewURL proxiedPage (Some "/next"))
  = pg_outbox proxiedPage
    ++ [LinkNavigation "https://t.example/next" "" "" (Some "pushState")]
  ∧ pg_entries (history_pushState exampleNewURL proxiedPage (Some "/next"))
    = pg_entries proxiedPage.
Proof.
  destruct (history_overrides_report_and_block exampleNewURL
              (runPatchIn "https://t.example" (freshPage exampleLocation))
              (Some "/next") eq_refl) as ((He & _) & _ & Ho & _).
  split; [exact Ho|exact He].
Defined.

(** ** Running the injected scripts twice *)

Lemma depth_Patched_ne ORIGIN f : Patched ORIGIN f ≠ f.
Proof. intros E. apply (f_equal depth) in E. simpl in E. lia. Qed.

(** C9, as the specification words it, fails: a second execution of the
    patch wraps [fetch] once more, and the page can tell: a URL that
    starts with the origin twice loses one origin after one execution and
    both after two. *)
Lemma second_patch_execution_changes_the_page :
  let once := runPatch "https://t.example" nativeWindow in
  let twice := runPatch "https://t.example" once in
  twice ≠ once
  ∧ callFetch (w_fetch once) "http://localhost:3001"
      (UrlString "https://t.examplehttps://t.example/x")
    = UrlString "https://t.example/x"
  ∧ callFetch (w_fetch twice) "http://localhost:3001"
      (UrlString "https://t.examplehttps://t.example/x")
    = UrlString "/x".
Proof.
  repeat split. intros E. apply (f_equal w_fetch) in E. discriminate E.
Qed.

(** C9, amended. The patch script has no guard: every execution wraps
    the primitives it finds once more, so a second execution never leaves
    the window as the first left it, and after [n] executions [fetch] is
    wrapped [n] times over what it was. The guard against double
    initialisation is the highlight bundle's
    ([__PROXY_HIGHLIGHT_INIT__]): a second execution of the bundle leaves
    the page exactly as the first left it. *)
Theorem patch_is_unguarded_bundle_is_guarded (ORIGIN : string) (w : Window)
    (pg : Page) (n : nat) :
  runPatch ORIGIN (runPatch ORIGIN w) ≠ runPatch ORIGIN w
  ∧ w_fetch (runPatch ORIGIN w) = Patched ORIGIN (w_fetch w)
  ∧ depth (w_fetch (Nat.iter n (runPatch ORIGIN) w)) = n + depth (w_fetch w)
  ∧ depth (w_xhrOpen (Nat.iter n (runPatch ORIGIN) w)) = n + depth (w_xhrOpen w)
  ∧ depth (w_open (Nat.iter n (runPatch ORIGIN) w)) = n + depth (w_open w)
  ∧ runInject (runInject pg) = runInject pg
  ∧ pg_HIGHLIGHT_INIT (runInject pg) = true.
Proof.
  split; [|split; [done|]].
  { intros E. apply (f_equal w_fetch) in E. simpl in E.
    by apply depth_Patched_ne in E. }
  repeat split.
  1-3: induction n as [|n IH]; [done|]; simpl; by rewrite IH.
  - unfold runInject. by destruct (pg_HIGHLIGHT_INIT pg) eqn:E; simpl; rewrite ?E.
  - unfold runInject. by destruct (pg_HIGHLIGHT_INIT pg) eqn:E.
Qed.

(** ** Documents: the generic effect of a pass *)

Lemma rawText_textNodes s : rawText (textNodes s) = s.
Proof. destruct s; [done|]. simpl. by rewrite append_nil_r. Qed.

Lemma observeAll_textNodes ob s : observeAll ob (textNodes s) = [].
Proof. by destruct s. Qed.

Lemma observeAll_app ob l1 l2 :
  observeAll ob (l1 ++ l2) = observeAll ob l1 ++ observeAll ob l2.
Proof. apply bind_app. Qed.

Lemma observeAll_cons ob n l : observeAll ob (n :: l) = observe ob n ++ observeAll ob l.
Proof. reflexivity. Qed.

Lemma rawText_mapAttribs f c : rawText (mapAttribs f <$> c) = rawText c.
Proof.
  induction c as [|[d|d|name a c'] c IH]; [done|..];
    rewrite fmap_cons; cbn [mapAttribs rawText]; by rewrite ?IH.
Qed.

Lemma rawText_mapChildren g c : rawText (mapChildren g <$> c) = rawText c.
Proof.
  induction c as [|[d|d|name a c'] c IH]; [done|..];
    rewrite fmap_cons; cbn [mapChildren rawText]; by rewrite ?IH.
Qed.

Lemma rawText_removeAll p c : rawText (removeAll p c) = rawText c.
Proof.
  unfold removeAll.
  induction c as [|[d|d|name a c'] c IH]; [done|..]; cbn [omap list_omap matches].
  - cbn [rawText]. by rewrite <- IH.
  - cbn [rawText]. by rewrite <- IH.
  - destruct (p name a); cbn [rawText]; by rewrite <- IH.
Qed.

(** A pass over the attributes acts on the observations value by value. *)
Lemma observe_mapAttribs ob f h :
  (∀ name a t, ob name (f name a) t = h <$> ob name a t) →
  ∀ doc, observeAll ob (mapAttribs f <$> doc) = h <$> observeAll ob doc.
Proof.
  intros Hob doc.
  assert (∀ n, observe ob (mapAttribs f n) = h <$> observe ob n) as Hn.
  { induction n as [| |name a c IH] using node_induction; [done|done|].
    cbn [mapAttribs observe]. rewrite rawText_mapAttribs, Hob, fmap_app.
    f_equal. induction IH as [|m c Hm _ IHc]; [done|].
    cbn. rewrite fmap_app, Hm. f_equal. exact IHc. }
  induction doc as [|n doc IH]; [done|].
  cbn. rewrite fmap_app, Hn. f_equal. exact IH.
Qed.

(** A pass over the children that keeps or drops observations below an
    element, and acts on the element's own observation by [h]. *)
Lemma observe_mapChildren ob g h :
  (∀ name a c, ob name a (rawText (g name a c)) = h <$> ob name a (rawText c)) →
  (∀ name a c, sublist (observeAll ob (g name a c)) (observeAll ob c)) →
  ∀ doc, sublist (observeAll ob (mapChildren g <$> doc)) (h <$> observeAll ob doc).
Proof.
  intros Hown Hsub doc.
  assert (∀ n, sublist (observe ob (mapChildren g n)) (h <$> observe ob n)) as Hn.
  { induction n as [| |name a c IH] using node_induction; [done|done|].
    cbn [mapChildren observe]. rewrite Hown, rawText_mapChildren, fmap_app.
    apply sublist_app; [done|].
    etrans; [apply Hsub|].
    induction IH as [|m c Hm _ IHc]; [done|].
    cbn. rewrite fmap_app. by apply sublist_app. }
  induction doc as [|n doc IH]; [done|].
  cbn. rewrite fmap_app. by apply sublist_app.
Qed.

(** Removal only drops observations. *)
Lemma observe_removeAll ob p doc :
  sublist (observeAll ob (removeAll p doc)) (observeAll ob doc).
Proof.
  assert (∀ n, sublist (observe ob (remove p n)) (observe ob n)) as Hn.
  { induction n as [| |name a c IH] using node_induction; [done|done|].
    cbn [remove observe]. fold (removeAll p c). rewrite rawText_removeAll.
    apply sublist_app; [done|].
    induction IH as [|m c Hm _ IHc]; [done|].
    unfold removeAll. cbn. destruct (matches p m).
    - by apply sublist_inserts_l.
    - cbn. by apply sublist_app. }
  induction doc as [|n doc IH]; [done|].
  unfold removeAll. cbn. destruct (matches p n).
  - by apply sublist_inserts_l.
  - cbn. by apply sublist_app.
Qed.

(** ** The passes of [rewriteHtml], one by one *)

Lemma tracks_compose ob h1 h2 pass1 pass2 :
  tracks ob h1 pass1 → tracks ob h2 pass2 →
  tracks ob (h2 ∘ h1) (pass2 ∘ pass1).
Proof.
  intros H1 H2 doc. etrans; [apply H2|].
  rewrite list_fmap_compose. apply fmap_sublist, H1.
Qed.

Lemma tracks_ext ob h h' pass :
  (∀ x, h x = h' x) → tracks ob h pass → tracks ob h' pass.
Proof.
  intros E H doc. erewrite <- (list_fmap_ext h h'); [apply H|]. intros _ x _. apply E.
Qed.

Lemma tracks_removeAll ob p : tracks ob id (removeAll p).
Proof. intros doc. rewrite list_fmap_id. apply observe_removeAll. Qed.

Lemma tracks_mapAttribs ob f h :
  (∀ name a t, ob name (f name a) t = h <$> ob name a t) →
  tracks ob h (fmap (mapAttribs f)).
Proof. intros H doc. by rewrite (observe_mapAttribs ob f h). Qed.

Lemma tracks_removeAttr ob p attr :
  blindToDelete ob attr → tracks ob id (removeAttr p attr).
Proof.
  intros Hb. apply tracks_mapAttribs. intros name a t.
  rewrite list_fmap_id. destruct (p name a); [apply Hb|done].
Qed.

Lemma tracks_stripUrlAttr_same origin attr :
  tracks (attrValue attr) (stripUrlValue origin)
    (fmap (mapAttribs (stripUrlAttr origin attr))).
Proof.
  apply tracks_mapAttribs. intros name a t.
  unfold attrValue, stripUrlAttr, stripUrlValue.
  destruct (a !! attr) as [val|] eqn:E; [|by rewrite E].
  change (option_list (Some val)) with [val]. rewrite list_fmap_singleton.
  destruct (truthy val && startsWith val origin); [|by rewrite E].
  by rewrite lookup_insert_eq.
Qed.

Lemma tracks_stripUrlAttr_other ob origin attr :
  blindToUpdate ob attr → tracks ob id (fmap (mapAttribs (stripUrlAttr origin attr))).
Proof.
  intros Hb. apply tracks_mapAttribs. intros name a t.
  rewrite list_fmap_id. unfold stripUrlAttr.
  destruct (a !! attr) as [val|] eqn:E; [|done].
  destruct (truthy val && startsWith val origin); [|done].
  apply Hb. by rewrite E.
Qed.

Lemma tracks_stripTextAttr_same origin attr :
  tracks (attrValue attr) (stripTextValue origin)
    (fmap (mapAttribs (stripTextAttr origin attr))).
Proof.
  apply tracks_mapAttribs. intros name a t.
  unfold attrValue, stripTextAttr, stripTextValue.
  destruct (a !! attr) as [val|] eqn:E; [|by rewrite E].
  change (option_list (Some val)) with [val]. rewrite list_fmap_singleton.
  destruct (truthy val && includes val origin); [|by rewrite E].
  by rewrite lookup_insert_eq.
Qed.

Lemma tracks_stripTextAttr_other ob origin attr :
  blindToUpdate ob attr → tracks ob id (fmap (mapAttribs (stripTextAttr origin attr))).
Proof.
  intros Hb. apply tracks_mapAttribs. intros name a t.
  rewrite list_fmap_id. unfold stripTextAttr.
  destruct (a !! attr) as [val|] eqn:E; [|done].
  destruct (truthy val && includes val origin); [|done].
  apply Hb. by rewrite E.
Qed.

Lemma tracks_mapChildren ob g h :
  (∀ name a c, ob name a (rawText (g name a c)) = h <$> ob name a (rawText c)) →
  (∀ name a c, sublist (observeAll ob (g name a c)) (observeAll ob c)) →
  tracks ob h (fmap (mapChildren g)).
Proof. intros H1 H2 doc. by apply observe_mapChildren. Qed.

Lemma stripStyleBody_cases origin name a c :
  stripStyleBody origin name a c = c
  ∨ (sel_tag "style" name a = true
     ∧ stripStyleBody origin name a c = textNodes (stripTextValue origin (rawText c))).
Proof.
  unfold stripStyleBody, stripTextValue.
  destruct (sel_tag "style" name a); [|by left].
  destruct (truthy (rawText c) && includes (rawText c) origin); [by right|by left].
Qed.

Lemma rawText_stripStyleBody origin name a c :
  rawText (stripStyleBody origin name a c)
  = if sel_tag "style" name a then stripTextValue origin (rawText c) else rawText c.
Proof.
  unfold stripStyleBody, stripTextValue.
  destruct (sel_tag "style" name a); [|done].
  destruct (truthy (rawText c) && includes (rawText c) origin); [|done].
  apply rawText_textNodes.
Qed.

Lemma stripInlineScript_cases origin name a c :
  stripInlineScript origin name a c = c
  ∨ (sel_plain_inline_script name a = true
     ∧ stripInlineScript origin name a c
       = textNodes (stripTextValue origin (rawText c))).
Proof.
  unfold stripInlineScript, stripTextValue, sel_plain_inline_script.
  destruct (sel_tag_not_attr "script" "src" name a); [|by left].
  destruct (truthy_opt (a !! "data-proxy-injected")); [by left|].
  destruct (truthy (rawText c)); [|by left].
  destruct (includes (rawText c) origin); [by right|by left].
Qed.

Lemma rawText_stripInlineScript origin name a c :
  rawText (stripInlineScript origin name a c)
  = if sel_plain_inline_script name a
    then stripTextValue origin (rawText c) else rawText c.
Proof.
  unfold stripInlineScript, stripTextValue, sel_plain_inline_script.
  destruct (sel_tag_not_attr "script" "src" name a); [|done].
  destruct (truthy_opt (a !! "data-proxy-injected")); [done|].
  destruct (truthy (rawText c)); [|done].
  destruct (includes (rawText c) origin); [|done].
  apply rawText_textNodes.
Qed.

Lemma sublist_observe_stripStyleBody ob origin name a c :
  sublist (observeAll ob (stripStyleBody origin name a c)) (observeAll ob c).
Proof.
  destruct (stripStyleBody_cases origin name a c) as [->|[_ ->]]; [done|].
  rewrite observeAll_textNodes. apply sublist_nil_l.
Qed.

Lemma sublist_observe_stripInlineScript ob origin name a c :
  sublist (observeAll ob (stripInlineScript origin name a c)) (observeAll ob c).
Proof.
  destruct (stripInlineScript_cases origin name a c) as [->|[_ ->]]; [done|].
  rewrite observeAll_textNodes. apply sublist_nil_l.
Qed.

Lemma tracks_stripStyleBody_same origin :
  tracks styleBody (stripTextValue origin) (fmap (mapChildren (stripStyleBody origin))).
Proof.
  apply tracks_mapChildren; [|apply sublist_observe_stripStyleBody].
  intros name a c. rewrite rawText_stripStyleBody. unfold styleBody.
  by destruct (sel_tag "style" name a).
Qed.

Lemma tracks_stripStyleBody_other ob origin :
  blindToText ob (sel_tag "style") →
  tracks ob id (fmap (mapChildren (stripStyleBody origin))).
Proof.
  intros Hb. apply tracks_mapChildren; [|apply sublist_observe_stripStyleBody].
  intros name a c. rewrite list_fmap_id, rawText_stripStyleBody.
  destruct (sel_tag "style" name a) eqn:E; [by apply Hb|done].
Qed.

Lemma tracks_stripInlineScript_same origin :
  tracks inlineScript (stripTextValue origin)
    (fmap (mapChildren (stripInlineScript origin))).
Proof.
  apply tracks_mapChildren; [|apply sublist_observe_stripInlineScript].
  intros name a c. rewrite rawText_stripInlineScript.
  unfold inlineScript. fold (sel_plain_inline_script name a).
  by destruct (sel_plain_inline_script name a).
Qed.

Lemma tracks_stripInlineScript_other ob origin :
  blindToText ob sel_plain_inline_script →
  tracks ob id (fmap (mapChildren (stripInlineScript origin))).
Proof.
  intros Hb. apply tracks_mapChildren; [|apply sublist_observe_stripInlineScript].
  intros name a c. rewrite list_fmap_id, rawText_stripInlineScript.
  destruct (sel_plain_inline_script name a) eqn:E; [by apply Hb|done].
Qed.

Lemma tracks_prepend ob p content :
  blindToText ob p → observeAll ob content = [] → tracks ob id (prepend p content).
Proof.
  intros Hb Hc. apply tracks_mapChildren.
  - intros name a c. rewrite list_fmap_id.
    destruct (p name a) eqn:E; [by apply Hb|done].
  - intros name a c. destruct (p name a); [|done].
    by rewrite observeAll_app, Hc.
Qed.

Lemma tracks_append ob p content :
  blindToText ob p → observeAll ob content = [] → tracks ob id (append p content).
Proof.
  intros Hb Hc. apply tracks_mapChildren.
  - intros name a c. rewrite list_fmap_id.
    destruct (p name a) eqn:E; [by apply Hb|done].
  - intros name a c. destruct (p name a); [|done].
    by rewrite observeAll_app, Hc, app_nil_r.
Qed.

Lemma tracks_id ob : tracks ob id id.
Proof. intros doc. by rewrite list_fmap_id. Qed.

(** ** What each listed place sees of the passes *)

Lemma blindToUpdate_attrValue x y : x ≠ y → blindToUpdate (attrValue x) y.
Proof. intros Hne name a t v _. unfold attrValue. by rewrite lookup_insert_ne. Qed.

Lemma blindToDelete_attrValue x y : x ≠ y → blindToDelete (attrValue x) y.
Proof. intros Hne name a t. unfold attrValue. by rewrite lookup_delete_ne. Qed.

Lemma blindToText_attrValue x p : blindToText (attrValue x) p.
Proof. by intros name a t t' _. Qed.

Lemma blindToUpdate_styleBody y : blindToUpdate styleBody y.
Proof. by intros name a t v _. Qed.

Lemma blindToDelete_styleBody y : blindToDelete styleBody y.
Proof. by intros name a t. Qed.

Lemma blindToText_styleBody p :
  (∀ name a, p name a = true → sel_tag "style" name a = false) →
  blindToText styleBody p.
Proof. intros Hp name a t t' H. unfold styleBody. by rewrite (Hp _ _ H). Qed.

Lemma blindToUpdate_inlineScript y :
  y ≠ "data-proxy-injected" → blindToUpdate inlineScript y.
Proof.
  intros Hne name a t v Hsome. unfold inlineScript, sel_tag_not_attr, sel_attr, sel_tag.
  rewrite (lookup_insert_ne a y "data-proxy-injected") by done.
  destruct (decide (y = "src")) as [->|Hsrc].
  - rewrite lookup_insert_eq. by destruct Hsome as [w ->].
  - by rewrite lookup_insert_ne.
Qed.

Lemma blindToDelete_inlineScript y :
  y ≠ "data-proxy-injected" → y ≠ "src" → blindToDelete inlineScript y.
Proof.
  intros Hne Hsrc name a t. unfold inlineScript, sel_tag_not_attr, sel_attr, sel_tag.
  by rewrite !lookup_delete_ne.
Qed.

Lemma blindToText_inlineScript p :
  (∀ name a, p name a = true → sel_plain_inline_script name a = false) →
  blindToText inlineScript p.
Proof.
  intros Hp name a t t' H. unfold inlineScript.
  fold (sel_plain_inline_script name a). by rewrite (Hp _ _ H).
Qed.

Lemma sel_tag_exclusive t t' name a :
  t ≠ t' → sel_tag t name a = true → sel_tag t' name a = false.
Proof.
  unfold sel_tag. intros Hne ->%String.eqb_eq. by apply String.eqb_neq.
Qed.

Lemma sel_tag_not_plain_script t name a :
  t ≠ "script" → sel_tag t name a = true → sel_plain_inline_script name a = false.
Proof.
  unfold sel_plain_inline_script, sel_tag_not_attr. intros Hne H.
  by rewrite (sel_tag_exclusive t "script" name a Hne H).
Qed.

Lemma sel_plain_script_not_style name a :
  sel_plain_inline_script name a = true → sel_tag "style" name a = false.
Proof.
  unfold sel_plain_inline_script, sel_tag_not_attr.
  intros [[H _]%andb_true_iff _]%andb_true_iff.
  by apply (sel_tag_exclusive "script" "style" name a).
Qed.

(** The injected nodes show nothing in a listed place. *)
Lemma observe_injected_script ob text :
  (∀ t, ob "script" injectedAttribs t = []) →
  observe ob (Element "script" injectedAttribs (textNodes text)) = [].
Proof.
  intros H.
  change (observe ob (Element "script" injectedAttribs (textNodes text)))
    with (ob "script" injectedAttribs (rawText (textNodes text))
          ++ observeAll ob (textNodes text)).
  by rewrite H, observeAll_textNodes.
Qed.

Lemma observeAll_buildRuntimePatch ob origin :
  (∀ t, ob "script" injectedAttribs t = []) →
  observeAll ob (buildRuntimePatch origin) = [].
Proof.
  intros H. unfold buildRuntimePatch.
  rewrite !observeAll_cons, observe_injected_script by done. reflexivity.
Qed.

Lemma observeAll_injectTag ob inj :
  (∀ t, ob "script" injectedAttribs t = []) → observeAll ob (injectTag inj) = [].
Proof.
  intros H. unfold injectTag.
  rewrite !observeAll_cons, observe_injected_script by done. reflexivity.
Qed.

Lemma tracks_injectRuntimePatch ob origin :
  untouchedByInjection ob → tracks ob id (injectRuntimePatch origin).
Proof.
  intros [Hh Hm Hb Hs Hn] doc. unfold injectRuntimePatch.
  destruct (exists_sel (sel_tag "head") doc).
  { apply tracks_prepend; [done|]. by apply observeAll_buildRuntimePatch. }
  destruct (exists_sel (sel_tag "html") doc); [|by rewrite list_fmap_id].
  apply tracks_prepend; [done|].
  rewrite observeAll_cons. cbn [observe].
  fold (observeAll ob (buildRuntimePatch origin)).
  by rewrite Hn, observeAll_buildRuntimePatch.
Qed.

Lemma tracks_injectHighlight ob inj :
  untouchedByInjection ob → tracks ob id (injectHighlight inj).
Proof.
  intros [Hh Hm Hb Hs Hn] doc. unfold injectHighlight.
  destruct (exists_sel (sel_tag "body") doc);
    (apply tracks_append; [done|by apply observeAll_injectTag]).
Qed.

Lemma tracks_removeBlockers ob :
  blindToDelete ob "integrity" → blindToDelete ob "nonce" →
  blindToDelete ob "crossorigin" → tracks ob id removeBlockers.
Proof.
  intros Hi Hn Hc.
  apply (tracks_ext ob (id ∘ id ∘ id ∘ id ∘ id ∘ id ∘ id ∘ id)); [done|].
  change removeBlockers with
    (removeAttr (sel_tag_attr "link" "crossorigin") "crossorigin"
     ∘ removeAttr (sel_tag_attr "script" "crossorigin") "crossorigin"
     ∘ removeAttr (sel_attr "nonce") "nonce"
     ∘ removeAttr (sel_attr "integrity") "integrity"
     ∘ removeAll (sel_tag_attr_eq "meta" "http-equiv" "X-Frame-Options")
     ∘ removeAll (sel_tag_attr_eq "meta" "http-equiv" "Content-Security-Policy-Report-Only")
     ∘ removeAll (sel_tag_attr_eq "meta" "http-equiv" "Content-Security-Policy")
     ∘ removeAll (sel_tag "base")).
  do 4 (apply tracks_compose; [apply tracks_removeAll|]).
  do 3 (apply tracks_compose; [by apply tracks_removeAttr|]).
  by apply tracks_removeAttr.
Qed.

(** [stripOrigin] as the sequence of its nine passes. *)
Lemma stripOrigin_passes origin :
  stripOrigin origin
  = fmap (mapChildren (stripInlineScript origin))
    ∘ fmap (mapChildren (stripStyleBody origin))
    ∘ fmap (mapAttribs (stripTextAttr origin "style"))
    ∘ fmap (mapAttribs (stripTextAttr origin "srcset"))
    ∘ fmap (mapAttribs (stripUrlAttr origin "poster"))
    ∘ fmap (mapAttribs (stripUrlAttr origin "data"))
    ∘ fmap (mapAttribs (stripUrlAttr origin "action"))
    ∘ fmap (mapAttribs (stripUrlAttr origin "href"))
    ∘ fmap (mapAttribs (stripUrlAttr origin "src")).
Proof. reflexivity. Qed.

Lemma rewriteDom_passes origin inj :
  rewriteDom origin inj
  = injectHighlight inj ∘ injectRuntimePatch origin ∘ stripOrigin origin ∘ removeBlockers.
Proof. reflexivity. Qed.

(** From what [stripOrigin] does to an observation to what the whole
    rewriter does to it. *)
Lemma tracks_rewriteDom ob h origin inj :
  blindToDelete ob "integrity" → blindToDelete ob "nonce" →
  blindToDelete ob "crossorigin" → untouchedByInjection ob →
  tracks ob h (stripOrigin origin) → tracks ob h (rewriteDom origin inj).
Proof.
  intros Hi Hn Hc Hu Hs. rewrite rewriteDom_passes.
  apply (tracks_ext ob (id ∘ id ∘ h ∘ id)); [done|].
  apply tracks_compose; [by apply tracks_removeBlockers|].
  apply tracks_compose; [done|].
  apply tracks_compose; [by apply tracks_injectRuntimePatch|].
  by apply tracks_injectHighlight.
Qed.

Ltac solve_blind :=
  first
    [ apply blindToUpdate_attrValue; discriminate
    | apply blindToDelete_attrValue; discriminate
    | apply blindToText_attrValue
    | apply blindToUpdate_styleBody
    | apply blindToDelete_styleBody
    | apply blindToText_styleBody; intros ? ?;
      first [ apply sel_plain_script_not_style
            | apply sel_tag_exclusive; discriminate ]
    | apply blindToUpdate_inlineScript; discriminate
    | apply blindToDelete_inlineScript; discriminate
    | apply blindToText_inlineScript; intros ? ?;
      apply sel_tag_not_plain_script; discriminate ].

Ltac track_pass :=
  first
    [ apply tracks_stripUrlAttr_same
    | apply tracks_stripTextAttr_same
    | apply tracks_stripStyleBody_same
    | apply tracks_stripInlineScript_same
    | apply tracks_stripUrlAttr_other; solve_blind
    | apply tracks_stripTextAttr_other; solve_blind
    | apply tracks_stripStyleBody_other; solve_blind
    | apply tracks_stripInlineScript_other; solve_blind ].

Ltac track_stripOrigin :=
  rewrite stripOrigin_passes;
  eapply tracks_ext; cycle 1;
  [ do 8 (eapply tracks_compose; [track_pass|]); track_pass
  | done ].

Ltac track_rewriteDom :=
  apply tracks_rewriteDom;
  [ solve_blind | solve_blind | solve_blind
  | split; first [solve_blind | reflexivity]
  | track_stripOrigin ].

Lemma tracks_url_attrs origin inj :
  Forall (fun attr => tracks (attrValue attr) (stripUrlValue origin) (rewriteDom origin inj))
    urlAttrs.
Proof. repeat constructor; track_rewriteDom. Qed.

Lemma tracks_text_attrs origin inj :
  Forall (fun attr => tracks (attrValue attr) (stripTextValue origin) (rewriteDom origin inj))
    ["srcset"; "style"].
Proof. repeat constructor; track_rewriteDom. Qed.

Lemma tracks_styleBody origin inj :
  tracks styleBody (stripTextValue origin) (rewriteDom origin inj).
Proof. track_rewriteDom. Qed.

Lemma tracks_inlineScript origin inj :
  tracks inlineScript (stripTextValue origin) (rewriteDom origin inj).
Proof. track_rewriteDom. Qed.

(** Where the origin does not occur, nothing is replaced. *)
Lemma replace_from_absent sep s :
  sep ≠ "" → includes s sep = false →
  replace_from (literal sep) (fun _ => "") 0 s = s.
Proof.
  intros Hsep. induction s as [|c s IH]; intros Hinc.
  - cbn [replace_from]. rewrite match_here_literal. by destruct sep.
  - cbn [replace_from]. rewrite match_here_literal.
    cbn [includes] in Hinc. apply orb_false_iff in Hinc as [-> Hinc].
    by rewrite IH.
Qed.

Lemma stripTextValue_stripOriginInText origin val :
  stripTextValue origin val = stripOriginInText val origin.
Proof.
  unfold stripTextValue.
  destruct origin as [|a origin]; [by destruct (truthy val && includes val "")|].
  destruct (truthy val && includes val (String a origin)) eqn:E; [done|].
  unfold stripOriginInText, replace_all. cbn [truthy negb].
  rewrite RegExp_escapeRegExp.
  destruct val as [|c val]; [done|]. cbn [truthy andb] in E.
  by rewrite replace_from_absent.
Qed.

Lemma stripUrlValue_prefix origin rest :
  stripUrlValue origin (origin +:+ rest)
  = if truthy rest then rest else if truthy origin then "/" else "".
Proof.
  unfold stripUrlValue. rewrite startsWith_append, slice_append, andb_true_r.
  destruct origin, rest; reflexivity.
Qed.

(** ** The rewritten document *)

(** C1, as the specification words it, fails: an [href] that holds the
    origin behind its first character keeps it. *)
Lemma origin_survives_inside_href :
  let out := rewriteDom "https://t.example" "" loginPage in
  originFree "https://t.example" out = false
  ∧ observeAll (attrValue "href") out = ["/login?next=https://t.example/account"]
  ∧ includes "/login?next=https://t.example/account" "https://t.example" = true
  ∧ observeAll (attrValue "src") out = ["/logo.png"].
Proof. repeat split; vm_compute; reflexivity. Qed.

(** Removing occurrences can also bring two halves of the origin
    together, so the text places are not free of the origin either. *)
Example stripOriginInText_can_leave_origin :
  stripOriginInText "hhttps://t.examplettps://t.example/a.png" "https://t.example"
  = "https://t.example/a.png".
Proof. vm_compute. reflexivity. Qed.

(** C1, amended. Every [src], [href], [action], [data] and [poster]
    value of the rewritten document is a value of the same attribute of
    the input with one leading origin removed if it started with the
    origin (an empty rest becoming [/]) and is the input value itself
    otherwise, so an origin further inside a value stays. Every [srcset]
    value, inline [style] value, [style] body and text of an inline script
    not marked as injected is [stripOriginInText] of such a value or text
    of the input. Values of removed elements are gone; nothing else is
    added to these places. *)
Theorem rewriteDom_strips_listed_places (origin inj : string) (doc : list node) :
  let out := rewriteDom origin inj doc in
  let stripText := fun v => stripOriginInText v origin in
  Forall (fun attr => sublist (observeAll (attrValue attr) out)
                         (stripUrlValue origin <$> observeAll (attrValue attr) doc))
    urlAttrs ∧
  Forall (fun attr => sublist (observeAll (attrValue attr) out)
                         (stripText <$> observeAll (attrValue attr) doc))
    ["srcset"; "style"] ∧
  sublist (observeAll styleBody out) (stripText <$> observeAll styleBody doc) ∧
  sublist (observeAll inlineScript out) (stripText <$> observeAll inlineScript doc) ∧
  (∀ rest, stripUrlValue origin (origin +:+ rest)
           = if truthy rest then rest else if truthy origin then "/" else "") ∧
  (∀ val, startsWith val origin = false → stripUrlValue origin val = val).
Proof.
  intros out stripText.
  assert (∀ ob, tracks ob (stripTextValue origin) (rewriteDom origin inj) →
                sublist (observeAll ob out) (stripText <$> observeAll ob doc)) as Htext.
  { intros ob H. apply (tracks_ext ob _ stripText) in H; [apply H|].
    apply stripTextValue_stripOriginInText. }
  split; [|split; [|split; [|split; [|split]]]].
  - eapply Forall_impl; [apply (tracks_url_attrs origin inj)|]. intros attr H. apply H.
  - eapply Forall_impl; [apply (tracks_text_attrs origin inj)|]. intros attr H.
    by apply Htext.
  - apply Htext, tracks_styleBody.
  - apply Htext, tracks_inlineScript.
  - apply stripUrlValue_prefix.
  - intros val H. unfold stripUrlValue. by rewrite H, andb_false_r.
Qed.

Lemma rewriteDom_strips_listed_places_witness :
  stripUrlValue "https://t.example" "/login?next=https://t.example/account"
  = "/login?next=https://t.example/account".
Proof.
  destruct (rewriteDom_strips_listed_places "https://t.example" "" loginPage)
    as (_ & _ & _ & _ & _ & H).
  apply H. reflexivity.
Defined.

(** ** Counting through the passes, on parsed documents *)

Lemma parsed_cons n doc : parsed (n :: doc) = wellFormed n && parsed doc.
Proof. reflexivity. Qed.

Lemma parsed_app l1 l2 : parsed (l1 ++ l2) = parsed l1 && parsed l2.
Proof. apply forallb_app. Qed.

Lemma wellFormed_Element name a c :
  wellFormed (Element name a c) = shapeOk name c && parsed c.
Proof. reflexivity. Qed.

Lemma observe_Element ob name a c :
  observe ob (Element name a c) = ob name a (rawText c) ++ observeAll ob c.
Proof. reflexivity. Qed.

Lemma observeAll_texts ob c : forallb isText c = true → observeAll ob c = [].
Proof.
  induction c as [|[d|d|name a c'] c IH]; [done|..]; cbn [forallb isText andb];
    [|done|done].
  intros H. rewrite observeAll_cons. by rewrite IH.
Qed.

Lemma isRawTextTag_not_void name : isRawTextTag name = true → isVoidTag name = false.
Proof.
  unfold isRawTextTag, isVoidTag.
  intros [->%String.eqb_eq| ->%String.eqb_eq]%orb_true_iff; reflexivity.
Qed.

Lemma shapeOk_texts name s : isRawTextTag name = true → shapeOk name (textNodes s) = true.
Proof.
  intros H. unfold shapeOk. rewrite H, (isRawTextTag_not_void _ H). by destruct s.
Qed.

Lemma parsed_textNodes s : parsed (textNodes s) = true.
Proof. by destruct s. Qed.

Lemma shapeOk_raw name c :
  isRawTextTag name = true → shapeOk name c = true → forallb isText c = true.
Proof. intros H. unfold shapeOk. rewrite H. by intros [_ ?]%andb_true_iff. Qed.

Lemma shapeOk_void name c : isVoidTag name = true → shapeOk name c = true → c = [].
Proof.
  intros H. unfold shapeOk. rewrite H. destruct c; [done|]. by intros [? _]%andb_true_iff.
Qed.

Lemma shapeOk_plain name c :
  isVoidTag name = false → isRawTextTag name = false → shapeOk name c = true.
Proof. intros H1 H2. unfold shapeOk. by rewrite H1, H2. Qed.

(** The shape of an element only depends on whether it has children
    and on which of them are text nodes. *)
Lemma shapeOk_fmap (f : node → node) name c :
  (∀ m, isText (f m) = isText m) → shapeOk name (f <$> c) = shapeOk name c.
Proof.
  intros Hf. unfold shapeOk. f_equal.
  - by destruct c.
  - destruct (isRawTextTag name); [|done].
    induction c as [|m c IH]; [done|]. rewrite fmap_cons. cbn [forallb].
    by rewrite Hf, IH.
Qed.

Lemma isText_mapAttribs f m : isText (mapAttribs f m) = isText m.
Proof. by destruct m. Qed.

Lemma isText_mapChildren g m : isText (mapChildren g m) = isText m.
Proof. by destruct m. Qed.

Lemma wellFormed_mapAttribs f n : wellFormed (mapAttribs f n) = wellFormed n.
Proof.
  induction n as [| |name a c IH] using node_induction; [done|done|].
  cbn [mapAttribs]. rewrite !wellFormed_Element.
  rewrite shapeOk_fmap by apply isText_mapAttribs. f_equal.
  induction IH as [|m c Hm _ IHc]; [done|].
  rewrite fmap_cons, !parsed_cons. by rewrite Hm, IHc.
Qed.

Lemma parsed_mapAttribs f doc : parsed (mapAttribs f <$> doc) = parsed doc.
Proof.
  induction doc as [|n doc IH]; [done|].
  rewrite fmap_cons, !parsed_cons. by rewrite wellFormed_mapAttribs, IH.
Qed.

Lemma keeps_compose ob pass1 pass2 :
  keeps ob pass1 → keeps ob pass2 → keeps ob (pass2 ∘ pass1).
Proof.
  intros H1 H2 doc Hp. destruct (H1 doc Hp) as [Hp1 E1].
  destruct (H2 _ Hp1) as [Hp2 E2]. split; [done|].
  unfold compose. by rewrite E2.
Qed.

Lemma keeps_mapAttribs ob f :
  stable ob →
  (∀ name a, f name a !! "data-proxy-injected" = a !! "data-proxy-injected") →
  keeps ob (fmap (mapAttribs f)).
Proof.
  intros Hst Hf doc Hp. split; [by rewrite parsed_mapAttribs|].
  rewrite (observe_mapAttribs ob f id), list_fmap_id; [done|].
  intros name a t. rewrite list_fmap_id. by apply (st_attribs ob Hst).
Qed.

(** A pass over the children, on a parsed document: what it adds under
    one element, it adds under each. *)
Lemma length_observe_mapChildren (ob : observation) g (p : selector) (k : nat) :
  (∀ name a c, shapeOk name c = true →
     length (observeAll ob (g name a c))
     = length (observeAll ob c) + (if p name a then k else 0)) →
  (∀ name a c, shapeOk name c = true → parsed c = true →
     shapeOk name (g name a c) = true ∧ parsed (g name a c) = true) →
  (∀ name a c, ob name a (rawText (g name a c)) = ob name a (rawText c)) →
  ∀ doc, parsed doc = true →
    parsed (mapChildren g <$> doc) = true
    ∧ length (observeAll ob (mapChildren g <$> doc))
      = length (observeAll ob doc) + count p doc * k.
Proof.
  intros Hlen Hwf Hown.
  assert (∀ n, wellFormed n = true →
            wellFormed (mapChildren g n) = true
            ∧ length (observe ob (mapChildren g n))
              = length (observe ob n) + length (observe (marks p) n) * k) as Hn.
  { induction n as [| |name a c IH] using node_induction; [done|done|].
    rewrite wellFormed_Element. intros [Hshape Hc]%andb_true_iff.
    assert (parsed (mapChildren g <$> c) = true
            ∧ length (observeAll ob (mapChildren g <$> c))
              = length (observeAll ob c) + count p c * k) as [Hc' Hl'].
    { clear Hshape. unfold count.
      induction IH as [|m c Hm _ IHc]; [done|].
      rewrite parsed_cons in Hc. apply andb_true_iff in Hc as [Hm' Hc].
      destruct (Hm Hm') as [Hw El]. destruct (IHc Hc) as [Hp El'].
      rewrite fmap_cons, parsed_cons, !observeAll_cons, !length_app, Hw, Hp, El, El'.
      split; [done|lia]. }
    assert (shapeOk name (mapChildren g <$> c) = true) as Hshape'.
    { by rewrite shapeOk_fmap by apply isText_mapChildren. }
    destruct (Hwf name a _ Hshape' Hc') as [Hs Hp].
    cbn [mapChildren]. rewrite wellFormed_Element, Hs, Hp. split; [done|].
    rewrite !observe_Element, !length_app, Hown, rawText_mapChildren.
    rewrite (Hlen name a _ Hshape'), Hl'. unfold marks at 1, count.
    destruct (p name a); cbn [length]; lia. }
  intros doc. unfold count. induction doc as [|n doc IH]; [done|].
  rewrite parsed_cons. intros [Hw Hp]%andb_true_iff.
  destruct (Hn n Hw) as [Hw' El]. destruct (IH Hp) as [Hp' El'].
  rewrite fmap_cons, parsed_cons, !observeAll_cons, !length_app, Hw', Hp', El, El'.
  split; [done|lia].
Qed.

Lemma shapeOk_removeAll p name c :
  shapeOk name c = true → shapeOk name (removeAll p c) = true.
Proof.
  unfold shapeOk. intros [Hv Hr]%andb_true_iff. apply andb_true_iff. split.
  - destruct (isVoidTag name); [|done]. by destruct c.
  - destruct (isRawTextTag name); [|done].
    clear Hv. induction c as [|[d|d|nm a c'] c IH]; [done| |done|done].
    cbn [forallb isText andb] in Hr. unfold removeAll in *.
    cbn [omap list_omap matches forallb isText andb]. by apply IH.
Qed.

Lemma keeps_removeAll ob p :
  stable ob → (∀ name a, p name a = true → isVoidTag name = true) →
  keeps ob (removeAll p).
Proof.
  intros Hst Hp.
  assert (∀ n, wellFormed n = true →
            wellFormed (remove p n) = true ∧ observe ob (remove p n) = observe ob n) as Hn.
  { induction n as [| |name a c IH] using node_induction; [done|done|].
    rewrite wellFormed_Element. intros [Hshape Hc]%andb_true_iff.
    cbn [remove]. fold (removeAll p c).
    rewrite wellFormed_Element, !observe_Element, rawText_removeAll.
    rewrite (shapeOk_removeAll p name c Hshape). clear Hshape.
    enough (parsed (removeAll p c) = true
            ∧ observeAll ob (removeAll p c) = observeAll ob c) as [-> ->] by done.
    induction IH as [|m c Hm _ IHc]; [done|].
    rewrite parsed_cons in Hc. apply andb_true_iff in Hc as [Hm' Hc].
    destruct (IHc Hc) as [Hp' E']. destruct (Hm Hm') as [Hw E].
    unfold removeAll in *. cbn [omap list_omap].
    destruct (matches p m) eqn:Em.
    - split; [done|]. rewrite observeAll_cons, E'.
      destruct m as [d|d|nm a' c']; [done|done|]. cbn [matches] in Em.
      apply Hp in Em. rewrite wellFormed_Element in Hm'.
      apply andb_true_iff in Hm' as [Hs _].
      rewrite (shapeOk_void nm c' Em Hs), observe_Element.
      by rewrite (st_void ob Hst nm a' _ Em).
    - rewrite parsed_cons, !observeAll_cons, Hw, E.
      split; [done|]. f_equal. exact E'. }
  intros doc Hdoc.
  enough (parsed (removeAll p doc) = true
          ∧ observeAll ob (removeAll p doc) = observeAll ob doc) as [-> ->] by done.
  induction doc as [|m doc IH]; [done|].
  rewrite parsed_cons in Hdoc. apply andb_true_iff in Hdoc as [Hm' Hdoc].
  destruct (IH Hdoc) as [Hp' E']. destruct (Hn m Hm') as [Hw E].
  unfold removeAll in *. cbn [omap list_omap].
  destruct (matches p m) eqn:Em.
  - split; [done|]. rewrite observeAll_cons, E'.
    destruct m as [d|d|nm a' c']; [done|done|]. cbn [matches] in Em.
    apply Hp in Em. rewrite wellFormed_Element in Hm'.
    apply andb_true_iff in Hm' as [Hs _].
    rewrite (shapeOk_void nm c' Em Hs), observe_Element.
    by rewrite (st_void ob Hst nm a' _ Em).
  - rewrite parsed_cons, !observeAll_cons, Hw, E.
    split; [done|]. f_equal. exact E'.
Qed.

Lemma keeps_mapChildren ob g :
  (∀ name a c, shapeOk name c = true →
     length (observeAll ob (g name a c)) = length (observeAll ob c)) →
  (∀ name a c, shapeOk name c = true → parsed c = true →
     shapeOk name (g name a c) = true ∧ parsed (g name a c) = true) →
  (∀ name a c, ob name a (rawText (g name a c)) = ob name a (rawText c)) →
  keeps ob (fmap (mapChildren g)).
Proof.
  intros Hlen Hwf Hown doc Hdoc.
  destruct (length_observe_mapChildren ob g (fun _ _ => false) 0) with (doc := doc)
    as [Hp El]; try done.
  - intros name a c Hs. rewrite Hlen by done. lia.
  - split; [done|]. rewrite El. lia.
Qed.

Lemma sel_tag_style_raw name a : sel_tag "style" name a = true → isRawTextTag name = true.
Proof. unfold sel_tag. by intros ->%String.eqb_eq. Qed.

Lemma sel_plain_script_raw name a :
  sel_plain_inline_script name a = true → isRawTextTag name = true.
Proof.
  unfold sel_plain_inline_script, sel_tag_not_attr, sel_tag.
  by intros [[->%String.eqb_eq _]%andb_true_iff _]%andb_true_iff.
Qed.

Lemma keeps_stripStyleBody ob origin :
  stable ob → keeps ob (fmap (mapChildren (stripStyleBody origin))).
Proof.
  intros Hst. apply keeps_mapChildren.
  - intros name a c Hs.
    destruct (stripStyleBody_cases origin name a c) as [->|[Hsel ->]]; [done|].
    apply sel_tag_style_raw in Hsel.
    by rewrite observeAll_textNodes, (observeAll_texts ob c (shapeOk_raw _ _ Hsel Hs)).
  - intros name a c Hs Hp.
    destruct (stripStyleBody_cases origin name a c) as [->|[Hsel ->]]; [done|].
    apply sel_tag_style_raw in Hsel.
    by rewrite shapeOk_texts, parsed_textNodes.
  - intros name a c. rewrite rawText_stripStyleBody.
    destruct (sel_tag "style" name a) eqn:E; [|done]. by apply (st_style ob Hst).
Qed.

Lemma keeps_stripInlineScript ob origin :
  stable ob → keeps ob (fmap (mapChildren (stripInlineScript origin))).
Proof.
  intros Hst. apply keeps_mapChildren.
  - intros name a c Hs.
    destruct (stripInlineScript_cases origin name a c) as [->|[Hsel ->]]; [done|].
    apply sel_plain_script_raw in Hsel.
    by rewrite observeAll_textNodes, (observeAll_texts ob c (shapeOk_raw _ _ Hsel Hs)).
  - intros name a c Hs Hp.
    destruct (stripInlineScript_cases origin name a c) as [->|[Hsel ->]]; [done|].
    apply sel_plain_script_raw in Hsel.
    by rewrite shapeOk_texts, parsed_textNodes.
  - intros name a c. rewrite rawText_stripInlineScript.
    destruct (sel_plain_inline_script name a) eqn:E; [|done].
    by apply (st_script ob Hst).
Qed.

Lemma keeps_removeAttr ob p attr :
  stable ob → attr ≠ "data-proxy-injected" → keeps ob (removeAttr p attr).
Proof.
  intros Hst Hne. apply keeps_mapAttribs; [done|]. intros name a.
  destruct (p name a); [|done]. by rewrite lookup_delete_ne.
Qed.

Lemma keeps_stripUrlAttr ob origin attr :
  stable ob → attr ≠ "data-proxy-injected" →
  keeps ob (fmap (mapAttribs (stripUrlAttr origin attr))).
Proof.
  intros Hst Hne. apply keeps_mapAttribs; [done|]. intros name a.
  unfold stripUrlAttr. repeat case_match; try done. by rewrite lookup_insert_ne.
Qed.

Lemma keeps_stripTextAttr ob origin attr :
  stable ob → attr ≠ "data-proxy-injected" →
  keeps ob (fmap (mapAttribs (stripTextAttr origin attr))).
Proof.
  intros Hst Hne. apply keeps_mapAttribs; [done|]. intros name a.
  unfold stripTextAttr. repeat case_match; try done. by rewrite lookup_insert_ne.
Qed.

Lemma sel_meta_void v name a :
  sel_tag_attr_eq "meta" "http-equiv" v name a = true → isVoidTag name = true.
Proof.
  unfold sel_tag_attr_eq, isVoidTag.
  intros [->%String.eqb_eq _]%andb_true_iff. reflexivity.
Qed.

Lemma sel_base_void name a : sel_tag "base" name a = true → isVoidTag name = true.
Proof. unfold sel_tag, isVoidTag. by intros ->%String.eqb_eq. Qed.

Lemma keeps_removeBlockers ob : stable ob → keeps ob removeBlockers.
Proof.
  intros Hst.
  change removeBlockers with
    (removeAttr (sel_tag_attr "link" "crossorigin") "crossorigin"
     ∘ removeAttr (sel_tag_attr "script" "crossorigin") "crossorigin"
     ∘ removeAttr (sel_attr "nonce") "nonce"
     ∘ removeAttr (sel_attr "integrity") "integrity"
     ∘ removeAll (sel_tag_attr_eq "meta" "http-equiv" "X-Frame-Options")
     ∘ removeAll (sel_tag_attr_eq "meta" "http-equiv" "Content-Security-Policy-Report-Only")
     ∘ removeAll (sel_tag_attr_eq "meta" "http-equiv" "Content-Security-Policy")
     ∘ removeAll (sel_tag "base")).
  apply keeps_compose; [by apply keeps_removeAll, sel_base_void|].
  do 3 (apply keeps_compose; [by apply keeps_removeAll, sel_meta_void|]).
  do 3 (apply keeps_compose; [by apply keeps_removeAttr|]).
  by apply keeps_removeAttr.
Qed.

Lemma keeps_stripOrigin ob origin : stable ob → keeps ob (stripOrigin origin).
Proof.
  intros Hst. rewrite stripOrigin_passes.
  do 5 (apply keeps_compose; [by apply keeps_stripUrlAttr|]).
  do 2 (apply keeps_compose; [by apply keeps_stripTextAttr|]).
  apply keeps_compose; [by apply keeps_stripStyleBody|].
  by apply keeps_stripInlineScript.
Qed.

Lemma length_selectAll p doc : length (selectAll p doc) = count p doc.
Proof.
  assert (∀ n, length (select p n) = length (observe (marks p) n)) as Hn.
  { induction n as [| |name a c IH] using node_induction; [done|done|].
    cbn [select]. rewrite observe_Element, !length_app. f_equal.
    - unfold marks. by destruct (p name a).
    - induction IH as [|m c Hm _ IHc]; [done|].
      rewrite observeAll_cons. cbn. rewrite !length_app. by rewrite Hm, IHc. }
  unfold count, selectAll. induction doc as [|n doc IH]; [done|].
  rewrite observeAll_cons. cbn. rewrite !length_app. by rewrite Hn, IH.
Qed.

Lemma exists_sel_count p doc : exists_sel p doc = negb (count p doc =? 0).
Proof.
  unfold exists_sel. rewrite <- length_selectAll. by destruct (selectAll p doc).
Qed.

Lemma container_plain t name a :
  isContainerTag t = true → sel_tag t name a = true →
  isVoidTag name = false ∧ isRawTextTag name = false.
Proof.
  unfold isContainerTag, sel_tag. intros Ht ->%String.eqb_eq.
  apply orb_true_iff in Ht as [[->%String.eqb_eq| ->%String.eqb_eq]%orb_true_iff
                              | ->%String.eqb_eq]; done.
Qed.

(** Inserting [content] into every element named [t]. *)
Lemma grows_insert ob t content (ins : list node → list node → list node) :
  (∀ c, observeAll ob (ins content c) ≡ₚ observeAll ob content ++ observeAll ob c) →
  (∀ c, parsed (ins content c) = parsed content && parsed c) →
  isContainerTag t = true → blindToText ob (sel_tag t) → parsed content = true →
  ∀ doc, parsed doc = true →
    let pass := fmap (mapChildren (fun name a c =>
                                     if sel_tag t name a then ins content c else c)) in
    parsed (pass doc) = true
    ∧ length (observeAll ob (pass doc))
      = length (observeAll ob doc) + count (sel_tag t) doc * length (observeAll ob content).
Proof.
  intros Hobs Hpar Ht Hblind Hcontent doc Hdoc pass. subst pass.
  apply length_observe_mapChildren; [| | |done].
  - intros name a c _. destruct (sel_tag t name a); [|lia].
    rewrite Hobs, length_app. lia.
  - intros name a c Hs Hc. destruct (sel_tag t name a) eqn:E; [|done].
    destruct (container_plain t name a Ht E) as [Hv Hr].
    by rewrite shapeOk_plain, Hpar, Hcontent, Hc.
  - intros name a c. destruct (sel_tag t name a) eqn:E; [|done]. by apply Hblind.
Qed.

Lemma grows_prepend ob t content doc :
  isContainerTag t = true → blindToText ob (sel_tag t) → parsed content = true →
  parsed doc = true →
  parsed (prepend (sel_tag t) content doc) = true
  ∧ length (observeAll ob (prepend (sel_tag t) content doc))
    = length (observeAll ob doc) + count (sel_tag t) doc * length (observeAll ob content).
Proof.
  intros Ht Hb Hc Hd.
  apply (grows_insert ob t content (fun content c => content ++ c)); try done.
  - intros c. by rewrite observeAll_app.
  - intros c. apply parsed_app.
Qed.

Lemma grows_append ob t content doc :
  isContainerTag t = true → blindToText ob (sel_tag t) → parsed content = true →
  parsed doc = true →
  parsed (append (sel_tag t) content doc) = true
  ∧ length (observeAll ob (append (sel_tag t) content doc))
    = length (observeAll ob doc) + count (sel_tag t) doc * length (observeAll ob content).
Proof.
  intros Ht Hb Hc Hd.
  apply (grows_insert ob t content (fun content c => c ++ content)); try done.
  - intros c. rewrite observeAll_app. apply Permutation_app_comm.
  - intros c. rewrite parsed_app. apply andb_comm.
Qed.

Lemma stable_marks_tag t : isVoidTag t = false → stable (marks (sel_tag t)).
Proof.
  intros Ht. split; try by intros ????.
  intros name a s Hv. unfold marks, sel_tag.
  destruct (String.eqb_spec name t) as [->|]; [congruence|done].
Qed.

Lemma stable_injectedCopies text : stable (injectedCopies text).
Proof.
  split.
  - intros name a a' t E. unfold injectedCopies. by rewrite E.
  - intros name a t Hv. unfold injectedCopies, sel_tag.
    destruct (String.eqb_spec name "script") as [->|]; done.
  - intros name a t t' H. unfold injectedCopies.
    by rewrite (sel_tag_exclusive "style" "script" name a).
  - intros name a t t'. unfold sel_plain_inline_script, injectedCopies.
    intros [_ Hi%negb_true_iff]%andb_true_iff.
    destruct (a !! "data-proxy-injected") as [v|] eqn:E.
    + rewrite bool_decide_eq_false_2, andb_false_r; [done|].
      intros [= ->]. done.
    + rewrite bool_decide_eq_false_2, andb_false_r; done.
  - intros name a t t' H. unfold injectedCopies.
    by rewrite (sel_tag_exclusive "head" "script" name a).
  - intros name a t t' H. unfold injectedCopies.
    by rewrite (sel_tag_exclusive "html" "script" name a).
  - intros name a t t' H. unfold injectedCopies.
    by rewrite (sel_tag_exclusive "body" "script" name a).
Qed.

Lemma parsed_buildRuntimePatch origin : parsed (buildRuntimePatch origin) = true.
Proof.
  unfold buildRuntimePatch. rewrite !parsed_cons, wellFormed_Element.
  by rewrite shapeOk_texts, parsed_textNodes.
Qed.

Lemma parsed_injectTag inj : parsed (injectTag inj) = true.
Proof.
  unfold injectTag. rewrite !parsed_cons, wellFormed_Element.
  by rewrite shapeOk_texts, parsed_textNodes.
Qed.

(** One run of the rewriter on a parsed document with one [head] and one
    [body]: the observations of the input, of one runtime patch and of
    one bundle tag. *)
Lemma rewriteDom_step ob origin inj doc :
  stable ob → parsed doc = true →
  count (sel_tag "head") doc = 1 → count (sel_tag "body") doc = 1 →
  let out := rewriteDom origin inj doc in
  parsed out = true
  ∧ count (sel_tag "head") out = 1 ∧ count (sel_tag "body") out = 1
  ∧ length (observeAll ob out)
    = length (observeAll ob doc)
      + length (observeAll ob (buildRuntimePatch origin))
      + length (observeAll ob (injectTag inj)).
Proof.
  intros Hst Hdoc Hhead Hbody out.
  assert (∀ ob', stable ob' → keeps ob' (stripOrigin origin ∘ removeBlockers)) as Hkeep.
  { intros ob' H. apply keeps_compose; [by apply keeps_removeBlockers|].
    by apply keeps_stripOrigin. }
  set (d1 := (stripOrigin origin ∘ removeBlockers) doc).
  assert (∀ ob', stable ob' →
            parsed d1 = true ∧ length (observeAll ob' d1) = length (observeAll ob' doc))
    as H1 by (intros ob' H; by apply Hkeep).
  pose proof (stable_marks_tag "head" eq_refl) as Shead.
  pose proof (stable_marks_tag "body" eq_refl) as Sbody.
  destruct (H1 ob Hst) as [Hp1 E1].
  assert (count (sel_tag "head") d1 = 1) as Hh1
    by (unfold count; by rewrite (proj2 (H1 _ Shead))).
  assert (count (sel_tag "body") d1 = 1) as Hb1
    by (unfold count; by rewrite (proj2 (H1 _ Sbody))).
  set (d2 := injectRuntimePatch origin d1).
  assert (d2 = prepend (sel_tag "head") (buildRuntimePatch origin) d1) as Ed2.
  { subst d2. unfold injectRuntimePatch. by rewrite exists_sel_count, Hh1. }
  assert (∀ ob', stable ob' →
            parsed d2 = true
            ∧ length (observeAll ob' d2)
              = length (observeAll ob' d1)
                + length (observeAll ob' (buildRuntimePatch origin))) as H2.
  { intros ob' H. rewrite Ed2.
    destruct (grows_prepend ob' "head" (buildRuntimePatch origin) d1) as [? E];
      [done|apply (st_head ob' H)|apply parsed_buildRuntimePatch|done|].
    split; [done|]. rewrite E, Hh1. lia. }
  assert (count (sel_tag "head") d2 = 1) as Hh2.
  { unfold count in *.
    by rewrite (proj2 (H2 _ Shead)), Hh1, observeAll_buildRuntimePatch. }
  assert (count (sel_tag "body") d2 = 1) as Hb2.
  { unfold count in *.
    by rewrite (proj2 (H2 _ Sbody)), Hb1, observeAll_buildRuntimePatch. }
  assert (out = append (sel_tag "body") (injectTag inj) d2) as Eout.
  { subst out. change (rewriteDom origin inj doc) with (injectHighlight inj d2).
    unfold injectHighlight. by rewrite exists_sel_count, Hb2. }
  assert (∀ ob', stable ob' →
            parsed out = true
            ∧ length (observeAll ob' out)
              = length (observeAll ob' d2) + length (observeAll ob' (injectTag inj))) as H3.
  { intros ob' H. rewrite Eout.
    destruct (grows_append ob' "body" (injectTag inj) d2) as [? E];
      [done|apply (st_body ob' H)|apply parsed_injectTag|apply (H2 ob' H)|].
    split; [done|]. rewrite E, Hb2. lia. }
  split; [apply (H3 ob Hst)|].
  split; [unfold count in *;
          by rewrite (proj2 (H3 _ Shead)), Hh2, observeAll_injectTag|].
  split; [unfold count in *;
          by rewrite (proj2 (H3 _ Sbody)), Hb2, observeAll_injectTag|].
  rewrite (proj2 (H3 ob Hst)), (proj2 (H2 ob Hst)), E1. done.
Qed.

Lemma patch_copies_in_patch origin :
  length (observeAll (injectedCopies (patchScriptText origin)) (buildRuntimePatch origin)) = 1.
Proof.
  unfold buildRuntimePatch. rewrite !observeAll_cons, observe_Element.
  rewrite observeAll_textNodes, rawText_textNodes. unfold injectedCopies.
  by rewrite String.eqb_refl.
Qed.

Lemma copies_in_patch_other origin text :
  text ≠ patchScriptText origin →
  length (observeAll (injectedCopies text) (buildRuntimePatch origin)) = 0.
Proof.
  intros Hne. unfold buildRuntimePatch. rewrite !observeAll_cons, observe_Element.
  rewrite observeAll_textNodes, rawText_textNodes. unfold injectedCopies.
  rewrite (proj2 (String.eqb_neq _ _)) by done. by rewrite andb_false_r.
Qed.

Lemma copies_in_injectTag inj text :
  length (observeAll (injectedCopies text) (injectTag inj))
  = if String.eqb inj text then 1 else 0.
Proof.
  unfold injectTag. rewrite !observeAll_cons, observe_Element.
  rewrite observeAll_textNodes, rawText_textNodes. unfold injectedCopies.
  by destruct (String.eqb inj text).
Qed.

(** C2, as the specification words it, fails: a second run injects both
    scripts again, and it strips a further origin from a value that
    started with the origin twice. *)
Lemma second_run_is_not_a_no_op :
  let once := rewriteDom "https://t.example" "highlight();" mirrorPage in
  let twice := rewriteDom "https://t.example" "highlight();" once in
  patchCount "https://t.example" once = 1
  ∧ patchCount "https://t.example" twice = 2
  ∧ bundleCount "highlight();" once = 1
  ∧ bundleCount "highlight();" twice = 2
  ∧ observeAll (attrValue "href") once = ["https://t.example/x"]
  ∧ observeAll (attrValue "href") twice = ["/x"].
Proof. repeat split; vm_compute; reflexivity. Qed.

(** C2, amended. The rewriter is not idempotent: every run prepends one
    more copy of the runtime patch to [head] and appends one more copy of
    the highlight bundle to [body], without looking for an earlier
    injection. Over a parsed document with one [head] and one [body],
    [n] runs add exactly [n] copies of each (one of each after the single
    run the server performs on a response), and the document stays
    parsed, with one [head] and one [body]. *)
Theorem rewriteDom_injects_on_every_run (origin inj : string) (doc : list node) (n : nat) :
  parsed doc = true →
  count (sel_tag "head") doc = 1 → count (sel_tag "body") doc = 1 →
  inj ≠ patchScriptText origin →
  let out := Nat.iter n (rewriteDom origin inj) doc in
  patchCount origin out = patchCount origin doc + n
  ∧ bundleCount inj out = bundleCount inj doc + n
  ∧ parsed out = true
  ∧ count (sel_tag "head") out = 1 ∧ count (sel_tag "body") out = 1.
Proof.
  intros Hdoc Hhead Hbody Hne. induction n as [|n IH]; cbn zeta.
  { cbn [Nat.iter]. rewrite !Nat.add_0_r. done. }
  destruct IH as (Ep & Eb & Hp & Hh & Hb).
  change (Nat.iter (S n) (rewriteDom origin inj) doc)
    with (rewriteDom origin inj (Nat.iter n (rewriteDom origin inj) doc)).
  set (prev := Nat.iter n (rewriteDom origin inj) doc) in *.
  destruct (rewriteDom_step (injectedCopies (patchScriptText origin)) origin inj prev
              (stable_injectedCopies _) Hp Hh Hb) as (Hp' & Hh' & Hb' & Ep').
  destruct (rewriteDom_step (injectedCopies inj) origin inj prev
              (stable_injectedCopies _) Hp Hh Hb) as (_ & _ & _ & Eb').
  rewrite patch_copies_in_patch, copies_in_injectTag in Ep'.
  rewrite copies_in_patch_other, copies_in_injectTag, String.eqb_refl in Eb' by done.
  rewrite (proj2 (String.eqb_neq _ _)) in Ep' by done.
  unfold patchCount, bundleCount in *. rewrite Ep', Eb', Ep, Eb.
  repeat split; [lia|lia|done..].
Qed.

Lemma rewriteDom_injects_on_every_run_witness :
  let out := Nat.iter 3 (rewriteDom "https://t.example" "highlight();") loginPage in
  patchCount "https://t.example" out = patchCount "https://t.example" loginPage + 3
  ∧ bundleCount "highlight();" out = bundleCount "highlight();" loginPage + 3
  ∧ parsed out = true
  ∧ count (sel_tag "head") out = 1 ∧ count (sel_tag "body") out = 1.
Proof.
  apply (rewriteDom_injects_on_every_run "https://t.example" "highlight();" loginPage 3);
    [reflexivity|reflexivity|reflexivity|].
  intros E. vm_compute in E. discriminate E.
Defined.

(* ================================================================== *)
(** * Part III: further properties of the code                         *)
(* ================================================================== *)

(** ** Origin stripping, quantitatively *)

Lemma length_join_pieces sep pieces :
  pieces ≠ [] →
  String.length (join "" pieces) + (length pieces - 1) * String.length sep
  = String.length (join sep pieces).
Proof.
  induction pieces as [|p ps IH]; [done|]. intros _.
  destruct ps as [|q ps]; [cbn; lia|].
  rewrite join_empty_cons, (join_cons sep p (q :: ps)) by done.
  rewrite !length_append. specialize (IH ltac:(done)).
  cbn [length] in *. lia.
Qed.

Lemma split_single_absent text origin :
  origin ≠ "" → length (split text origin) ≤ 1 → includes text origin = false.
Proof.
  intros Hne Hlen. unfold split in *.
  pose proof (split_from_nonempty origin 0 text) as Hn.
  pose proof (join_split_from origin 0 text Hne) as Hj.
  pose proof (split_from_pieces_free origin 0 text Hne) as Hf.
  destruct (split_from origin 0 text) as [|p [|q ps]]; [done| |cbn in Hlen; lia].
  rewrite slice_0 in Hj. cbn in Hj. subst p. by apply Forall_cons in Hf as [? _].
Qed.

(** X1. For a non-empty origin, [stripOriginInText] shortens the text by
    the length of the origin for each occurrence it removes, and it
    returns the text unchanged exactly when the origin does not occur in
    it. *)
Theorem stripOriginInText_length (text origin : string) :
  origin ≠ "" →
  String.length (stripOriginInText text origin)
  + occurrences text origin * String.length origin
  = String.length text
  ∧ (stripOriginInText text origin = text ↔ includes text origin = false).
Proof.
  intros Hne.
  assert (String.length (stripOriginInText text origin)
          + occurrences text origin * String.length origin
          = String.length text) as Hlen.
  { rewrite stripOriginInText_split by done. unfold occurrences, split.
    rewrite length_join_pieces by apply split_from_nonempty.
    by rewrite join_split_from, slice_0. }
  split; [done|]. split.
  - intros E. rewrite E in Hlen. apply split_single_absent; [done|].
    unfold occurrences in Hlen. destruct origin; [done|].
    cbn [String.length] in Hlen. nia.
  - intros Hinc. rewrite <- stripTextValue_stripOriginInText.
    unfold stripTextValue. by rewrite Hinc, andb_false_r.
Qed.

Lemma stripOriginInText_length_witness :
  String.length (stripOriginInText "a https://t.example/x https://t.example/y"
                   "https://t.example")
  + occurrences "a https://t.example/x https://t.example/y" "https://t.example"
    * String.length "https://t.example"
  = String.length "a https://t.example/x https://t.example/y".
Proof.
  apply (stripOriginInText_length "a https://t.example/x https://t.example/y"
           "https://t.example").
  discriminate.
Defined.

(** ** Percent-encoding *)

(** X2. [encodeURIComponent] loses nothing and writes only safe
    characters: percent-decoding its output gives the input back, and the
    output consists of letters, digits, [-_.!~*'()] and [%] only, so it
    holds none of the separators of a query string. *)
Theorem encodeURIComponent_round_trip (s : string) :
  percentDecode (encodeURIComponent s) = Some s
  ∧ Forall (fun c => uriUnreserved c || Ascii.eqb c "%"%char = true)
      (chars (encodeURIComponent s))
  ∧ Forall (fun c => c ∉ chars "&=?#/+ :") (chars (encodeURIComponent s)).
Proof.
  pose proof (encodeURIComponent_chars s) as Hsafe.
  split; [|split; [exact Hsafe|]].
  - apply percentDecode_encodeURIComponent.
  - eapply Forall_impl; [exact Hsafe|]. intros c Hc Hin. cbn in Hin.
    repeat (apply elem_of_cons in Hin as [->|Hin]; [done|]).
    by apply elem_of_nil in Hin.
Qed.

(** ** [strip] and [proxyOrStrip] under repeated patching *)

Lemma length_slice_le s n : String.length (slice s n) ≤ String.length s.
Proof.
  revert n; induction s as [|c s IH]; intros [|n]; cbn; try lia.
  specialize (IH n). lia.
Qed.

(** X3. [strip] never turns a reference into the empty string and never
    makes it longer; a string that does not start with the origin is
    returned as it is. *)
Theorem strip_keeps_a_reference (ORIGIN u : string) :
  (u ≠ "" → strip ORIGIN u ≠ "")
  ∧ String.length (strip ORIGIN u) ≤ String.length u
  ∧ (startsWith u ORIGIN = false → strip ORIGIN u = u).
Proof.
  unfold strip. destruct u as [|c u]; [by destruct ORIGIN|].
  cbn [truthy negb]. split; [|split].
  - intros _. destruct (startsWith (String c u) ORIGIN); [|done].
    unfold orDefault. by destruct (slice (String c u) (String.length ORIGIN)).
  - destruct (startsWith (String c u) ORIGIN); [|done].
    pose proof (length_slice_le (String c u) (String.length ORIGIN)).
    unfold orDefault. destruct (slice (String c u) (String.length ORIGIN)); cbn in *; lia.
  - by intros ->.
Qed.

Lemma strip_keeps_a_reference_witness :
  strip "https://t.example" "https://t.example" ≠ ""
  ∧ strip "https://t.example" "/already/relative" = "/already/relative".
Proof.
  split.
  - apply (strip_keeps_a_reference "https://t.example" "https://t.example"). discriminate.
  - apply (strip_keeps_a_reference "https://t.example" "/already/relative"). reflexivity.
Defined.

Lemma proxyOrStrip_path_rooted ORIGIN loc u :
  isHttpUrl ORIGIN = true → startsWith u "/" = true → proxyOrStrip ORIGIN loc u = u.
Proof.
  intros HO [r ->]%startsWith_iff. unfold proxyOrStrip.
  change ("/" +:+ r) with (String "/" r).
  assert (startsWith (String "/" r) ORIGIN = false) as ->.
  { unfold isHttpUrl in HO. by destruct ORIGIN as [|[[] [] [] [] [] [] [] []] O]. }
  reflexivity.
Qed.

Lemma callXhrOpen_path_rooted n ORIGIN loc u :
  isHttpUrl ORIGIN = true → startsWith u "/" = true →
  callXhrOpen (patchedTimes n ORIGIN) loc u = u.
Proof.
  intros HO Hu. induction n as [|n IH]; [done|].
  cbn. by rewrite proxyOrStrip_path_rooted.
Qed.

Lemma callFetch_path_rooted n ORIGIN loc u :
  isHttpUrl ORIGIN = true → startsWith u "/" = true →
  callFetch (patchedTimes n ORIGIN) loc (UrlString u) = UrlString u.
Proof.
  intros HO Hu. induction n as [|n IH]; [done|].
  cbn. by rewrite proxyOrStrip_path_rooted.
Qed.

(** X4. However many times the patch has run for an [http(s)] origin
    (at least once), [fetch] and [XMLHttpRequest.open] hand a path-rooted
    URL to the browser untouched, and a third-party [http(s)] URL wrapped
    into [/proxy?url=...] exactly once: a reference that is already
    wrapped is never wrapped again. *)
Theorem patched_requests_wrap_once (n : nat) (ORIGIN loc u : string) :
  isHttpUrl ORIGIN = true →
  let f := patchedTimes (S n) ORIGIN in
  (startsWith u "/" = true →
     callFetch f loc (UrlString u) = UrlString u ∧ callXhrOpen f loc u = u) ∧
  (isHttpUrl u = true → startsWith u ORIGIN = false → startsWith u loc = false →
     callFetch f loc (UrlString u) = UrlString ("/proxy?url=" +:+ encodeURIComponent u)
     ∧ callXhrOpen f loc u = "/proxy?url=" +:+ encodeURIComponent u).
Proof.
  intros HO f. split.
  - intros Hu. split; [by apply callFetch_path_rooted|by apply callXhrOpen_path_rooted].
  - intros Hu HuO Hul.
    assert (proxyOrStrip ORIGIN loc u = "/proxy?url=" +:+ encodeURIComponent u) as E.
    { unfold proxyOrStrip.
      rewrite (isHttpUrl_not_exempt _ Hu), HuO, Hu, Hul. by destruct u. }
    subst f.
    change (patchedTimes (S n) ORIGIN) with (Patched ORIGIN (patchedTimes n ORIGIN)).
    cbn [callFetch callXhrOpen]. rewrite E.
    split; [by apply (callFetch_path_rooted n)|by apply (callXhrOpen_path_rooted n)].
Qed.

Lemma patched_requests_wrap_once_witness :
  callFetch (patchedTimes 2 "https://t.example") "http://localhost:3001"
    (UrlString "https://other.example/y")
  = UrlString ("/proxy?url=" +:+ encodeURIComponent "https://other.example/y")
  ∧ callXhrOpen (patchedTimes 2 "https://t.example") "http://localhost:3001"
      "https://other.example/y"
    = "/proxy?url=" +:+ encodeURIComponent "https://other.example/y".
Proof.
  apply (patched_requests_wrap_once 1 "https://t.example" "http://localhost:3001"
           "https://other.example/y"); reflexivity.
Defined.

(** ** Response headers *)

Lemma res_headers_setPermissiveHeaders res k :
  res_headers (setPermissiveHeaders res) !! k
  = if decide (k = "access-control-allow-origin") then Some "*"
    else if decide (k = "access-control-allow-methods")
         then Some "GET, POST, PUT, DELETE, OPTIONS"
    else if decide (k = "access-control-allow-headers") then Some "*"
    else if decide (k ∈ permissiveNames) then None
    else res_headers res !! k.
Proof.
  unfold setPermissiveHeaders, removeHeader, setHeader; cbn [res_headers].
  change (toLowerCase "X-Content-Type-Options") with "x-content-type-options".
  change (toLowerCase "Content-Security-Policy-Report-Only")
    with "content-security-policy-report-only".
  change (toLowerCase "Content-Security-Policy") with "content-security-policy".
  change (toLowerCase "X-Frame-Options") with "x-frame-options".
  change (toLowerCase "Access-Control-Allow-Headers") with "access-control-allow-headers".
  change (toLowerCase "Access-Control-Allow-Methods") with "access-control-allow-methods".
  change (toLowerCase "Access-Control-Allow-Origin") with "access-control-allow-origin".
  rewrite !lookup_delete, !lookup_insert. unfold permissiveNames.
  repeat case_decide; subst; try done;
    repeat match goal with
           | H : ?k ∉ _ |- _ =>
               exfalso; apply H; clear H; by apply (bool_decide_unpack _)
           | H : ?k ∈ _ |- _ =>
               apply elem_of_cons in H as [->|H]; [congruence|]
           | H : _ ∈ [] |- _ => by apply elem_of_nil in H
           end.
Qed.

Lemma getHeader_setPermissiveHeaders_other name res :
  toLowerCase name ∉ permissiveNames →
  getHeader name (setPermissiveHeaders res) = getHeader name res.
Proof.
  intros Hn. unfold getHeader. rewrite res_headers_setPermissiveHeaders.
  repeat case_decide; try done; exfalso; apply Hn;
    match goal with H : toLowerCase name = _ |- _ => rewrite H end;
    by apply (bool_decide_unpack _).
Qed.

(** X5. [setPermissiveHeaders] can be applied to any response: whatever
    it carried, the three CORS headers end up with their fixed values and
    the four blocking headers are gone, under any spelling of their names;
    every other header, the status and the payload stay; a second
    application changes nothing. *)
Theorem setPermissiveHeaders_overrides_and_is_idempotent (res : Response) (name : string) :
  permissive (setPermissiveHeaders res)
  ∧ (toLowerCase name ∈ ["x-frame-options"; "content-security-policy";
                          "content-security-policy-report-only";
                          "x-content-type-options"] →
     getHeader name (setPermissiveHeaders res) = None)
  ∧ (toLowerCase name ∉ permissiveNames →
     getHeader name (setPermissiveHeaders res) = getHeader name res)
  ∧ res_status (setPermissiveHeaders res) = res_status res
  ∧ res_payload (setPermissiveHeaders res) = res_payload res
  ∧ setPermissiveHeaders (setPermissiveHeaders res) = setPermissiveHeaders res.
Proof.
  split; [apply setPermissiveHeaders_permissive|].
  split; [|split; [apply getHeader_setPermissiveHeaders_other|]].
  - intros Hin. unfold getHeader. rewrite res_headers_setPermissiveHeaders.
    repeat (apply elem_of_cons in Hin as [->|Hin]; [reflexivity|]).
    by apply elem_of_nil in Hin.
  - split; [done|]. split; [done|].
    assert (res_headers (setPermissiveHeaders (setPermissiveHeaders res))
            = res_headers (setPermissiveHeaders res)) as E.
    { apply map_eq. intros k. rewrite !res_headers_setPermissiveHeaders.
      by repeat case_decide. }
    destruct (setPermissiveHeaders res) as [st h pl] eqn:Er.
    assert (setPermissiveHeaders (mkResponse st h pl)
            = mkResponse st (res_headers (setPermissiveHeaders (mkResponse st h pl))) pl)
      as -> by reflexivity.
    by rewrite E.
Qed.

Lemma setPermissiveHeaders_overrides_and_is_idempotent_witness :
  getHeader "X-FRAME-OPTIONS"
    (setPermissiveHeaders (setHeader "x-frame-options" "DENY" freshResponse)) = None
  ∧ getHeader "Set-Cookie"
      (setPermissiveHeaders (setHeader "Set-Cookie" "a=1" freshResponse)) = Some "a=1".
Proof.
  split.
  - apply (setPermissiveHeaders_overrides_and_is_idempotent
             (setHeader "x-frame-options" "DENY" freshResponse) "X-FRAME-OPTIONS").
    by apply (bool_decide_unpack _).
  - etrans.
    + apply (setPermissiveHeaders_overrides_and_is_idempotent
               (setHeader "Set-Cookie" "a=1" freshResponse) "Set-Cookie").
      by apply (bool_decide_unpack _).
    + reflexivity.
Defined.

Lemma headersWithin_setHeader names name value res :
  toLowerCase name ∈ names → headersWithin names res →
  headersWithin names (setHeader name value res).
Proof.
  intros Hn Hres k v. unfold setHeader; cbn [res_headers].
  rewrite lookup_insert. case_decide; [by subst|apply Hres].
Qed.

Lemma headersWithin_forwardHeader names name o res :
  toLowerCase name ∈ names → headersWithin names res →
  headersWithin names (forwardHeader name o res).
Proof.
  intros Hn Hres. unfold forwardHeader. destruct o as [s|]; [|done].
  destruct (truthy s); [|done]. by apply headersWithin_setHeader.
Qed.

Lemma headersWithin_prepared response :
  headersWithin sentNames (preparedResponse response freshResponse).
Proof.
  unfold preparedResponse.
  do 2 (apply headersWithin_forwardHeader; [by apply (bool_decide_unpack _)|]).
  intros k v. rewrite res_headers_setPermissiveHeaders.
  repeat case_decide; subst; try done; try (intros _; by apply (bool_decide_unpack _)).
  unfold freshResponse; cbn [res_headers]. intros [<- _]%lookup_singleton_Some.
  by apply (bool_decide_unpack _).
Qed.

Lemma prepared_forwarded response :
  getHeader "Cache-Control" (preparedResponse response freshResponse)
  = (if truthy_opt (headers_get "cache-control" response)
     then headers_get "cache-control" response else None)
  ∧ getHeader "ETag" (preparedResponse response freshResponse)
    = (if truthy_opt (headers_get "etag" response)
       then headers_get "etag" response else None)
  ∧ getHeader "X-Powered-By" (preparedResponse response freshResponse) = Some "Express".
Proof.
  unfold preparedResponse. split; [|split].
  - rewrite getHeader_forwardHeader_ne by (vm_compute; discriminate).
    by apply getHeader_forwardHeader.
  - apply getHeader_forwardHeader.
    by rewrite getHeader_forwardHeader_ne by (vm_compute; discriminate).
  - by rewrite !getHeader_forwardHeader_ne by (vm_compute; discriminate).
Qed.

(** What [res.send] does to the headers of a body sent with status 200:
    it writes [Content-Type], [Content-Length] and [ETag] and nothing
    else, and keeps an [ETag] that is there. *)
Lemma respond_headers E req r w chunk :
  res_payload r = Body chunk ∨ res_payload r = Bytes chunk →
  res_status r = 200 →
  respond E req r = Some w →
  (∀ k, k ≠ "content-type" → k ≠ "content-length" → k ≠ "etag" →
        k ≠ "transfer-encoding" → wire_headers w !! k = res_headers r !! k)
  ∧ (∀ k v, wire_headers w !! k = Some v →
            k ∈ ["content-type"; "content-length"; "etag"] ∨ is_Some (res_headers r !! k))
  ∧ wire_headers w !! "etag"
    = (if truthy_opt (res_headers r !! "etag") then res_headers r !! "etag"
       else if truthy (etagOf E chunk) then Some (etagOf E chunk)
       else res_headers r !! "etag")
  ∧ (wire_status w = 200 ∨ wire_status w = 304).
Proof.
  intros Hp Hs. unfold respond, handedOver. rewrite Hs.
  set (h := res_headers r).
  destruct Hp as [-> | ->]; cbv zeta.
  all: match goal with
       | |- context [if truthy_opt ?c then ?h1 else ?h'] =>
           set (h0 := if truthy_opt c then h1 else h')
       end.
  all: assert (∀ k, k ≠ "content-type" → h0 !! k = h !! k) as H0
         by (intros k Hk; subst h0; case_match; [done|by rewrite lookup_insert_ne]).
  1: match goal with
     | |- context [match ?o with Some _ => _ | None => None end] =>
         destruct o as [h1|] eqn:E1; [|done]
     end.
  1: assert (∀ k, k ≠ "content-type" → h1 !! k = h !! k) as H1.
  1: { intros k Hk. destruct (h0 !! "content-type" ≫= setCharset E);
         [|done]. injection E1 as <-. rewrite lookup_insert_ne by done. by apply H0. }
  2: clearbody h0; rename h0 into h1, H0 into H1.
  all: intros [= <-]; cbn [wire_headers wire_status].
  all: assert (h1 !! "etag" = h !! "etag") as He by (by apply H1).
  all: rewrite He.
  all: split; [|split; [|split]].
  all: try (destruct (isFresh E req 200 _); [by right|by left]).
  all: try (intros k Hct Hcl Het Hte;
            repeat case_match;
            rewrite ?lookup_delete_ne, ?lookup_insert_ne by done; by apply H1).
  all: try (intros k v;
            destruct (decide (k = "content-type")) as [->|Hct];
              [intros _; left; by apply (bool_decide_unpack _)|];
            destruct (decide (k = "content-length")) as [->|Hcl];
              [intros _; left; by apply (bool_decide_unpack _)|];
            destruct (decide (k = "etag")) as [->|Het];
              [intros _; left; by apply (bool_decide_unpack _)|];
            intros Hk; right;
            repeat case_match;
            repeat (apply lookup_delete_Some in Hk as [_ Hk]);
            rewrite ?lookup_insert_ne in Hk by done;
            rewrite H1 in Hk by done; by rewrite Hk).
  all: destruct (truthy_opt (h !! "etag")); cbn [negb andb];
       [|destruct (truthy (etagOf E chunk))];
       match goal with |- (if ?b then _ else _) !! _ = _ => destruct b end;
       rewrite ?lookup_delete_ne by done;
       rewrite ?lookup_insert_eq, ?lookup_insert_ne by done;
       first [done | by apply H1].
Qed.



(** ** The handlers: state, upstream requests, failures *)

Lemma run_Fetch {A} net url opts (k : FetchResult → Proc A) :
  run net (Fetch url opts k)
  = ((run net (k (net url opts))).1, (url, opts) :: (run net (k (net url opts))).2).
Proof. cbn [run]. by destruct (run net _). Qed.

Lemma run_Done {A} net (a : A) : run net (Done a) = (a, []).
Proof. reflexivity. Qed.

(** X7. The tracked origin has one writer: the catch-all never changes
    it, and [/proxy] changes it only when the upstream answer is HTML,
    to the origin of the final URL; any other outcome (a missing or
    invalid [url], a failed fetch, a non-HTML answer) leaves it as it was.
    Neither handler ever asks upstream more than once: there is no
    retry. *)
Theorem tracked_origin_has_one_writer (P : Platform) (cur : string) (req : Request)
    (net : string → FetchOpts → FetchResult) :
  (run net (catchAll P cur req)).1.1 = cur
  ∧ length (run net (catchAll P cur req)).2 ≤ 1
  ∧ length (run net (proxyHandler P cur req)).2 ≤ 1
  ∧ ((run net (proxyHandler P cur req)).1.1 = cur
     ∨ ∃ targetUrl opts response,
         req_query_url req = Some targetUrl
         ∧ net targetUrl opts = Fetched response
         ∧ isHtml (headers_get "content-type" response) = true
         ∧ URL_origin P (fr_url response) = Some (run net (proxyHandler P cur req)).1.1).
Proof.
  assert ((run net (catchAll P cur req)).1.1 = cur
          ∧ length (run net (catchAll P cur req)).2 ≤ 1) as Hc.
  { unfold catchAll. destruct (truthy cur); cbv zeta; cbn [negb];
      [|rewrite run_Done; cbn [fst snd length]; split; [done|lia]].
    rewrite run_Fetch.
    destruct (net _ _); rewrite run_Done; cbn [fst snd length]; (split; [done|lia]). }
  split; [apply Hc|]. split; [apply Hc|]. clear Hc.
  unfold proxyHandler. cbv zeta.
  destruct (req_query_url req) as [targetUrl|] eqn:Eq;
    [|rewrite run_Done; cbn [fst snd length]; split; [lia|by left]].
  destruct (truthy targetUrl); cbn [negb];
    [|rewrite run_Done; cbn [fst snd length]; split; [lia|by left]].
  destruct (URL_origin P targetUrl) as [targetOrigin|];
    [|rewrite run_Done; cbn [fst snd length]; split; [lia|by left]].
  rewrite run_Fetch.
  destruct (net targetUrl _) as [response|message] eqn:En;
    [|rewrite run_Done; cbn [fst snd length]; split; [lia|by left]].
  destruct (URL_origin P (fr_url response)) as [finalOrigin|] eqn:Eo;
    rewrite run_Done; cbn [fst snd length]; (split; [lia|]); [|by left].
  destruct (isHtml (headers_get "content-type" response)) eqn:Eh; [|by left].
  right. by eexists _, _, _.
Qed.

(** When [processAndSend] rejects: reading the body failed, or the
    answer is HTML and [rewriteHtml] could not parse the final URL. *)
Lemma processAndSend_rejected P cur response finalUrl res flag :
  processAndSend P cur response finalUrl res flag = Rejected
  ↔ fr_body response = None
    ∨ (isHtml (headers_get "content-type" response) = true
       ∧ URL_origin P finalUrl = None).
Proof.
  unfold processAndSend, rewriteHtml. cbv zeta.
  destruct (fr_body response) as [body|]; [|split; [by left|done]].
  destruct (isHtml (headers_get "content-type" response)).
  - destruct (URL_origin P finalUrl); split; try done.
    + by intros [?|[_ ?]].
    + intros _. by right.
  - split; [by repeat case_match|by intros [?|[? _]]].
Qed.

(** [res.send] raises only on a string whose content type
    [setCharset] does not parse. *)
Lemma respond_None E req r t :
  respond E req r = None →
  getHeader "Content-Type" r = Some t → truthy t = true →
  res_payload r ≠ StatusOnly →
  setCharset E t = None ∧ ∀ data, res_payload r ≠ Bytes data.
Proof.
  unfold respond, handedOver.
  change (getHeader "Content-Type" r) with (res_headers r !! "content-type").
  intros H Ht Htt Hp. destruct (res_payload r) as [text|data|fields|]; [| |..|done].
  - rewrite Ht in H. cbn [truthy_opt] in H. rewrite Htt, Ht in H.
    cbn [mbind option_bind] in H. by destruct (setCharset E t).
  - done.
  - rewrite Ht in H. cbn [truthy_opt] in H. rewrite Htt, Ht in H.
    cbn [mbind option_bind] in H. by destruct (setCharset E t).
Qed.

(** What [processAndSend] sends is a Buffer, or a string under a
    content type. *)
Lemma processAndSend_typed P cur response finalUrl flag r :
  processAndSend P cur response finalUrl freshResponse flag = Sent r →
  (∃ data, res_payload r = Bytes data)
  ∨ ∃ text t, res_payload r = Body text
              ∧ getHeader "Content-Type" r = Some t ∧ truthy t = true.
Proof.
  rewrite processAndSend_unfold. cbv zeta.
  destruct (fr_body response) as [body|]; [|done].
  destruct (isHtml _).
  { destruct (rewriteHtml P body finalUrl); [|done]. intros [= <-]. right.
    eexists _, _. split; [done|]. by rewrite getHeader_send, getHeader_setHeader. }
  destruct (isRewrittenText _) eqn:Et.
  - destruct (isRewrittenText_truthy _ Et) as (c & Hc & Htc). rewrite Hc.
    intros [= <-]. right. eexists _, _. split; [done|].
    by rewrite getHeader_send, getHeader_setHeader.
  - intros [= <-]. left. by eexists.
Qed.



(** X9. What the catch-all sends upstream: the request's own method;
    the synthesized browser headers with [Accept] replaced by the
    incoming one (or [*/*]); for [GET] and [HEAD] never a body, whatever
    arrived; for any other method the concatenated chunks as body, with
    the incoming content type when there is one, and no body at all when
    no chunk arrived. *)
Theorem catchAll_forwards_method_and_body (P : Platform) (cur : string) (req : Request)
    (net : string → FetchOpts → FetchResult) :
  cur ≠ "" →
  ∃ opts,
    (run net (catchAll P cur req)).2 = [(cur +:+ req_originalUrl req, opts)]
    ∧ fo_method opts = req_method req
    ∧ fo_redirect opts = "follow"
    ∧ (isBodyless (req_method req) = true ∨ req_chunks req = [] →
       fo_body opts = None ∧ fo_headers opts = forwardedHeaders cur req)
    ∧ (isBodyless (req_method req) = false → req_chunks req ≠ [] →
       fo_body opts = Some (concatChunks (req_chunks req))
       ∧ fo_headers opts
         = if truthy_opt (req_content_type req)
           then <["Content-Type" := default "" (req_content_type req)]>
                  (forwardedHeaders cur req)
           else forwardedHeaders cur req).
Proof.
  intros Hne. unfold catchAll. rewrite (proj2 (truthy_true _) Hne).
  cbv zeta. cbn [negb]. fold (forwardedHeaders cur req).
  match goal with
  | |- context [Fetch _ ?o _] => exists o
  end.
  rewrite run_Fetch. split; [by destruct (net _ _)|].
  unfold isBodyless.
  destruct (String.eqb (req_method req) "GET"), (String.eqb (req_method req) "HEAD"),
    (req_chunks req) as [|chunk chunks]; cbn;
    repeat split; try done; try (by intros [?|?]);
    by match goal with H : _ ∨ _ |- _ => destruct H end.
Qed.

Lemma catchAll_forwards_method_and_body_witness :
  ∃ opts,
    (run (fun url _ => Fetched (upstream url "application/json" "{}"))
       (catchAll examplePlatform "https://t.example"
          (mkRequest "POST" "/api/items" None (Some "application/json")
             (Some "application/json") ["{"; "}"]))).2
    = [("https://t.example/api/items", opts)]
    ∧ fo_method opts = "POST"
    ∧ fo_body opts = Some "{}".
Proof.
  destruct (catchAll_forwards_method_and_body examplePlatform "https://t.example"
              (mkRequest "POST" "/api/items" None (Some "application/json")
                 (Some "application/json") ["{"; "}"])
              (fun url _ => Fetched (upstream url "application/json" "{}")))
    as (opts & Hlog & Hm & _ & _ & Hb); [discriminate|].
  exists opts. split; [exact Hlog|]. split; [exact Hm|].
  by destruct Hb as [Hb _].
Defined.

(** ** What the rewriter removes *)

Lemma absent_cons p n doc :
  absent p (n :: doc) ↔ observe (marks p) n = [] ∧ absent p doc.
Proof. unfold absent. rewrite observeAll_cons. apply app_nil. Qed.

Lemma absent_app p l1 l2 : absent p (l1 ++ l2) ↔ absent p l1 ∧ absent p l2.
Proof. unfold absent. rewrite observeAll_app. apply app_nil. Qed.

Lemma absent_Element p name a c :
  observe (marks p) (Element name a c) = [] ↔ p name a = false ∧ absent p c.
Proof.
  rewrite observe_Element. unfold marks, absent. rewrite app_nil.
  by destruct (p name a); intuition.
Qed.

Lemma absent_count p doc : absent p doc ↔ count p doc = 0.
Proof. unfold absent, count. by destruct (observeAll (marks p) doc). Qed.

Lemma absent_sublist p doc doc' :
  sublist (observeAll (marks p) doc') (observeAll (marks p) doc) →
  absent p doc → absent p doc'.
Proof. unfold absent. intros Hs E. rewrite E in Hs. by apply sublist_nil_r in Hs. Qed.

Lemma absent_removeAll_keep p q doc : absent p doc → absent p (removeAll q doc).
Proof. apply absent_sublist, observe_removeAll. Qed.

Lemma absent_removeAll_kill p doc : absent p (removeAll p doc).
Proof.
  assert (∀ n, matches p n = false → observe (marks p) (remove p n) = []) as Hn.
  { induction n as [| |name a c IH] using node_induction; [done|done|].
    cbn [matches remove]. intros Hp. fold (removeAll p c).
    apply absent_Element. split; [done|].
    induction IH as [|m c Hm _ IHc]; [done|].
    unfold removeAll. cbn [omap list_omap].
    destruct (matches p m) eqn:Em; [exact IHc|].
    apply absent_cons. split; [by apply Hm|exact IHc]. }
  induction doc as [|m doc IH]; [done|].
  unfold removeAll. cbn [omap list_omap].
  destruct (matches p m) eqn:Em; [exact IH|].
  apply absent_cons. split; [by apply Hn|exact IH].
Qed.

Lemma absent_mapAttribs_kill p f doc :
  (∀ name a, p name (f name a) = false) → absent p (mapAttribs f <$> doc).
Proof.
  intros Hf.
  assert (∀ n, observe (marks p) (mapAttribs f n) = []) as Hn.
  { induction n as [| |name a c IH] using node_induction; [done|done|].
    cbn [mapAttribs]. apply absent_Element. split; [apply Hf|].
    induction IH as [|m c Hm _ IHc]; [done|].
    rewrite fmap_cons. by apply absent_cons. }
  induction doc as [|m doc IH]; [done|]. rewrite fmap_cons. by apply absent_cons.
Qed.

Lemma absent_mapAttribs_keep p f doc :
  (∀ name a, p name a = false → p name (f name a) = false) →
  absent p doc → absent p (mapAttribs f <$> doc).
Proof.
  intros Hf.
  assert (∀ n, observe (marks p) n = [] → observe (marks p) (mapAttribs f n) = []) as Hn.
  { induction n as [| |name a c IH] using node_induction; [done|done|].
    cbn [mapAttribs]. rewrite !absent_Element. intros [Hp Hc]. split; [by apply Hf|].
    induction IH as [|m c Hm _ IHc]; [done|].
    apply absent_cons in Hc as [? ?]. rewrite fmap_cons. apply absent_cons. auto. }
  induction doc as [|m doc IH]; [done|].
  intros [? ?]%absent_cons. rewrite fmap_cons. apply absent_cons. auto.
Qed.

Lemma absent_mapChildren p g doc :
  (∀ name a c, absent p c → absent p (g name a c)) →
  absent p doc → absent p (mapChildren g <$> doc).
Proof.
  intros Hg.
  assert (∀ n, observe (marks p) n = [] → observe (marks p) (mapChildren g n) = []) as Hn.
  { induction n as [| |name a c IH] using node_induction; [done|done|].
    cbn [mapChildren]. rewrite !absent_Element. intros [Hp Hc]. split; [done|].
    apply Hg. clear Hp.
    induction IH as [|m c Hm _ IHc]; [done|].
    apply absent_cons in Hc as [? ?]. rewrite fmap_cons. apply absent_cons. auto. }
  induction doc as [|m doc IH]; [done|].
  intros [? ?]%absent_cons. rewrite fmap_cons. apply absent_cons. auto.
Qed.

Lemma absent_textNodes p s : absent p (textNodes s).
Proof. apply observeAll_textNodes. Qed.

Lemma absent_stripStyleBody p origin doc :
  absent p doc → absent p (mapChildren (stripStyleBody origin) <$> doc).
Proof.
  apply absent_mapChildren. intros name a c Hc.
  destruct (stripStyleBody_cases origin name a c) as [->|[_ ->]];
    [done|apply absent_textNodes].
Qed.

Lemma absent_stripInlineScript p origin doc :
  absent p doc → absent p (mapChildren (stripInlineScript origin) <$> doc).
Proof.
  apply absent_mapChildren. intros name a c Hc.
  destruct (stripInlineScript_cases origin name a c) as [->|[_ ->]];
    [done|apply absent_textNodes].
Qed.

Lemma absent_injectRuntimePatch p origin doc :
  p "script" injectedAttribs = false → p "head" ∅ = false →
  absent p doc → absent p (injectRuntimePatch origin doc).
Proof.
  intros Hs Hh Hdoc.
  assert (absent p (buildRuntimePatch origin)) as Hpatch.
  { apply observeAll_buildRuntimePatch. intros t. unfold marks. by rewrite Hs. }
  unfold injectRuntimePatch.
  destruct (exists_sel (sel_tag "head") doc).
  { apply absent_mapChildren; [|done]. intros name a c Hc.
    destruct (sel_tag "head" name a); [|done]. by apply absent_app. }
  destruct (exists_sel (sel_tag "html") doc); [|done].
  apply absent_mapChildren; [|done]. intros name a c Hc.
  destruct (sel_tag "html" name a); [|done].
  apply absent_app. split; [|done].
  apply absent_cons. split; [|done]. by apply absent_Element.
Qed.

Lemma absent_injectHighlight p inj doc :
  p "script" injectedAttribs = false →
  absent p doc → absent p (injectHighlight inj doc).
Proof.
  intros Hs Hdoc.
  assert (absent p (injectTag inj)) as Htag.
  { apply observeAll_injectTag. intros t. unfold marks. by rewrite Hs. }
  unfold injectHighlight.
  destruct (exists_sel (sel_tag "body") doc);
    (apply absent_mapChildren; [|done]; intros name a c Hc;
     destruct (sel_tag _ name a); [|done]; by apply absent_app).
Qed.

Ltac sel_side :=
  intros;
  unfold stripUrlAttr, stripTextAttr, sel_tag_attr_eq, sel_tag_attr, sel_attr, sel_tag in *;
  repeat case_match; simplify_map_eq; try done;
  repeat match goal with
         | H : String.eqb _ _ = true |- _ => apply String.eqb_eq in H; subst
         | H : _ && _ = true |- _ => apply andb_true_iff in H as [? ?]
         end;
  simplify_map_eq; try done.

Ltac absent_step :=
  first
    [ apply absent_removeAll_kill
    | apply absent_mapAttribs_kill; solve [sel_side]
    | apply absent_injectHighlight; [reflexivity|]
    | apply absent_injectRuntimePatch; [reflexivity|reflexivity|]
    | apply absent_stripInlineScript
    | apply absent_stripStyleBody
    | apply absent_mapAttribs_keep; [solve [sel_side]|]
    | apply absent_removeAll_keep ].

Ltac absent_rewriteDom :=
  apply absent_count;
  unfold rewriteDom, stripOrigin, removeBlockers, removeAttr; cbv zeta;
  cbn [foldl urlAttrs];
  repeat absent_step.

Lemma observe_marks_ext (p q : selector) (n : node) :
  (∀ name attribs, p name attribs = q name attribs) →
  observe (marks p) n = observe (marks q) n.
Proof.
  intros H. induction n as [data|data|name attribs children IH] using node_induction;
    try done.
  cbn [observe]. unfold marks at 1 3. rewrite H. f_equal.
  induction IH as [|c children Hc _ IHc]; [done|].
  cbn. by rewrite Hc, IHc.
Qed.

Lemma count_ext (p q : selector) (doc : list node) :
  (∀ name attribs, p name attribs = q name attribs) →
  count p doc = count q doc.
Proof.
  intros H. unfold count, observeAll. f_equal.
  induction doc as [|n doc IH]; [done|].
  cbn. by rewrite (observe_marks_ext p q n H), IH.
Qed.

Lemma http_equiv_caseInsensitive :
  bool_decide ("http-equiv" ∈ caseInsensitiveAttributes) = true.
Proof. vm_compute. reflexivity. Qed.

Lemma sel_http_equiv_spelling (v w : string) (name : string)
    (attribs : gmap string string) :
  toLowerCase v = toLowerCase w →
  sel_tag_attr_eq "meta" "http-equiv" v name attribs
  = sel_tag_attr_eq "meta" "http-equiv" w name attribs.
Proof.
  intros E. unfold sel_tag_attr_eq.
  destruct (attribs !! "http-equiv") as [x|]; [|done].
  rewrite http_equiv_caseInsensitive.
  by rewrite E.
Qed.

(** X10. Whatever the document, the rewritten one holds no [base]
    element, no [meta] element whose [http-equiv] names
    [Content-Security-Policy], [Content-Security-Policy-Report-Only] or
    [X-Frame-Options] in any letter case, no [integrity] and no [nonce]
    attribute on any element, and no [crossorigin] attribute on a
    [script] or [link]. *)
Theorem rewriteDom_removes_blockers (origin inj : string) (doc : list node) :
  let out := rewriteDom origin inj doc in
  count (sel_tag "base") out = 0
  ∧ (∀ v, toLowerCase v ∈ ["content-security-policy";
                            "content-security-policy-report-only";
                            "x-frame-options"] →
       count (sel_tag_attr_eq "meta" "http-equiv" v) out = 0
       ∧ count (fun name attribs =>
                  String.eqb name "meta"
                  && bool_decide (toLowerCase <$> attribs !! "http-equiv"
                                  = Some (toLowerCase v))) out = 0)
  ∧ count (sel_attr "integrity") out = 0
  ∧ count (sel_attr "nonce") out = 0
  ∧ count (sel_tag_attr "script" "crossorigin") out = 0
  ∧ count (sel_tag_attr "link" "crossorigin") out = 0.
Proof.
  cbv zeta.
  assert (count (sel_tag_attr_eq "meta" "http-equiv" "Content-Security-Policy")
            (rewriteDom origin inj doc) = 0) as H1 by absent_rewriteDom.
  assert (count (sel_tag_attr_eq "meta" "http-equiv" "Content-Security-Policy-Report-Only")
            (rewriteDom origin inj doc) = 0) as H2 by absent_rewriteDom.
  assert (count (sel_tag_attr_eq "meta" "http-equiv" "X-Frame-Options")
            (rewriteDom origin inj doc) = 0) as H3 by absent_rewriteDom.
  split; [absent_rewriteDom|]. split; [|repeat split; absent_rewriteDom].
  intros v Hv.
  assert (count (sel_tag_attr_eq "meta" "http-equiv" v) (rewriteDom origin inj doc) = 0)
    as Hc.
  { apply elem_of_cons in Hv as [Hv|Hv];
      [rewrite <- H1; apply count_ext; intros; apply sel_http_equiv_spelling;
       by rewrite Hv|].
    apply elem_of_cons in Hv as [Hv|Hv];
      [rewrite <- H2; apply count_ext; intros; apply sel_http_equiv_spelling;
       by rewrite Hv|].
    apply elem_of_cons in Hv as [Hv|Hv];
      [rewrite <- H3; apply count_ext; intros; apply sel_http_equiv_spelling;
       by rewrite Hv|].
    by apply elem_of_nil in Hv. }
  split; [exact Hc|]. rewrite <- Hc. apply count_ext. intros name attribs.
  unfold sel_tag_attr_eq. f_equal.
  rewrite http_equiv_caseInsensitive.
  destruct (attribs !! "http-equiv") as [x|]; cbn; [|done].
  destruct (String.eqb_spec (toLowerCase x) (toLowerCase v)) as [->|Hne].
  - by rewrite bool_decide_eq_true_2.
  - rewrite bool_decide_eq_false_2; [done|]. intros [= E]. done.
Qed.

Lemma rewriteDom_removes_blockers_witness :
  count (sel_tag_attr_eq "meta" "http-equiv" "content-security-policy")
    (rewriteDom "https://t.example" ""
       [Element "html" ∅
          [Element "head" ∅
             [Element "meta" {["http-equiv" := "content-security-policy";
                               "content" := "default-src 'self'"]} []];
           Element "body" ∅ []]])
  = 0.
Proof.
  destruct (rewriteDom_removes_blockers "https://t.example" ""
              [Element "html" ∅
                 [Element "head" ∅
                    [Element "meta" {["http-equiv" := "content-security-policy";
                                      "content" := "default-src 'self'"]} []];
                  Element "body" ∅ []]]) as (_ & H & _).
  apply (H "content-security-policy").
  apply (bool_decide_unpack _). vm_compute. reflexivity.
Defined.

(** ** Where the two scripts are put *)

Lemma selectAll_cons p n doc : selectAll p (n :: doc) = select p n ++ selectAll p doc.
Proof. reflexivity. Qed.

Lemma selectAll_app p l1 l2 : selectAll p (l1 ++ l2) = selectAll p l1 ++ selectAll p l2.
Proof. apply bind_app. Qed.

Lemma select_Element p name a c :
  select p (Element name a c)
  = (if p name a then [Element name a c] else []) ++ selectAll p c.
Proof. reflexivity. Qed.

Lemma selectAll_textNodes p s : selectAll p (textNodes s) = [].
Proof. by destruct s. Qed.

Lemma selectAll_buildRuntimePatch t origin :
  t ≠ "script" → selectAll (sel_tag t) (buildRuntimePatch origin) = [].
Proof.
  intros Hne. unfold buildRuntimePatch.
  rewrite !selectAll_cons, select_Element, selectAll_textNodes.
  unfold sel_tag. by rewrite (proj2 (String.eqb_neq "script" t)).
Qed.

Lemma selectAll_injectTag t inj :
  t ≠ "script" → selectAll (sel_tag t) (injectTag inj) = [].
Proof.
  intros Hne. unfold injectTag.
  rewrite !selectAll_cons, select_Element, selectAll_textNodes.
  unfold sel_tag. by rewrite (proj2 (String.eqb_neq "script" t)).
Qed.

(** After an insertion into the elements named [t], each of them holds
    what was inserted. *)
Lemma selectAll_prepend t content doc :
  selectAll (sel_tag t) content = [] →
  Forall (beginsWith t content) (selectAll (sel_tag t) (prepend (sel_tag t) content doc)).
Proof.
  intros Hc. unfold prepend.
  set (g := fun name a c => if sel_tag t name a then content ++ c else c).
  assert (∀ n, Forall (beginsWith t content) (select (sel_tag t) (mapChildren g n))) as Hn.
  { induction n as [| |name a c IH] using node_induction; [constructor|constructor|].
    cbn [mapChildren]. rewrite select_Element. apply Forall_app. split.
    - unfold g. destruct (sel_tag t name a) eqn:E; [|constructor].
      repeat constructor. apply String.eqb_eq in E as ->. by eexists _, _.
    - assert (Forall (beginsWith t content)
                (selectAll (sel_tag t) (mapChildren g <$> c))) as Hch.
      { induction IH as [|m c Hm _ IHc]; [constructor|].
        rewrite fmap_cons, selectAll_cons. apply Forall_app. by split. }
      unfold g at 1. destruct (sel_tag t name a); [|done].
      by rewrite selectAll_app, Hc. }
  induction doc as [|n doc IH]; [constructor|].
  rewrite fmap_cons, selectAll_cons. apply Forall_app. by split.
Qed.

Lemma selectAll_append t content doc :
  selectAll (sel_tag t) content = [] →
  Forall (endsWith t content) (selectAll (sel_tag t) (append (sel_tag t) content doc)).
Proof.
  intros Hc. unfold append.
  set (g := fun name a c => if sel_tag t name a then c ++ content else c).
  assert (∀ n, Forall (endsWith t content) (select (sel_tag t) (mapChildren g n))) as Hn.
  { induction n as [| |name a c IH] using node_induction; [constructor|constructor|].
    cbn [mapChildren]. rewrite select_Element. apply Forall_app. split.
    - unfold g. destruct (sel_tag t name a) eqn:E; [|constructor].
      repeat constructor. apply String.eqb_eq in E as ->. by eexists _, _.
    - assert (Forall (endsWith t content)
                (selectAll (sel_tag t) (mapChildren g <$> c))) as Hch.
      { induction IH as [|m c Hm _ IHc]; [constructor|].
        rewrite fmap_cons, selectAll_cons. apply Forall_app. by split. }
      unfold g at 1. destruct (sel_tag t name a); [|done].
      by rewrite selectAll_app, Hc, app_nil_r. }
  induction doc as [|n doc IH]; [constructor|].
  rewrite fmap_cons, selectAll_cons. apply Forall_app. by split.
Qed.

Lemma mapChildren_buildRuntimePatch g origin :
  (∀ a c, g "script" a c = c) →
  mapChildren g <$> buildRuntimePatch origin = buildRuntimePatch origin.
Proof.
  intros Hg. unfold buildRuntimePatch. rewrite !fmap_cons. cbn [mapChildren fmap list_fmap].
  rewrite Hg. by destruct (patchScriptText origin).
Qed.

(** Appending to [body] leaves the beginning of [head] as it is. *)
Lemma beginsWith_patch_append origin content doc :
  selectAll (sel_tag "head") content = [] →
  Forall (beginsWith "head" (buildRuntimePatch origin)) (selectAll (sel_tag "head") doc) →
  Forall (beginsWith "head" (buildRuntimePatch origin))
    (selectAll (sel_tag "head") (append (sel_tag "body") content doc)).
Proof.
  intros Hc. unfold append.
  set (g := fun name (a : gmap string string) c =>
              if sel_tag "body" name a then c ++ content else c).
  set (Q := beginsWith "head" (buildRuntimePatch origin)).
  assert (∀ n, Forall Q (select (sel_tag "head") n) →
               Forall Q (select (sel_tag "head") (mapChildren g n))) as Hn.
  { induction n as [| |name a c IH] using node_induction; [done|done|].
    cbn [mapChildren]. rewrite !select_Element. intros [Hown Hch]%Forall_app.
    assert (Forall Q (selectAll (sel_tag "head") (mapChildren g <$> c))) as Hch'.
    { clear Hown. induction IH as [|m c Hm _ IHc]; [constructor|].
      rewrite selectAll_cons in Hch. apply Forall_app in Hch as [? ?].
      rewrite fmap_cons, selectAll_cons. apply Forall_app. auto. }
    apply Forall_app. split.
    - destruct (sel_tag "head" name a) eqn:E; [|constructor].
      apply Forall_cons in Hown as [(a0 & c0 & Eq) _].
      injection Eq as -> -> Ec. clear Hch Hch' IH. subst c.
      repeat constructor. unfold g at 1.
      change (sel_tag "body" "head" a0) with false. cbv iota.
      change (Text nl :: Element "script" injectedAttribs
                           (textNodes (patchScriptText origin)) :: Text nl :: c0)
        with (buildRuntimePatch origin ++ c0).
      rewrite fmap_app, mapChildren_buildRuntimePatch by done. by eexists _, _.
    - unfold g at 1. destruct (sel_tag "body" name a); [|done].
      by rewrite selectAll_app, Hc, app_nil_r. }
  induction doc as [|n doc IH]; [constructor|].
  rewrite selectAll_cons. intros [? ?]%Forall_app.
  rewrite fmap_cons, selectAll_cons. apply Forall_app. auto.
Qed.

(** One run on a parsed document with one [head] and one [body], pass by
    pass. *)
Lemma rewriteDom_parsed origin inj doc :
  parsed doc = true →
  count (sel_tag "head") doc = 1 → count (sel_tag "body") doc = 1 →
  rewriteDom origin inj doc
  = append (sel_tag "body") (injectTag inj)
      (prepend (sel_tag "head") (buildRuntimePatch origin)
         (stripOrigin origin (removeBlockers doc))).
Proof.
  intros Hdoc Hhead Hbody.
  set (d1 := stripOrigin origin (removeBlockers doc)).
  assert (∀ t, isVoidTag t = false → count (sel_tag t) d1 = count (sel_tag t) doc
                                     ∧ parsed d1 = true) as H1.
  { intros t Ht.
    destruct (keeps_compose (marks (sel_tag t)) removeBlockers (stripOrigin origin)
                (keeps_removeBlockers _ (stable_marks_tag t Ht))
                (keeps_stripOrigin _ origin (stable_marks_tag t Ht)) doc Hdoc) as [? E].
    split; [exact E|done]. }
  destruct (H1 "head" eq_refl) as [Hh1 Hp1]. destruct (H1 "body" eq_refl) as [Hb1 _].
  change (rewriteDom origin inj doc)
    with (injectHighlight inj (injectRuntimePatch origin d1)).
  assert (injectRuntimePatch origin d1
          = prepend (sel_tag "head") (buildRuntimePatch origin) d1) as ->.
  { unfold injectRuntimePatch. by rewrite exists_sel_count, Hh1, Hhead. }
  unfold injectHighlight. rewrite exists_sel_count.
  destruct (grows_prepend (marks (sel_tag "body")) "head" (buildRuntimePatch origin) d1)
    as [_ E]; [done|by intros ????|apply parsed_buildRuntimePatch|done|].
  unfold count at 1. rewrite E, observeAll_buildRuntimePatch by done.
  fold (count (sel_tag "body") d1). by rewrite Hb1, Hbody.
Qed.

(** X11. On a parsed document with one [head] and one [body] the
    runtime patch becomes the first thing in [head], ahead of every
    script of the page, and the highlight bundle the last thing in
    [body]. *)
Theorem rewriteDom_puts_patch_first_and_bundle_last (origin inj : string)
    (doc : list node) :
  parsed doc = true →
  count (sel_tag "head") doc = 1 → count (sel_tag "body") doc = 1 →
  let out := rewriteDom origin inj doc in
  Forall (beginsWith "head" (buildRuntimePatch origin)) (selectAll (sel_tag "head") out)
  ∧ Forall (endsWith "body" (injectTag inj)) (selectAll (sel_tag "body") out)
  ∧ length (selectAll (sel_tag "head") out) = 1
  ∧ length (selectAll (sel_tag "body") out) = 1.
Proof.
  intros Hdoc Hhead Hbody out. subst out.
  destruct (rewriteDom_step (marks (sel_tag "head")) origin inj doc
              (stable_marks_tag "head" eq_refl) Hdoc Hhead Hbody) as (_ & Hh & Hb & _).
  rewrite !length_selectAll. split; [|split; [|done]].
  - rewrite rewriteDom_parsed by done.
    apply beginsWith_patch_append; [by apply selectAll_injectTag|].
    apply selectAll_prepend. by apply selectAll_buildRuntimePatch.
  - rewrite rewriteDom_parsed by done.
    apply selectAll_append. by apply selectAll_injectTag.
Qed.

Lemma rewriteDom_puts_patch_first_and_bundle_last_witness :
  Forall (beginsWith "head" (buildRuntimePatch "https://t.example"))
    (selectAll (sel_tag "head") (rewriteDom "https://t.example" "highlight();" loginPage))
  ∧ length (selectAll (sel_tag "head")
              (rewriteDom "https://t.example" "highlight();" loginPage)) = 1.
Proof.
  destruct (rewriteDom_puts_patch_first_and_bundle_last "https://t.example"
              "highlight();" loginPage eq_refl eq_refl eq_refl) as (H1 & _ & H2 & _).
  split; [exact H1|exact H2].
Defined.

(** ** The interpolated origin *)

Lemma jsonEscape_printable c :
  Forall (fun d => Nat.leb 32 (nat_of_ascii d) = true) (chars (jsonEscape c)).
Proof. destruct c as [[] [] [] [] [] [] [] []]; repeat constructor. Qed.

Lemma jsonEscape_plain c : jsonPlain c = true → jsonEscape c = String c "".
Proof. destruct c as [[] [] [] [] [] [] [] []]; done. Qed.

Lemma includes_append_r l s p : includes s p = true → includes (l +:+ s) p = true.
Proof.
  intros (a & b & ->)%includes_iff. apply includes_iff.
  exists (l +:+ a), b. by rewrite !append_assoc.
Qed.

Lemma includes_append_l s r p : includes s p = true → includes (s +:+ r) p = true.
Proof.
  intros (a & b & ->)%includes_iff. apply includes_iff.
  exists a, (b +:+ r). by rewrite !append_assoc.
Qed.

(** X12. [JSON.stringify] of the origin can not break the line it is
    interpolated into: its output holds no control character (no line
    break in particular). An origin made of printable characters other
    than the double quote and the backslash is written out as it is
    between two double quotes, so the text of the runtime patch always
    contains the origin. *)
Theorem JSON_stringify_is_one_line (s : string) :
  Forall (fun c => Nat.leb 32 (nat_of_ascii c) = true) (chars (JSON_stringify s))
  ∧ (forallb jsonPlain (chars s) = true →
     JSON_stringify s = dquote +:+ s +:+ dquote
     ∧ includes (patchScriptText s) s = true).
Proof.
  split.
  - unfold JSON_stringify. rewrite !chars_append.
    apply Forall_app. split; [repeat constructor|].
    apply Forall_app. split; [|repeat constructor].
    induction s as [|c s IH]; [constructor|].
    cbn [jsonEscapeAll]. rewrite chars_append. apply Forall_app.
    split; [apply jsonEscape_printable|exact IH].
  - intros Hp.
    assert (jsonEscapeAll s = s) as E.
    { induction s as [|c s IH]; [done|].
      cbn [chars forallb] in Hp. apply andb_true_iff in Hp as [Hc Hs].
      cbn [jsonEscapeAll]. by rewrite jsonEscape_plain, IH. }
    unfold patchScriptText, JSON_stringify. rewrite E. split; [done|].
    apply includes_append_r, includes_append_l, includes_append_r, includes_append_l.
    apply includes_iff. exists "", "". by rewrite append_nil_r.
Qed.

Lemma JSON_stringify_is_one_line_witness :
  JSON_stringify "https://t.example" = dquote +:+ "https://t.example" +:+ dquote
  ∧ includes (patchScriptText "https://t.example") "https://t.example" = true.
Proof.
  apply (JSON_stringify_is_one_line "https://t.example"). reflexivity.
Defined.

(** ** The click listener *)

Lemma closestAnchor_nearest path anchor :
  closestAnchor path = Some anchor →
  ∃ below above,
    path = below ++ anchor :: above
    ∧ el_tagName anchor = "A"
    ∧ Forall (fun el => el_tagName el ≠ "A") below.
Proof.
  induction path as [|el up IH]; [done|]. cbn [closestAnchor].
  destruct (String.eqb_spec (el_tagName el) "A") as [E|E].
  - intros [= ->]. by exists [], up.
  - intros (below & above & -> & ? & ?)%IH.
    exists (el :: below), above. repeat split; [done|by constructor].
Qed.

Lemma utf16Length_substring0 (s : string) (n : nat) :
  utf16Length (substring0 s n) ≤ n.
Proof.
  revert n. induction s as [|c s IH]; intros n; cbn [substring0 utf16Length]; [lia|].
  destruct (isContinuation c) eqn:Ec.
  { cbn [utf16Length]. rewrite Ec. apply IH. }
  destruct n as [|n]; [done|].
  destruct (isLead4 c) eqn:El.
  - destruct n as [|n]; [vm_compute; lia|].
    cbn [utf16Length]. rewrite Ec, El. specialize (IH n). lia.
  - cbn [utf16Length]. rewrite Ec, El. specialize (IH n). lia.
Qed.

Lemma substring0_whole (s : string) (n : nat) :
  utf16Length s ≤ n → substring0 s n = s.
Proof.
  revert n. induction s as [|c s IH]; intros n; cbn [substring0 utf16Length]; [done|].
  destruct (isContinuation c) eqn:Ec.
  { intros H. f_equal. apply IH. lia. }
  destruct (isLead4 c) eqn:El.
  - destruct n as [|[|n]]; [lia|lia|]. intros H. f_equal. apply IH. lia.
  - destruct n as [|n]; [lia|]. intros H. f_equal. apply IH. lia.
Qed.

(** [substring(0, n)] counts UTF-16 units: two units of a text of
    three two-byte characters are its first four bytes. *)
Example substring0_units :
  substring0 (bytes [195; 169; 195; 168; 195; 160]) 2 = bytes [195; 169; 195; 168]
  ∧ utf16Length (bytes [195; 169; 195; 168; 195; 160]) = 3.
Proof. split; vm_compute; reflexivity. Qed.

(** X13. The click listener either leaves the page exactly as it was and
    lets the click through, or blocks the click and posts exactly one
    [link-navigation] message about the nearest [<a>] at or above the
    target, with the first 200 UTF-16 units of its trimmed text (the
    whole text when it has no more). It lets the click through in
    inspector mode, when there is no [<a>] on the path, when the [href]
    is missing, empty or starts with [#], [javascript:], [mailto:] or
    [tel:], and when the link resolves to the current path and query with
    another fragment. *)
Theorem clickListener_blocks_or_leaves_alone
    (newURL : string → string → option URLRecord) (pg : Page) (path : list Elem) :
  let result := clickListener newURL pg path in
  (result.2 = false → result.1 = pg) ∧
  (result.2 = true →
     ∃ below anchor above href url,
       path = below ++ anchor :: above
       ∧ el_tagName anchor = "A"
       ∧ Forall (fun el => el_tagName el ≠ "A") below
       ∧ el_href anchor = Some href
       ∧ result.1 = notifyParent
                      (LinkNavigation url (substring0 (el_text anchor) 200)
                         (el_selector anchor) None) pg
       ∧ utf16Length (substring0 (el_text anchor) 200) ≤ 200
       ∧ (utf16Length (el_text anchor) ≤ 200 →
            substring0 (el_text anchor) 200 = el_text anchor)) ∧
  (pg_inspectorMode pg = true → result.2 = false) ∧
  (closestAnchor path = None → result.2 = false) ∧
  (∀ anchor, closestAnchor path = Some anchor →
     el_href anchor = None ∨ el_href anchor = Some "" → result.2 = false) ∧
  (∀ anchor href, closestAnchor path = Some anchor → el_href anchor = Some href →
     isIgnoredHref href = true → result.2 = false) ∧
  (∀ anchor href resolved, closestAnchor path = Some anchor →
     el_href anchor = Some href →
     newURL href (url_href (pg_location pg)) = Some resolved →
     isHashChange resolved (pg_location pg) = true → result.2 = false).
Proof.
  cbv zeta.
  assert (∀ anchor href, closestAnchor path = Some anchor → el_href anchor = Some href →
            pg_inspectorMode pg = false → truthy href = true →
            isIgnoredHref href = false →
            clickListener newURL pg path
            = match newURL href (url_href (pg_location pg)) with
              | Some resolved =>
                  if isHashChange resolved (pg_location pg) then (pg, false)
                  else (notifyParent
                          (LinkNavigation (reportedUrl (pg_window pg) resolved)
                             (substring0 (el_text anchor) 200) (el_selector anchor) None)
                          pg, true)
              | None =>
                  (notifyParent
                     (LinkNavigation href (substring0 (el_text anchor) 200)
                        (el_selector anchor) None) pg, true)
              end) as Hmain.
  { intros anchor href Ha Hh Hi Ht Hig. unfold clickListener.
    rewrite Hi, Ha, Hh, Ht. cbn [negb]. fold (isIgnoredHref href). by rewrite Hig. }
  assert (∀ anchor, closestAnchor path = Some anchor →
            el_href anchor = None ∨ el_href anchor = Some "" →
            clickListener newURL pg path = (pg, false)) as Hempty.
  { intros anchor Ha Hh. unfold clickListener. rewrite Ha.
    destruct (pg_inspectorMode pg); [done|]. by destruct Hh as [-> | ->]. }
  assert (∀ anchor href, closestAnchor path = Some anchor → el_href anchor = Some href →
            isIgnoredHref href = true →
            clickListener newURL pg path = (pg, false)) as Hign.
  { intros anchor href Ha Hh Hig. unfold clickListener. rewrite Ha, Hh.
    destruct (pg_inspectorMode pg); [done|]. fold (isIgnoredHref href). rewrite Hig.
    by destruct (negb (truthy href)). }
  assert (pg_inspectorMode pg = true → clickListener newURL pg path = (pg, false)) as Hinsp.
  { intros Hi. unfold clickListener. by rewrite Hi. }
  assert (closestAnchor path = None → clickListener newURL pg path = (pg, false)) as Hnone.
  { intros Ha. unfold clickListener. rewrite Ha. by destruct (pg_inspectorMode pg). }
  split; [|split; [|split; [|split; [|split; [|split]]]]].
  3: { intros Hi. by rewrite Hinsp. }
  3: { intros Ha. by rewrite Hnone. }
  3: { intros anchor Ha Hh. by rewrite (Hempty anchor). }
  3: { intros anchor href Ha Hh Hig. by rewrite (Hign anchor href). }
  3: { intros anchor href resolved Ha Hh Hr Hc.
       destruct (pg_inspectorMode pg) eqn:Ei; [by rewrite Hinsp|].
       destruct (isIgnoredHref href) eqn:Eig; [by rewrite (Hign anchor href)|].
       destruct href as [|c h]; [rewrite (Hempty anchor); auto|].
       by rewrite (Hmain anchor _ Ha Hh eq_refl eq_refl Eig), Hr, Hc. }
  all: destruct (pg_inspectorMode pg) eqn:Ei; [by rewrite Hinsp|];
    destruct (closestAnchor path) as [anchor|] eqn:Ea; [|by rewrite Hnone];
    destruct (el_href anchor) as [href|] eqn:Eh; [|rewrite (Hempty anchor); auto; done];
    destruct (isIgnoredHref href) eqn:Eig; [by rewrite (Hign anchor href)|];
    destruct href as [|c h]; [rewrite (Hempty anchor); auto; done|];
    rewrite (Hmain anchor _ eq_refl Eh eq_refl eq_refl Eig);
    destruct (closestAnchor_nearest _ _ Ea) as (below & above & Hp & Ht & Hb);
    destruct (newURL _ _) as [resolved|];
    [destruct (isHashChange resolved (pg_location pg)); [done|]|];
    try done; intros _; eexists below, anchor, above, _, _;
    (do 5 (split; [done|])); (split; [apply utf16Length_substring0|]);
    apply substring0_whole.
Qed.

Lemma clickListener_blocks_or_leaves_alone_witness :
  (clickListener exampleNewURL proxiedPage
     [mkElem "A" (Some "mailto:someone@t.example") "Mail" "a"]).1 = proxiedPage.
Proof.
  apply (clickListener_blocks_or_leaves_alone exampleNewURL proxiedPage
           [mkElem "A" (Some "mailto:someone@t.example") "Mail" "a"]).
  reflexivity.
Defined.

(** ** The patched navigation and element creation *)

(** X14. The patch never takes over [location.assign] and
    [location.replace]: after it has run both are what they were, while
    what the script sets up before that step ([__PROXY_ORIGIN__], the
    wrapper of [fetch]) is in place. On a patched page a call of the
    native [location.assign] or [location.replace] therefore posts
    nothing to the parent and takes the page to the URL, as a new
    history entry or in the place of the current one. *)
Theorem patch_leaves_location_native
    (newURL : string → string → option URLRecord) (ORIGIN : string) (pg0 : Page)
    (url : string) :
  let pg := runPatchIn ORIGIN pg0 in
  let assigned := location_assign newURL pg url in
  let replaced := location_replace newURL pg url in
  w_locationAssign (pg_window pg) = w_locationAssign (pg_window pg0)
  ∧ w_locationReplace (pg_window pg) = w_locationReplace (pg_window pg0)
  ∧ w_PROXY_ORIGIN (pg_window pg) = Some ORIGIN
  ∧ w_fetch (pg_window pg) = Patched ORIGIN (w_fetch (pg_window pg0))
  ∧ (w_locationAssign (pg_window pg0) = Some NativeNav →
       pg_outbox assigned = pg_outbox pg0
       ∧ ∀ r, newURL url (url_href (pg_location pg0)) = Some r →
           pg_location assigned = r
           ∧ pg_entries assigned = pg_entries pg0 ++ [url_href r])
  ∧ (w_locationReplace (pg_window pg0) = Some NativeNav →
       pg_outbox replaced = pg_outbox pg0
       ∧ ∀ r, newURL url (url_href (pg_location pg0)) = Some r →
           pg_location replaced = r
           ∧ pg_entries replaced = removelast (pg_entries pg0) ++ [url_href r]).
Proof.
  cbv zeta. do 4 (split; [done|]). split.
  - intros Ha. unfold location_assign, runPatchIn, runPatch.
    cbn [pg_window w_locationAssign]. rewrite Ha.
    unfold nativeNavigate. cbn [pg_location pg_entries].
    destruct (newURL url (url_href (pg_location pg0))) as [r|]; [|done].
    split; [done|]. by intros ? [= <-].
  - intros Hr. unfold location_replace, runPatchIn, runPatch.
    cbn [pg_window w_locationReplace]. rewrite Hr.
    unfold nativeNavigate. cbn [pg_location pg_entries].
    destruct (newURL url (url_href (pg_location pg0))) as [r|]; [|done].
    split; [done|]. by intros ? [= <-].
Qed.

Lemma patch_leaves_location_native_witness :
  pg_outbox
    (location_assign exampleNewURL
       (runPatchIn "https://t.example" (freshPage exampleLocation))
       "https://other.example/y")
  = []
  ∧ url_href
      (pg_location
         (location_assign exampleNewURL
            (runPatchIn "https://t.example" (freshPage exampleLocation))
            "https://other.example/y"))
    = "https://other.example/y".
Proof.
  destruct (patch_leaves_location_native exampleNewURL "https://t.example"
              (freshPage exampleLocation) "https://other.example/y")
    as (_ & _ & _ & _ & H & _).
  destruct (H eq_refl) as [Ho Hl]. split; [exact Ho|].
  destruct (Hl _ eq_refl) as [-> _]. reflexivity.
Defined.

Lemma setAttribute_other (hook : option attrHook) (n v : string)
    (attribs : gmap string string) (k : string) :
  k ≠ toLowerCase n → setAttribute hook n v attribs !! k = attribs !! k.
Proof.
  intros Hk. unfold setAttribute, nativeSetAttribute.
  destruct hook as [[O|O]|]; repeat case_match; by rewrite ?lookup_insert_ne.
Qed.

(** X15. An element that the patched [document.createElement] makes for a
    [script], [img], [video], [audio], [source] or [embed] tag (in any
    letter case) stores a [src] with the origin stripped and ignores
    [integrity]; one made for a [link] tag does the same with [href]; for
    any other tag the element is the one the replaced [createElement]
    returns. The override compares the attribute name as written, so a
    name in another letter case is stored as given, also where it names
    [src] or [integrity]. The tag name is in ASCII. *)
Theorem created_elements_strip_and_ignore_integrity
    (ORIGIN : string) (orig : prim) (tag v : string) (attribs : gmap string string) :
  isAsciiString tag = true →
  let hook := callCreateElement (Patched ORIGIN orig) tag in
  (isSrcTag (toLowerCase tag) = true →
     setAttribute hook "src" v attribs = <["src" := strip ORIGIN v]> attribs
     ∧ setAttribute hook "integrity" v attribs = attribs
     ∧ ∀ n, n ≠ "src" → n ≠ "integrity" →
         setAttribute hook n v attribs = <[toLowerCase n := v]> attribs) ∧
  (toLowerCase tag = "link" →
     setAttribute hook "href" v attribs = <["href" := strip ORIGIN v]> attribs
     ∧ setAttribute hook "integrity" v attribs = attribs
     ∧ ∀ n, n ≠ "href" → n ≠ "integrity" →
         setAttribute hook n v attribs = <[toLowerCase n := v]> attribs) ∧
  (isSrcTag (toLowerCase tag) = false → toLowerCase tag ≠ "link" →
     hook = callCreateElement orig tag) ∧
  callImage (Patched ORIGIN orig) = Some (HookSrc ORIGIN).
Proof.
  intros _. cbv zeta. cbn [callCreateElement callImage]. cbv zeta.
  split; [|split; [|split; [|done]]].
  - intros Hs. rewrite Hs.
    assert (String.eqb (toLowerCase tag) "link" = false) as ->.
    { apply String.eqb_neq. intros E. by rewrite E in Hs. }
    unfold setAttribute, nativeSetAttribute. split; [done|split; [done|]].
    intros n Hn Hi. apply String.eqb_neq in Hn, Hi. by rewrite Hn, Hi.
  - intros Hl. rewrite Hl. cbn [String.eqb Ascii.eqb Bool.eqb].
    unfold setAttribute, nativeSetAttribute. split; [done|split; [done|]].
    intros n Hn Hi. apply String.eqb_neq in Hn, Hi. by rewrite Hn, Hi.
  - intros Hs Hl. rewrite Hs. apply String.eqb_neq in Hl. by rewrite Hl.
Qed.

Lemma created_elements_strip_and_ignore_integrity_witness :
  setAttribute (callCreateElement (Patched "https://t.example" Native) "SCRIPT")
    "src" "https://t.example/app.js" ∅
  = <["src" := "/app.js"]> ∅
  ∧ setAttribute (callCreateElement (Patched "https://t.example" Native) "SCRIPT")
      "SRC" "https://t.example/app.js" ∅
    = <["src" := "https://t.example/app.js"]> ∅.
Proof.
  destruct (created_elements_strip_and_ignore_integrity "https://t.example" Native
              "SCRIPT" "https://t.example/app.js" ∅ eq_refl) as ((Hsrc & _ & Hn) & _);
    [reflexivity|].
  split; [exact Hsrc|].
  apply (Hn "SRC"); discriminate.
Defined.

Lemma fixAttr_other (ORIGIN : string) (hook : option attrHook) (attr : string)
    (attribs : gmap string string) (k : string) :
  k ≠ toLowerCase attr → fixAttr ORIGIN hook attr attribs !! k = attribs !! k.
Proof.
  intros Hk. unfold fixAttr. repeat case_match; try done.
  by apply setAttribute_other.
Qed.

Lemma fixAttr_native (ORIGIN attr : string) (attribs : gmap string string) :
  toLowerCase attr = attr →
  fixAttr ORIGIN None attr attribs !! attr = strip ORIGIN <$> attribs !! attr.
Proof.
  intros Hl. unfold fixAttr, strip, setAttribute, nativeSetAttribute.
  destruct (attribs !! attr) as [val|] eqn:E; [|by rewrite E].
  cbn [fmap option_fmap option_map].
  destruct (truthy val); cbn [andb negb]; [|done].
  destruct (startsWith val ORIGIN); [|done].
  by rewrite Hl, lookup_insert_eq.
Qed.

Lemma callInsert_Element (f : prim) (hook : option attrHook) (name : string)
    (attribs : gmap string string) (children : list node) :
  ∃ attribs',
    callInsert f hook (Element name attribs children) = Element name attribs' children
    ∧ (∀ k, k ≠ "src" → k ≠ "href" → k ≠ "integrity" → k ≠ "crossorigin" →
         attribs' !! k = attribs !! k)
    ∧ (attribs !! "integrity" = None → attribs' !! "integrity" = None)
    ∧ (attribs !! "crossorigin" = None → attribs' !! "crossorigin" = None).
Proof.
  revert attribs. induction f as [|O orig IH]; intros attribs.
  - by exists attribs.
  - cbn [callInsert fixChild]. cbv zeta.
    destruct (IH (delete "crossorigin" (delete "integrity"
                    (fixAttr O hook "href" (fixAttr O hook "src" attribs)))))
      as (a' & -> & Hk & Hi & Hc).
    exists a'. split; [done|]. split; [|split].
    + intros k ? ? ? ?. rewrite Hk by done.
      rewrite !lookup_delete_ne by done. by rewrite !fixAttr_other.
    + intros _. apply Hi. rewrite lookup_delete_ne by done. apply lookup_delete_eq.
    + intros _. apply Hc. apply lookup_delete_eq.
Qed.

(** X16. An element handed to the patched [appendChild] or [insertBefore]
    reaches the page without [integrity] and without [crossorigin],
    however many executions of the patch wrap the method and whatever
    override the element carries; its tag, its children and its other
    attributes apart from [src] and [href] are as they were, so an
    [integrity] on a descendant stays. A node that is no element passes
    unchanged. Behind one patch, an element without an override gets its
    [src] and [href] through [strip]. *)
Theorem inserted_elements_lose_integrity
    (ORIGIN : string) (orig : prim) (hook : option attrHook) (name : string)
    (attribs : gmap string string) (children : list node) :
  (∃ attribs',
     callInsert (Patched ORIGIN orig) hook (Element name attribs children)
     = Element name attribs' children
     ∧ attribs' !! "integrity" = None
     ∧ attribs' !! "crossorigin" = None
     ∧ ∀ k, k ≠ "src" → k ≠ "href" → k ≠ "integrity" → k ≠ "crossorigin" →
         attribs' !! k = attribs !! k) ∧
  (∀ s, callInsert (Patched ORIGIN orig) hook (Text s) = Text s
        ∧ callInsert (Patched ORIGIN orig) hook (Comment s) = Comment s) ∧
  (let inserted := attribsOf (callInsert (Patched ORIGIN Native) None
                                (Element name attribs children)) in
   inserted !! "src" = strip ORIGIN <$> attribs !! "src"
   ∧ inserted !! "href" = strip ORIGIN <$> attribs !! "href").
Proof.
  split; [|split].
  - cbn [callInsert fixChild]. cbv zeta.
    destruct (callInsert_Element orig hook name
                (delete "crossorigin" (delete "integrity"
                   (fixAttr ORIGIN hook "href" (fixAttr ORIGIN hook "src" attribs))))
                children) as (a' & -> & Hk & Hi & Hc).
    exists a'. split; [done|]. split; [|split].
    + apply Hi. rewrite lookup_delete_ne by done. apply lookup_delete_eq.
    + apply Hc. apply lookup_delete_eq.
    + intros k ? ? ? ?. rewrite Hk by done.
      rewrite !lookup_delete_ne by done. by rewrite !fixAttr_other.
  - intros s. split.
    + generalize (Patched ORIGIN orig). intros f. by induction f.
    + generalize (Patched ORIGIN orig). intros f. by induction f.
  - cbv zeta. cbn [callInsert fixChild attribsOf]. cbv zeta.
    rewrite !lookup_delete_ne by done. split.
    + rewrite fixAttr_other by done. by apply fixAttr_native.
    + rewrite fixAttr_native by done. by rewrite fixAttr_other.
Qed.

(** ** The inspector and the highlighter *)

Lemma modeReports_app (l1 l2 : list Highlighter.note) :
  Highlighter.modeReports (l1 ++ l2)
  = Highlighter.modeReports l1 ++ Highlighter.modeReports l2.
Proof. induction l1 as [|[] l1 IH]; cbn; by rewrite ?IH. Qed.

Lemma highlighted_app (l1 l2 : list Highlighter.note) :
  Highlighter.highlighted (l1 ++ l2)
  = Highlighter.highlighted l1 ++ Highlighter.highlighted l2.
Proof. induction l1 as [|[] l1 IH]; cbn; by rewrite ?IH. Qed.

Lemma alternates_snoc (first : bool) (flags : list bool) :
  Highlighter.alternates first flags = true →
  Highlighter.alternates first (flags ++ [negb (default (negb first) (last flags))]) = true.
Proof.
  revert first. induction flags as [|b flags IH]; intros first H.
  - cbn. by destruct first.
  - cbn in H. apply andb_true_iff in H as [Hb H].
    cbn [app Highlighter.alternates]. rewrite Hb. cbn [andb].
    specialize (IH _ H).
    destruct flags as [|b' flags].
    + cbn. apply Bool.eqb_prop in Hb. subst b. by destruct first.
    + change (last (b :: b' :: flags)) with (last (b' :: flags)).
      destruct (last (b' :: flags)) as [b0|] eqn:E; [exact IH|].
      by apply last_None in E.
Qed.

Lemma modeInvariant_highlightElement el scroll st :
  Highlighter.modeInvariant st →
  Highlighter.modeInvariant (Highlighter.highlightElement el scroll st).
Proof.
  unfold Highlighter.modeInvariant, Highlighter.reportedMode,
    Highlighter.highlightElement, Highlighter.createOverlayElements,
    Highlighter.hideOverlay, Highlighter.showOverlay, Highlighter.setDisplay.
  destruct st as [ov ct im af li cu sc ob]. cbn.
  intros (-> & Hc & Ha & Hr).
  destruct el as [e|], ov as [d|]; cbn; try done;
    destruct (isElement e); cbn; try done;
    destruct scroll; cbn; rewrite modeReports_app; cbn; by rewrite app_nil_r.
Qed.

Lemma modeInvariant_notify m st :
  Highlighter.modeReports [m] = [] →
  Highlighter.modeInvariant st →
  Highlighter.modeInvariant (Highlighter.notifyParent m st).
Proof.
  intros Hm. unfold Highlighter.modeInvariant, Highlighter.reportedMode.
  destruct st as [ov ct im af li cu sc ob].
  cbn [Highlighter.notifyParent Highlighter.outbox Highlighter.listeners
       Highlighter.inspectorMode Highlighter.cursor].
  by rewrite modeReports_app, Hm, app_nil_r.
Qed.

Lemma modeInvariant_enableInspector st :
  Highlighter.modeInvariant st →
  Highlighter.modeInvariant (Highlighter.enableInspector st)
  ∧ Highlighter.inspectorMode (Highlighter.enableInspector st) = true.
Proof.
  unfold Highlighter.modeInvariant, Highlighter.reportedMode, Highlighter.enableInspector.
  destruct st as [ov ct im af li cu sc ob]. cbn.
  intros (-> & Hc & Ha & Hr). destruct im; cbn; [done|].
  rewrite modeReports_app. cbn. split; [|done]. split; [done|]. split; [done|].
  split; [|by rewrite last_snoc].
  pose proof (alternates_snoc true _ Ha) as H. cbn [negb] in H.
  destruct (last (Highlighter.modeReports ob)) as [b|] eqn:E; cbn in Hr, H;
    [by subst b|done].
Qed.

Lemma modeInvariant_disableInspector st :
  Highlighter.modeInvariant st →
  Highlighter.modeInvariant (Highlighter.disableInspector st)
  ∧ Highlighter.inspectorMode (Highlighter.disableInspector st) = false.
Proof.
  unfold Highlighter.modeInvariant, Highlighter.reportedMode, Highlighter.disableInspector.
  destruct st as [ov ct im af li cu sc ob]. cbn.
  intros (-> & Hc & Ha & Hr). destruct im; cbn; [|done].
  rewrite modeReports_app. cbn. split; [|done]. split; [done|]. split; [done|].
  split; [|by rewrite last_snoc].
  pose proof (alternates_snoc true _ Ha) as H. cbn [negb] in H.
  destruct (last (Highlighter.modeReports ob)) as [b|] eqn:E; cbn in Hr, H;
    [by subst b|done].
Qed.

Lemma modeInvariant_step api st input :
  Highlighter.modeInvariant st →
  Highlighter.modeInvariant (Highlighter.step api st input).
Proof.
  intros H. destruct input as [dom ev]. unfold Highlighter.step. cbn [snd fst].
  destruct ev as [fromHost msg|key c m s|target isRoot|target].
  - destruct fromHost; [|done]. destruct msg; cbn [Highlighter.onMessage];
      repeat case_match;
      try done;
      try (by apply modeInvariant_highlightElement);
      try (by apply modeInvariant_notify);
      try (by apply modeInvariant_enableInspector);
      try (by apply modeInvariant_disableInspector).
    by apply modeInvariant_disableInspector, modeInvariant_highlightElement.
  - unfold Highlighter.onKeyDown.
    repeat case_match; try done;
      repeat first
        [ apply modeInvariant_highlightElement
        | apply modeInvariant_enableInspector
        | apply modeInvariant_disableInspector ]; done.
  - unfold Highlighter.onInspectorMove. repeat case_match; try done.
    by apply modeInvariant_highlightElement.
  - unfold Highlighter.onInspectorClick. repeat case_match; try done.
    by apply modeInvariant_disableInspector, modeInvariant_highlightElement.
Qed.

Lemma modeInvariant_run api inputs st :
  Highlighter.modeInvariant st →
  Highlighter.modeInvariant (fold_left (Highlighter.step api) inputs st).
Proof.
  revert st. induction inputs as [|input inputs IH]; intros st H; [done|].
  cbn [fold_left]. by apply IH, modeInvariant_step.
Qed.

(** X17. Whatever messages, keys and mouse events reach the script, the
    parent frame knows the inspector's mode: the [inspector-mode]
    messages alternate between enabled and disabled, starting with
    enabled, and the last one (disabled, if there is none) is the mode.
    The inspector's two listeners are installed exactly in the mode, and
    the cursor is the crosshair in it. In the mode, a click on an element
    outside the overlay makes it the target and ends the mode; [Escape]
    ends the mode and clears the target in any state. *)
Theorem inspector_reports_follow_the_mode
    (api : DomApi) (cursor : string)
    (inputs : list (Highlighter.Dom * Highlighter.event)) :
  let st := Highlighter.run api cursor inputs in
  Highlighter.listeners st = Highlighter.inspectorMode st
  ∧ (Highlighter.inspectorMode st = true → Highlighter.cursor st = "crosshair")
  ∧ Highlighter.alternates true (Highlighter.modeReports (Highlighter.outbox st)) = true
  ∧ Highlighter.reportedMode st = Highlighter.inspectorMode st
  ∧ (∀ dom target,
       Highlighter.inspectorMode st = true →
       hasAttribute "data-proxy-highlight" target = false →
       let st' := Highlighter.step api st (dom, Highlighter.Click (Some target)) in
       Highlighter.inspectorMode st' = false
       ∧ Highlighter.currentTarget st' = Some target)
  ∧ (∀ dom ctrlKey metaKey shiftKey,
       let st' := Highlighter.step api st
                    (dom, Highlighter.KeyDown "Escape" ctrlKey metaKey shiftKey) in
       Highlighter.inspectorMode st' = false
       ∧ Highlighter.currentTarget st' = None).
Proof.
  cbv zeta. unfold Highlighter.run.
  assert (Highlighter.modeInvariant (Highlighter.initial cursor)) as H0 by done.
  pose proof (modeInvariant_run api inputs _ H0) as H.
  destruct H as (Hl & Hc & Ha & Hr).
  set (st := fold_left (Highlighter.step api) inputs (Highlighter.initial cursor)) in *.
  split; [done|]. split; [done|]. split; [done|]. split; [done|]. split.
  - intros dom target Hm Ht. unfold Highlighter.step. cbn [fst snd].
    rewrite Hl, Hm. unfold Highlighter.onInspectorClick. rewrite Ht. cbn [negb].
    unfold Highlighter.disableInspector, Highlighter.highlightElement,
      Highlighter.createOverlayElements, Highlighter.showOverlay,
      Highlighter.setDisplay.
    destruct st as [ov ct im af li cu sc ob]. cbn in Hm. subst im.
    destruct ov, (isElement target); done.
  - intros dom c m s. unfold Highlighter.step. cbn [fst snd].
    unfold Highlighter.onKeyDown. cbn [String.eqb Ascii.eqb Bool.eqb].
    rewrite andb_false_r.
    unfold Highlighter.disableInspector, Highlighter.highlightElement,
      Highlighter.createOverlayElements, Highlighter.hideOverlay,
      Highlighter.setDisplay.
    destruct st as [ov ct im af li cu sc ob].
    destruct ov, im; done.
Qed.

Lemma inspector_reports_follow_the_mode_witness :
  Highlighter.cursor
    (Highlighter.run (mkDomApi id (fun _ => []) id) ""
       [(Highlighter.mkDom (fun _ => Some None) (fun _ => Some None)
           (Element "body" ∅ []) [],
         Highlighter.Message true Highlighter.EnableInspector)])
  = "crosshair".
Proof.
  apply (inspector_reports_follow_the_mode (mkDomApi id (fun _ => []) id) ""
           [(Highlighter.mkDom (fun _ => Some None) (fun _ => Some None)
               (Element "body" ∅ []) [],
             Highlighter.Message true Highlighter.EnableInspector)]).
  reflexivity.
Defined.

Lemma targetInvariant_highlightElement el scroll st :
  Highlighter.targetInvariant st →
  Highlighter.targetInvariant (Highlighter.highlightElement el scroll st).
Proof.
  unfold Highlighter.targetInvariant,
    Highlighter.highlightElement, Highlighter.createOverlayElements,
    Highlighter.hideOverlay, Highlighter.showOverlay, Highlighter.setDisplay.
  destruct st as [ov ct im af li cu sc ob]. cbn.
  intros (Hn & He & Hh & Hs).
  destruct el as [e|].
  - destruct (isElement e) eqn:Ee.
    + assert (Forall (λ el, isElement el = true)
                (Highlighter.highlighted (ob ++ [Highlighter.ElementHighlighted e])))
        as Hh'.
      { rewrite highlighted_app. apply Forall_app. split; [done|]. cbn. by constructor. }
      assert (∀ x, x ∈ sc ∨ x = e →
                x ∈ Highlighter.highlighted (ob ++ [Highlighter.ElementHighlighted e]))
        as Hs'.
      { intros x Hx. rewrite highlighted_app. apply elem_of_app. cbn.
        destruct Hx as [Hx| ->]; [left; by apply Hs|right; by apply list_elem_of_singleton]. }
      destruct ov, scroll; cbn; (split; [done|]); (split; [done|]); (split; [done|]);
        intros x Hx; apply Hs'; rewrite ?elem_of_app, ?list_elem_of_singleton in Hx; tauto.
    + destruct ov; cbn; (split; [done|]); (split; [|done]);
        intros el [= <-]; congruence.
  - destruct ov; cbn; repeat split; done.
Qed.

Lemma targetInvariant_notify m st :
  Highlighter.highlighted [m] = [] →
  Highlighter.targetInvariant st →
  Highlighter.targetInvariant (Highlighter.notifyParent m st).
Proof.
  intros Hm. unfold Highlighter.targetInvariant.
  destruct st as [ov ct im af li cu sc ob].
  cbn [Highlighter.notifyParent Highlighter.outbox Highlighter.currentTarget
       Highlighter.animationFrameId Highlighter.overlay Highlighter.scrolled].
  by rewrite highlighted_app, Hm, app_nil_r.
Qed.

Lemma targetInvariant_enableInspector st :
  Highlighter.targetInvariant st →
  Highlighter.targetInvariant (Highlighter.enableInspector st).
Proof.
  unfold Highlighter.enableInspector. destruct (Highlighter.inspectorMode st); [done|].
  intros H. apply targetInvariant_notify; [done|].
  by destruct st.
Qed.

Lemma targetInvariant_disableInspector st :
  Highlighter.targetInvariant st →
  Highlighter.targetInvariant (Highlighter.disableInspector st).
Proof.
  unfold Highlighter.disableInspector. destruct (Highlighter.inspectorMode st); [|done].
  intros H. apply targetInvariant_notify; [done|].
  by destruct st.
Qed.

Lemma targetInvariant_step api st input :
  Highlighter.targetInvariant st →
  Highlighter.targetInvariant (Highlighter.step api st input).
Proof.
  intros H. destruct input as [dom ev]. unfold Highlighter.step. cbn [snd fst].
  destruct ev as [fromHost msg|key c m s|target isRoot|target].
  - destruct fromHost; [|done]. destruct msg; cbn [Highlighter.onMessage];
      repeat case_match;
      try done;
      try (by apply targetInvariant_highlightElement);
      try (by apply targetInvariant_notify);
      try (by apply targetInvariant_enableInspector);
      try (by apply targetInvariant_disableInspector).
    by apply targetInvariant_disableInspector, targetInvariant_highlightElement.
  - unfold Highlighter.onKeyDown.
    repeat case_match; try done;
      repeat first
        [ apply targetInvariant_highlightElement
        | apply targetInvariant_enableInspector
        | apply targetInvariant_disableInspector ]; done.
  - unfold Highlighter.onInspectorMove. repeat case_match; try done.
    by apply targetInvariant_highlightElement.
  - unfold Highlighter.onInspectorClick. repeat case_match; try done.
    by apply targetInvariant_disableInspector, targetInvariant_highlightElement.
Qed.

Lemma targetInvariant_run api inputs st :
  Highlighter.targetInvariant st →
  Highlighter.targetInvariant (fold_left (Highlighter.step api) inputs st).
Proof.
  revert st. induction inputs as [|input inputs IH]; intros st H; [done|].
  cbn [fold_left]. by apply IH, targetInvariant_step.
Qed.

(** X18. Whatever reaches the script, what is shown goes with the
    target: without a target no animation frame is pending and the
    overlay is not displayed; with an element as target a frame is
    pending and the overlay is displayed; only elements are reported as
    highlighted, and an element is scrolled to only when it is reported.
    The converse fails for a node that is no element, which an XPath can
    select: it becomes the target, and nothing is shown, tracked or
    posted for it. *)
Theorem overlay_follows_the_target
    (api : DomApi) (cursor : string)
    (inputs : list (Highlighter.Dom * Highlighter.event)) :
  let st := Highlighter.run api cursor inputs in
  (Highlighter.currentTarget st = None →
     Highlighter.animationFrameId st = false
     ∧ Highlighter.overlay st ≠ Some Highlighter.Block)
  ∧ (∀ el, Highlighter.currentTarget st = Some el → isElement el = true →
       Highlighter.animationFrameId st = true
       ∧ Highlighter.overlay st = Some Highlighter.Block)
  ∧ Forall (fun el => isElement el = true)
      (Highlighter.highlighted (Highlighter.outbox st))
  ∧ Highlighter.scrolled st ⊆ Highlighter.highlighted (Highlighter.outbox st)
  ∧ (∀ dom xpath scroll n,
       Highlighter.evaluate dom xpath = Some (Some n) → isElement n = false →
       let st' := Highlighter.step api st
                    (dom, Highlighter.Message true (Highlighter.HighlightXPath xpath scroll)) in
       Highlighter.currentTarget st' = Some n
       ∧ Highlighter.animationFrameId st' = Highlighter.animationFrameId st
       ∧ Highlighter.outbox st' = Highlighter.outbox st
       ∧ Highlighter.scrolled st' = Highlighter.scrolled st
       ∧ (Highlighter.overlay st' = Highlighter.overlay st
          ∨ Highlighter.overlay st = None
            ∧ Highlighter.overlay st' = Some Highlighter.Unset)).
Proof.
  cbv zeta. unfold Highlighter.run.
  assert (Highlighter.targetInvariant (Highlighter.initial cursor)) as H0.
  { repeat split; try done; by constructor. }
  pose proof (targetInvariant_run api inputs _ H0) as H.
  destruct H as (Hn & He & Hh & Hs).
  set (st := fold_left (Highlighter.step api) inputs (Highlighter.initial cursor)) in *.
  split; [done|]. split; [done|]. split; [done|]. split; [done|].
  intros dom xpath scroll n Hx Hn'. unfold Highlighter.step. cbn [fst snd].
  cbn [Highlighter.onMessage]. rewrite Hx.
  unfold Highlighter.highlightElement, Highlighter.createOverlayElements. rewrite Hn'.
  destruct st as [ov ct im af li cu sc ob]. destruct ov; cbn; auto 10.
Qed.

Lemma overlay_follows_the_target_witness :
  Highlighter.animationFrameId
    (Highlighter.run (mkDomApi id (fun _ => []) id) ""
       [(Highlighter.mkDom (fun _ => Some (Some (Element "p" ∅ [])))
           (fun _ => Some None) (Element "body" ∅ [Element "p" ∅ []]) [],
         Highlighter.Message true (Highlighter.HighlightSelector "p" true))])
  = true
  ∧ Highlighter.overlay
      (Highlighter.run (mkDomApi id (fun _ => []) id) ""
         [(Highlighter.mkDom (fun _ => Some (Some (Element "p" ∅ [])))
             (fun _ => Some None) (Element "body" ∅ [Element "p" ∅ []]) [],
           Highlighter.Message true (Highlighter.HighlightSelector "p" true))])
    = Some Highlighter.Block.
Proof.
  destruct (overlay_follows_the_target (mkDomApi id (fun _ => []) id) ""
           [(Highlighter.mkDom (fun _ => Some (Some (Element "p" ∅ [])))
               (fun _ => Some None) (Element "body" ∅ [Element "p" ∅ []]) [],
             Highlighter.Message true (Highlighter.HighlightSelector "p" true))])
    as (_ & He & _).
  apply (He (Element "p" ∅ [])); reflexivity.
Defined.

(** ** The DOM tree *)

Lemma buildDomTree_None api el trail inDocument maxDepth depth :
  buildDomTree api el trail inDocument maxDepth depth = None
  ↔ isElement el = false ∨ depthAbove depth maxDepth = true ∨ isInjected el = true.
Proof.
  unfold isInjected. destruct el as [data|data|name attribs children]; cbn [buildDomTree isElement].
  - split; [by left|done].
  - split; [by left|done].
  - destruct (depthAbove depth maxDepth); [split; [by right; left|done]|].
    destruct (hasAttribute "data-proxy-highlight" _); [split; [by right; right|done]|].
    destruct (hasAttribute "data-proxy-injected" _); [split; [by right; right|done]|].
    cbn [orb]. split; [done|]. by intros [?|[?|?]].
Qed.

Lemma mapFilter_Forall {A : Type} (P : A → Prop) (f : nat → node → option A)
    (nodes : list node) (i : nat) :
  Forall (fun c => ∀ i t, f i c = Some t → P t) nodes →
  Forall P (mapFilter f i nodes).
Proof.
  intros H. revert i. induction H as [|c nodes Hc _ IH]; intros i; cbn; [constructor|].
  destruct (f i c) as [t|] eqn:E; [constructor; eauto|apply IH].
Qed.

Lemma mapFilter_length {A : Type} (f : nat → node → option A) (keep : node → bool)
    (nodes : list node) (i : nat) :
  (∀ i c, c ∈ nodes → f i c = None ↔ keep c = false) →
  length (mapFilter f i nodes) = length (List.filter keep nodes).
Proof.
  revert i. induction nodes as [|c nodes IH]; intros i H; cbn; [done|].
  assert (∀ i c0, c0 ∈ nodes → f i c0 = None ↔ keep c0 = false) as H'.
  { intros j c0 Hc0. apply H. by right. }
  destruct (f i c) as [t|] eqn:E.
  - destruct (keep c) eqn:K; cbn; [by rewrite IH|].
    apply (H i c) in K; [congruence|by left].
  - apply (H i c) in E; [|by left]. rewrite E. by apply IH.
Qed.

Lemma list_max_in (l : list nat) : l ≠ [] → list_max l ∈ l.
Proof.
  induction l as [|x l IH]; [done|]. intros _.
  change (list_max (x :: l)) with (Nat.max x (list_max l)).
  destruct l as [|y l].
  - cbn. rewrite Nat.max_0_r. by left.
  - destruct (Nat.max_spec x (list_max (y :: l))) as [[_ ->]|[_ ->]];
      [right; by apply IH|by left].
Qed.

Lemma buildDomTree_height api el :
  ∀ trail inDocument maxDepth depth t,
    buildDomTree api el trail inDocument maxDepth depth = Some t →
    depthAbove (depth + dn_height t) maxDepth = false.
Proof.
  induction el as [data|data|name attribs children IH] using node_induction;
    intros trail inDocument maxDepth depth t; cbn [buildDomTree]; try done.
  destruct (depthAbove depth maxDepth) eqn:Ed; [done|].
  destruct (hasAttribute "data-proxy-highlight" _); [done|].
  destruct (hasAttribute "data-proxy-injected" _); [done|].
  intros [= <-].
  destruct (existsb isElement children && depthBelow depth maxDepth) eqn:E;
    cbn [dn_height]; [|by rewrite Nat.add_0_r].
  match goal with |- context [list_max (List.map ?f ?l)] =>
    assert (Forall (fun t => depthAbove (S depth + dn_height t) maxDepth = false) l)
      as Hall; [|set (nodes := l) in *] end.
  { apply mapFilter_Forall. eapply Forall_impl; [exact IH|]. cbn beta.
    intros c Hc i t Ht. destruct (isElement c); [|done]. by apply Hc in Ht. }
  destruct nodes as [|t0 nodes]; [by rewrite Nat.add_0_r|].
  pose proof (list_max_in (List.map (λ c, S (dn_height c)) (t0 :: nodes))
                ltac:(done)) as Hin.
  apply list_elem_of_In, List.in_map_iff in Hin as (t & Ht & Hin).
  rewrite <- Ht. rewrite Forall_forall in Hall.
  apply list_elem_of_In in Hin. specialize (Hall t Hin).
  by replace (depth + S (dn_height t)) with (S depth + dn_height t) by lia.
Qed.



(** At a depth of one half the root is listed with an empty [children]
    field, whatever element children it has. *)
Example buildDomTree_half :
  buildDomTree (mkDomApi id (fun _ => []) id)
    (Element "body" ∅ [Element "p" ∅ [Text "Hello"]])
    [(Element "html" ∅ [], 1)] true (Finite (QArith_base.Qmake 1 2)) 0
  = Some (mkDomNode "body" "body" None None None (Some [])).
Proof. reflexivity. Qed.

(** ** Colours *)

Lemma hexValue_digit (d : ascii) (v : nat) :
  hexValue d = Some v →
  v < 16 ∧ isWhiteSpace d = false ∧ Nat.leb 128 (nat_of_ascii d) = false
  ∧ Ascii.eqb "+" d = false ∧ Ascii.eqb "-" d = false
  ∧ Ascii.eqb "x" d = false ∧ Ascii.eqb "X" d = false
  ∧ isContinuation d = false ∧ isLead4 d = false.
Proof.
  destruct d as [[] [] [] [] [] [] [] []]; vm_compute; intros [= <-];
    repeat split; lia.
Qed.

Lemma hexValue_continuation (c : ascii) : isContinuation c = true → hexValue c = None.
Proof. destruct c as [[] [] [] [] [] [] [] []]; vm_compute; congruence. Qed.

Lemma hexRun_substring0_0 (s : string) (acc : option nat) :
  hexRun (substring0 s 0) acc = acc.
Proof.
  destruct s as [|c s]; [done|]. cbn [substring0].
  destruct (isContinuation c) eqn:E; [|done].
  cbn [hexRun]. by rewrite (hexValue_continuation c E).
Qed.

Lemma parseInt16_two_digits (d1 d2 : ascii) (v1 v2 : nat) (tail : string) :
  hexValue d1 = Some v1 → hexValue d2 = Some v2 →
  (∀ acc, hexRun tail acc = acc) →
  parseInt16 (String d1 (String d2 tail)) = Some (Z.of_nat (16 * v1 + v2)).
Proof.
  intros H1 H2 Ht.
  destruct (hexValue_digit _ _ H1) as (_ & Hw & Ha & Hp & Hm & _).
  destruct (hexValue_digit _ _ H2) as (_ & _ & _ & _ & _ & Hx & HX & _).
  unfold parseInt16, skipWhiteSpace.
  cbn [String.length skipWhiteSpaceWithin afterSpace]. rewrite Hw, Ha. cbv zeta.
  cbn [startsWith]. rewrite Hp, Hm. cbn [orb].
  cbn [startsWith]. rewrite Hx, HX.
  assert ((if Ascii.eqb "0" d1 then false else false) = false) as ->
    by by destruct (Ascii.eqb "0" d1).
  cbn [orb].
  cbn [hexRun]. rewrite H1. cbn [hexRun]. rewrite H2, Ht. cbn [default].
  unfold id. by f_equal.
Qed.

Lemma dropContinuation_append (cont s : string) :
  forallb isContinuation (chars cont) = true →
  dropContinuation (cont +:+ s) = dropContinuation s.
Proof.
  induction cont as [|c cont IH]; [done|]. cbn.
  intros [Hc H]%andb_true_iff. rewrite Hc. by apply IH.
Qed.

Lemma sliceUnits_continuation (cont s : string) (a : nat) :
  forallb isContinuation (chars cont) = true →
  sliceUnits (cont +:+ s) (S a) = sliceUnits s (S a).
Proof.
  induction cont as [|c cont IH]; [done|]. cbn [chars forallb].
  intros [Hc H]%andb_true_iff.
  change (String c cont +:+ s) with (String c (cont +:+ s)).
  cbn [sliceUnits]. rewrite Hc. by apply IH.
Qed.

Lemma sliceUnits_oneUnit (first s : string) (a : nat) :
  isOneUnit first = true →
  sliceUnits (first +:+ s) (S a)
  = match a with O => dropContinuation s | S _ => sliceUnits s a end.
Proof.
  destruct first as [|c cont]; [done|]. cbn [isOneUnit].
  intros [[Hc Hl]%andb_true_iff Hcont]%andb_true_iff.
  apply negb_true_iff in Hc, Hl.
  change (String c cont +:+ s) with (String c (cont +:+ s)).
  cbn [sliceUnits]. rewrite Hc, Hl.
  destruct a as [|a]; [by apply dropContinuation_append|].
  by apply sliceUnits_continuation.
Qed.

Lemma sliceUnits_digit (d : ascii) (v : nat) (s : string) (a : nat) :
  hexValue d = Some v →
  sliceUnits (String d s) (S a)
  = match a with O => dropContinuation s | S _ => sliceUnits s a end.
Proof.
  intros H. destruct (hexValue_digit _ _ H) as (_ & _ & _ & _ & _ & _ & _ & Hc & Hl).
  cbn [sliceUnits]. rewrite Hc, Hl. by destruct a.
Qed.

Lemma dropContinuation_digit (d : ascii) (v : nat) (s : string) :
  hexValue d = Some v → dropContinuation (String d s) = String d s.
Proof.
  intros H. destruct (hexValue_digit _ _ H) as (_ & _ & _ & _ & _ & _ & _ & Hc & _).
  cbn. by rewrite Hc.
Qed.

Lemma substring0_two_digits (d1 d2 : ascii) (v1 v2 : nat) (s : string) :
  hexValue d1 = Some v1 → hexValue d2 = Some v2 →
  substring0 (String d1 (String d2 s)) 2 = String d1 (String d2 (substring0 s 0)).
Proof.
  intros H1 H2.
  destruct (hexValue_digit _ _ H1) as (_ & _ & _ & _ & _ & _ & _ & Hc1 & Hl1).
  destruct (hexValue_digit _ _ H2) as (_ & _ & _ & _ & _ & _ & _ & Hc2 & Hl2).
  cbn [substring0]. by rewrite Hc1, Hl1, Hc2, Hl2.
Qed.

Lemma dropContinuation_no_units (s : string) :
  utf16Length s = 0 → dropContinuation s = "".
Proof.
  induction s as [|c s IH]; [done|]. cbn [utf16Length dropContinuation].
  destruct (isContinuation c); [done|]. destruct (isLead4 c); lia.
Qed.

Lemma sliceUnits_short (s : string) (a : nat) :
  utf16Length s ≤ S a → sliceUnits s (S a) = "".
Proof.
  revert a. induction s as [|c s IH]; intros a H; [done|].
  cbn [sliceUnits utf16Length] in *.
  destruct (isContinuation c); [by apply IH|].
  destruct (isLead4 c).
  - destruct a as [|[|a]]; [lia| |apply IH; lia].
    apply dropContinuation_no_units. lia.
  - destruct a as [|a]; [|apply IH; lia].
    apply dropContinuation_no_units. lia.
Qed.

Lemma showNumber_of_nat (n : nat) : showNumber (Some (Z.of_nat n)) = decimal n.
Proof.
  unfold showNumber. destruct (Z.ltb_spec (Z.of_nat n) 0); [lia|].
  by rewrite Nat2Z.id.
Qed.

(** X20. [hexToRgba] reads the six UTF-16 units after the first one, two
    by two: where they are hexadecimal digits it prints the three values
    they stand for, each at most 255, whatever the first character is (a
    character of one unit, inside or outside ASCII) and whatever follows
    the six. A colour of fewer than six units, such as the short form
    [#f44] or a colour name, gets [NaN] as its blue. *)
Theorem hexToRgba_reads_six_digits
    (first : string) (d1 d2 d3 d4 d5 d6 : ascii) (rest alpha : string)
    (v1 v2 v3 v4 v5 v6 : nat) :
  isOneUnit first = true →
  hexValue d1 = Some v1 → hexValue d2 = Some v2 → hexValue d3 = Some v3 →
  hexValue d4 = Some v4 → hexValue d5 = Some v5 → hexValue d6 = Some v6 →
  hexToRgba
    (first +:+ String d1 (String d2 (String d3 (String d4 (String d5 (String d6 rest))))))
    alpha
  = "rgba(" +:+ decimal (16 * v1 + v2) +:+ ", " +:+ decimal (16 * v3 + v4) +:+ ", "
      +:+ decimal (16 * v5 + v6) +:+ ", " +:+ alpha +:+ ")"
  ∧ 16 * v1 + v2 ≤ 255 ∧ 16 * v3 + v4 ≤ 255 ∧ 16 * v5 + v6 ≤ 255
  ∧ ∀ short, utf16Length short ≤ 5 →
      ∃ r g, hexToRgba short alpha
             = "rgba(" +:+ r +:+ ", " +:+ g +:+ ", " +:+ "NaN" +:+ ", " +:+ alpha +:+ ")".
Proof.
  intros Hf H1 H2 H3 H4 H5 H6.
  pose proof (hexValue_digit _ _ H1). pose proof (hexValue_digit _ _ H2).
  pose proof (hexValue_digit _ _ H3). pose proof (hexValue_digit _ _ H4).
  pose proof (hexValue_digit _ _ H5). pose proof (hexValue_digit _ _ H6).
  split; [|split; [lia|split; [lia|split; [lia|]]]].
  - unfold hexToRgba, slice2. cbn [Nat.sub].
    rewrite !(sliceUnits_oneUnit first _ _ Hf).
    rewrite (dropContinuation_digit _ _ _ H1).
    rewrite (sliceUnits_digit _ _ _ _ H1), (sliceUnits_digit _ _ _ _ H2),
      (dropContinuation_digit _ _ _ H3).
    rewrite (sliceUnits_digit d1 _ _ _ H1), (sliceUnits_digit d2 _ _ _ H2),
      (sliceUnits_digit d3 _ _ _ H3), (sliceUnits_digit d4 _ _ _ H4),
      (dropContinuation_digit _ _ _ H5).
    rewrite (substring0_two_digits _ _ _ _ _ H1 H2),
      (substring0_two_digits _ _ _ _ _ H3 H4), (substring0_two_digits _ _ _ _ _ H5 H6).
    rewrite (parseInt16_two_digits _ _ _ _ _ H1 H2 (hexRun_substring0_0 _)),
      (parseInt16_two_digits _ _ _ _ _ H3 H4 (hexRun_substring0_0 _)),
      (parseInt16_two_digits _ _ _ _ _ H5 H6 (hexRun_substring0_0 _)).
    by rewrite !showNumber_of_nat.
  - intros short Hs. unfold hexToRgba, slice2.
    rewrite (sliceUnits_short short 4) by lia.
    by eexists _, _.
Qed.

Lemma hexToRgba_reads_six_digits_witness :
  hexToRgba "#FF4444" "0.12" = "rgba(255, 68, 68, 0.12)".
Proof.
  apply (hexToRgba_reads_six_digits "#" "F" "F" "4" "4" "4" "4" "" "0.12" 15 15 4 4 4 4);
    reflexivity.
Defined.

(** A first character outside ASCII is one unit like any other; one
    outside the Basic Multilingual Plane is two, and then the red is read
    from its second half and the first digit. *)
Example hexToRgba_wide_first :
  hexToRgba (bytes [195; 169] +:+ "FF4444") "0.12" = "rgba(255, 68, 68, 0.12)"
  ∧ hexToRgba (bytes [240; 159; 152; 128] +:+ "FF4444") "0.12"
    = "rgba(NaN, 244, 68, 0.12)"
  ∧ hexToRgba "#f44" "0.12" = "rgba(244, 4, NaN, 0.12)".
Proof. repeat split; vm_compute; reflexivity. Qed.

(** ** Selectors *)

Lemma siblings_split (p current : node) (i : nat) :
  childNodes p !! i = Some current → isElement current = true →
  siblings p current
  = List.filter (sameTagName current) (take i (childNodes p))
    ++ current :: List.filter (sameTagName current) (drop (S i) (childNodes p)).
Proof.
  intros Hi He. unfold siblings.
  rewrite <- (take_drop_middle _ _ _ Hi) at 1.
  rewrite List.filter_app. cbn [List.filter].
  unfold sameTagName at 2. by rewrite He, String.eqb_refl.
Qed.

(** X21. One step of the selector [getUniqueSelector] writes names the
    element among the children of its parent: where other children have
    the same tag name the step is [tag:nth-of-type(k)], and the element is
    the [k]-th of them, counted from one; otherwise the step is the bare
    tag and the element is the only child with that name. An element with
    an [id] gets [#] and the escaped [id], wherever it stands. *)
Theorem selector_step_names_the_element
    (api : DomApi) (parent current : node) (i : nat) :
  childNodes parent !! i = Some current → isElement current = true →
  let k := length (List.filter (sameTagName current) (take i (childNodes parent))) + 1 in
  1 ≤ k ≤ length (siblings parent current)
  ∧ siblings parent current !! (k - 1) = Some current
  ∧ (1 < length (siblings parent current) →
       stepSelector current (Some (parent, i))
       = toLowerCase (tagName current) +:+ ":nth-of-type(" +:+ decimal k +:+ ")")
  ∧ (length (siblings parent current) ≤ 1 →
       stepSelector current (Some (parent, i)) = toLowerCase (tagName current)
       ∧ siblings parent current = [current])
  ∧ (∀ trail inDocument, truthy (elementId current) = true →
       getUniqueSelector api current trail inDocument
       = "#" +:+ CSS_escape api (elementId current)).
Proof.
  intros Hi He. cbv zeta.
  pose proof (siblings_split parent current i Hi He) as Hs.
  set (before := List.filter (sameTagName current) (take i (childNodes parent))) in *.
  set (after := List.filter (sameTagName current) (drop (S i) (childNodes parent))) in *.
  assert (length (siblings parent current) = length before + S (length after)) as Hl.
  { rewrite Hs, length_app. done. }
  split; [lia|]. split; [|split; [|split]].
  - rewrite Hs. apply list_lookup_middle. lia.
  - intros H. unfold stepSelector. cbv zeta.
    destruct (Nat.ltb_spec 1 (length (siblings parent current))); [done|lia].
  - intros H. unfold stepSelector. cbv zeta.
    destruct (Nat.ltb_spec 1 (length (siblings parent current))); [lia|].
    split; [done|]. rewrite Hs.
    destruct before, after; cbn in Hl; try lia. done.
  - intros trail inDocument Hid. unfold getUniqueSelector. by rewrite Hid.
Qed.

Lemma selector_step_names_the_element_witness :
  stepSelector (Element "li" ∅ [Text "b"])
    (Some (Element "ul" ∅ [Element "li" ∅ [Text "a"]; Text " "; Element "li" ∅ [Text "b"]], 2))
  = "li:nth-of-type(2)".
Proof.
  destruct (selector_step_names_the_element (mkDomApi id (fun _ => []) id)
              (Element "ul" ∅ [Element "li" ∅ [Text "a"]; Text " "; Element "li" ∅ [Text "b"]])
              (Element "li" ∅ [Text "b"]) 2 eq_refl eq_refl) as (_ & _ & H & _).
  apply H. vm_compute. lia.
Defined.

(** ** Searching for a text *)

Lemma walkTexts_None (text : string) (parent : node) (nodes : list node) :
  Forall (fun c => isElement c = true →
            (Highlighter.findText text c = None
             ↔ Forall (fun data => truthy data && includes data text = false)
                 (textsBelow c))) nodes →
  Highlighter.walkTexts (Highlighter.findText text) text parent nodes = None
  ↔ Forall (fun data => truthy data && includes data text = false)
      (List.flat_map textsBelow nodes).
Proof.
  induction 1 as [|c nodes Hc _ IH]; cbn [Highlighter.walkTexts List.flat_map].
  - split; [constructor|done].
  - rewrite Forall_app. destruct c as [data|data|name attribs children].
    + cbn [textsBelow]. destruct (truthy data && includes data text) eqn:E.
      * split; [done|]. intros [H _]. inversion H; congruence.
      * rewrite IH. split; [|tauto]. intros H. split; [|done]. by repeat constructor.
    + cbn [textsBelow]. rewrite IH. split; [|tauto]. intros H. split; [constructor|done].
    + specialize (Hc eq_refl).
      destruct (Highlighter.findText text (Element name attribs children)) eqn:E.
      * split; [done|]. intros [H _]. apply Hc in H. done.
      * rewrite IH. split; [|tauto]. intros H. split; [|done]. by apply Hc.
Qed.

Lemma findText_None (text : string) (el : node) :
  isElement el = true →
  Highlighter.findText text el = None
  ↔ Forall (fun data => truthy data && includes data text = false) (textsBelow el).
Proof.
  induction el as [data|data|name attribs children IH] using node_induction;
    intros He; try done.
  cbn [Highlighter.findText textsBelow]. by apply walkTexts_None.
Qed.

Lemma walkTexts_Some (text : string) (parent found : node) (nodes : list node) :
  Forall (fun c => ∀ found, Highlighter.findText text c = Some found →
            found ∈ nodesBelow c
            ∧ ∃ data, Text data ∈ childNodes found
                      ∧ truthy data = true ∧ includes data text = true) nodes →
  Highlighter.walkTexts (Highlighter.findText text) text parent nodes = Some found →
  (found = parent
   ∧ ∃ data, Text data ∈ nodes ∧ truthy data = true ∧ includes data text = true)
  ∨ (found ∈ List.flat_map nodesBelow nodes
     ∧ ∃ data, Text data ∈ childNodes found
               ∧ truthy data = true ∧ includes data text = true).
Proof.
  induction 1 as [|c nodes Hc _ IH]; cbn [Highlighter.walkTexts List.flat_map]; [done|].
  assert (Highlighter.walkTexts (Highlighter.findText text) text parent nodes = Some found →
          (found = parent
           ∧ ∃ data, Text data ∈ c :: nodes ∧ truthy data = true
                     ∧ includes data text = true)
          ∨ (found ∈ nodesBelow c ++ List.flat_map nodesBelow nodes
             ∧ ∃ data, Text data ∈ childNodes found
                       ∧ truthy data = true ∧ includes data text = true)) as Hrest.
  { intros H. destruct (IH H) as [(-> & data & Hd & Ht)|(Hin & Hd)].
    - left. split; [done|]. exists data. split; [by right|done].
    - right. split; [|done]. apply elem_of_app. by right. }
  destruct c as [data|data|name attribs children]; [|done|].
  - destruct (truthy data && includes data text) eqn:E; [|done].
    intros [= <-]. apply andb_true_iff in E as [Et Ei].
    left. split; [done|]. exists data. split; [by left|done].
  - destruct (Highlighter.findText text (Element name attribs children)) as [f|] eqn:E;
      [|done].
    intros [= <-]. destruct (Hc _ eq_refl) as [Hin Hd].
    right. split; [|done]. apply elem_of_app. by left.
Qed.

Lemma findText_Some (text : string) (el found : node) :
  Highlighter.findText text el = Some found →
  found ∈ nodesBelow el
  ∧ ∃ data, Text data ∈ childNodes found
            ∧ truthy data = true ∧ includes data text = true.
Proof.
  revert found.
  induction el as [data|data|name attribs children IH] using node_induction;
    intros found; try done.
  cbn [Highlighter.findText]. intros H.
  destruct (walkTexts_Some text _ found children IH H)
    as [(-> & data & Hd & Ht)|(Hin & Hd)].
  - split; [by left|]. by exists data.
  - split; [|done]. cbn [nodesBelow childNodes]. by right.
Qed.

(** X22. The search of [highlight-text] is exact. It finds nothing, and
    the script posts its error, exactly when no text node at any depth
    below the body is both non-empty and contains the text; what it
    finds is an element, the body or one below it, with a text node that
    contains the text among its own children, and that element becomes
    the target. With the empty text every non-empty text node
    qualifies. *)
Theorem highlight_text_finds_a_parent_of_the_text
    (api : DomApi) (dom : Highlighter.Dom) (text : string) (scroll : bool)
    (st : Highlighter.State) :
  isElement (Highlighter.body dom) = true →
  let st' := Highlighter.onMessage api dom (Highlighter.HighlightText text scroll) st in
  (Forall (fun data => truthy data && includes data text = false)
     (textsBelow (Highlighter.body dom)) →
   st' = Highlighter.notifyParent
           (Highlighter.Error ("No element containing text: " +:+ text)) st)
  ∧ (¬ Forall (fun data => truthy data && includes data text = false)
         (textsBelow (Highlighter.body dom)) →
     ∃ found data,
       Highlighter.currentTarget st' = Some found
       ∧ isElement found = true
       ∧ found ∈ nodesBelow (Highlighter.body dom)
       ∧ Text data ∈ childNodes found
       ∧ truthy data = true ∧ includes data text = true
       ∧ last (Highlighter.outbox st') = Some (Highlighter.ElementHighlighted found))
  ∧ (text = "" →
     Forall (fun data => truthy data && includes data text = false)
       (textsBelow (Highlighter.body dom))
     ↔ Forall (fun data => data = "") (textsBelow (Highlighter.body dom))).
Proof.
  intros Hb. cbv zeta. cbn [Highlighter.onMessage].
  pose proof (findText_None text _ Hb) as Hnone.
  split; [|split].
  - intros H. apply Hnone in H. by rewrite H.
  - intros H.
    destruct (Highlighter.findText text (Highlighter.body dom)) as [found|] eqn:E;
      [|destruct H; by apply Hnone].
    destruct (findText_Some _ _ _ E) as (Hin & data & Hd & Ht & Hi).
    assert (isElement found = true) as He.
    { destruct found; try done; cbn in Hd; by apply elem_of_nil in Hd. }
    exists found, data.
    unfold Highlighter.highlightElement, Highlighter.createOverlayElements,
      Highlighter.showOverlay, Highlighter.setDisplay.
    rewrite He. destruct st as [ov ct im af li cu sc ob].
    destruct ov, scroll; cbn; by rewrite last_snoc.
  - intros ->. apply Forall_iff. intros data.
    destruct data as [|c data]; cbn; done.
Qed.

Lemma highlight_text_finds_a_parent_of_the_text_witness :
  let dom := Highlighter.mkDom (fun _ => Some None) (fun _ => Some None)
               (Element "body" ∅ [Text " "; Element "p" ∅ [Text "Hello world"]]) [] in
  let st' := Highlighter.onMessage (mkDomApi id (fun _ => []) id) dom
               (Highlighter.HighlightText "world" true) (Highlighter.initial "") in
  ∃ found data,
    Highlighter.currentTarget st' = Some found
    ∧ isElement found = true
    ∧ found ∈ nodesBelow (Highlighter.body dom)
    ∧ Text data ∈ childNodes found
    ∧ truthy data = true ∧ includes data "world" = true
    ∧ last (Highlighter.outbox st') = Some (Highlighter.ElementHighlighted found).
Proof.
  cbv zeta.
  apply (highlight_text_finds_a_parent_of_the_text (mkDomApi id (fun _ => []) id)
           (Highlighter.mkDom (fun _ => Some None) (fun _ => Some None)
              (Element "body" ∅ [Text " "; Element "p" ∅ [Text "Hello world"]]) [])
           "world" true (Highlighter.initial "") eq_refl).
  intros H. apply Forall_cons in H as [_ H]. apply Forall_cons in H as [H _].
  vm_compute in H. discriminate H.
Defined.
